(** * English-visualizer: local persistence and backup/restore pipeline

    A shallow embedding of [services/dbService.ts], [services/backupService.ts],
    the SQLite snapshot service ([exportToSQLiteChunks], [importFromSQLite])
    and the handlers of [App.tsx]: the reconciliation step of
    [handleBackupImport], the CSV upload, the effect that synchronises the
    statuses with the store, the batch generation, the deletion, the ZIP
    export and the search.

    Asynchrony is sequential in the source (every store access is awaited
    before the next statement runs), so promises are modelled by explicit
    state passing: the Image Store is threaded through every operation.
    The platform services the code calls but does not define ([JSON.parse],
    [JSON.stringify], the floating-point percentage, the sql.js container
    format) are interfaces (type classes); the theorems hold for every
    implementation of them, and one concrete implementation is given for
    evaluation on concrete inputs.

    A backup stream is the sequence of texts that the [TextDecoder] returns,
    one per read.  The progress callback of [importBackup], which depends
    on byte counts only, is modelled apart ([importBackup_progress]).  The store and the sentences are
    typed as the TypeScript signatures type them (strings); a parsed record
    that would put another kind of value there is outside the embedding,
    and the import of such a stream has no result here. *)

From Stdlib Require Import ZArith Ascii String.
From Stdlib Require DecimalString DecimalZ DecimalPos DecimalFacts.
From stdpp Require Import base option list sorting strings pretty gmap fin_maps.

Local Open Scope string_scope.
Local Open Scope list_scope.
Local Open Scope nat_scope.

Set Warnings "-register-all,-clear-no-such-hyp".

(** ** JavaScript strings *)

Module JsString.

(** Characters are code units below 256. *)
Definition newline : ascii := Ascii.ascii_of_nat 10.

Definition is_newline (c : ascii) : bool := Ascii.eqb c newline.

(** The white space that [String.prototype.trim] strips, in that range:
    TAB, LF, VT, FF, CR, SPACE and NBSP. *)
Definition is_ws (c : ascii) : bool :=
  let n := Ascii.nat_of_ascii c in
  (Nat.leb 9 n && Nat.leb n 13) || Nat.eqb n 32 || Nat.eqb n 160.

Fixpoint trimStart (s : string) : string :=
  match s with
  | EmptyString => EmptyString
  | String c s' => if is_ws c then trimStart s' else s
  end.

Fixpoint trimEnd (s : string) : string :=
  match s with
  | EmptyString => EmptyString
  | String c s' =>
      match trimEnd s' with
      | EmptyString => if is_ws c then EmptyString else String c EmptyString
      | t => String c t
      end
  end.

Definition trim (s : string) : string := trimEnd (trimStart s).

(** A string is falsy exactly when it is empty. *)
Definition truthy (s : string) : bool :=
  match s with EmptyString => false | _ => true end.

(** [s.split('\n')]: never empty; the last element is the text after the
    last newline. *)
Fixpoint split_nl (s : string) : list string :=
  match s with
  | EmptyString => [EmptyString]
  | String c s' =>
      if is_newline c then EmptyString :: split_nl s'
      else match split_nl s' with
           | h :: t => String c h :: t
           | [] => [String c EmptyString]
           end
  end.

(** [a.pop()] on an array: the array without its last element, and that
    element ([None] for [undefined], when the array is empty). *)
Definition pop {A} (a : list A) : list A * option A :=
  (removelast a, last a).

Fixpoint concat (l : list string) : string :=
  match l with
  | [] => EmptyString
  | s :: l' => s +:+ concat l'
  end.

Fixpoint has_newline (s : string) : bool :=
  match s with
  | EmptyString => false
  | String c s' => is_newline c || has_newline s'
  end.

End JsString.

Import JsString.

(** ** Values produced by [JSON.parse] *)

Inductive JSON : Type :=
  | JNull
  | JBool (b : bool)
  | JNum (n : Z)
  | JStr (s : string)
  | JArr (items : list JSON)
  | JObj (fields : list (string * JSON)).

(** [JSON.parse] throws a [SyntaxError] ([None]) or returns a value;
    [JSON.stringify] serialises a value. *)
Class JSONCodec := {
  JSON_parse : string → option JSON;
  JSON_stringify : JSON → string
}.

Module Js.

(** Property lookup in the field list of an object. *)
Fixpoint own (fields : list (string * JSON)) (name : string) : option JSON :=
  match fields with
  | [] => None
  | (k, v) :: rest => if String.eqb k name then Some v else own rest name
  end.

(** [data.name] for [name] among [type], [id], [text], [base64], on a
    value other than [null]: [None] is [undefined].  Primitives and
    arrays have no such property. *)
Definition prop (data : JSON) (name : string) : option JSON :=
  match data with
  | JObj fields => own fields name
  | _ => None
  end.

(** JavaScript truthiness of a possibly undefined value. *)
Definition truthy (v : option JSON) : bool :=
  match v with
  | None | Some JNull => false
  | Some (JBool b) => b
  | Some (JNum n) => negb (Z.eqb n 0)
  | Some (JStr s) => JsString.truthy s
  | Some (JArr _) | Some (JObj _) => true
  end.

(** [v === 'lit'] *)
Definition is_str (v : option JSON) (lit : string) : bool :=
  match v with
  | Some (JStr s) => String.eqb s lit
  | _ => false
  end.

(** The value as the [string] its TypeScript type declares it to be;
    [None] when it is anything else. *)
Definition as_string (v : option JSON) : option string :=
  match v with
  | Some (JStr s) => Some s
  | _ => None
  end.

End Js.

(** ** types.ts *)

Inductive Status := pending | processing | completed | error.

Record EnglishSentence := {
  id : string;
  english_text : string;
  imageUrl : option string;
  status : Status
}.

(** ** services/dbService.ts

    The object store [images] of the IndexedDB database: at most one value
    per key, [put] replaces the value of an existing key.  The store is
    typed as the service's signatures are, string keys to string values. *)

Abbreviation ImageStore := (gmap string string).

Definition saveImage (id base64 : string) (db : ImageStore) : ImageStore :=
  <[id := base64]> db.

(** [request.result || null]: [None] is [null]. *)
Definition getImage (id : string) (db : ImageStore) : option string :=
  match db !! id with
  | Some v => if JsString.truthy v then Some v else None
  | None => None
  end.

(** The keys of the store, each once, in ascending order (of their code
    units), as IndexedDB returns them. *)
Definition getAllKeys (db : ImageStore) : list string :=
  merge_sort String.le (map_to_list db).*1.

Definition deleteImage (id : string) (db : ImageStore) : ImageStore :=
  delete id db.

(** Modelled from the spec: [iterateImages] is imported from dbService by
    both backup services but its definition is not among the sources.
    The spec: "for every key in the Image Store (as enumerated by listKeys,
    one fetch per key via get), write one image record — keys whose fetch
    returns absent are skipped silently".  The fetch is the [get] of the
    spec's store, which "returns the artifact" of a key and is absent
    for "a missing key" only: the empty string that a key holds is its
    artifact, and the callback is invoked with it.  The one remark of the
    sources on the function (the snapshot service: it "doesn't support
    seeking easily without scanning") has it scan the store as well.
    The result is the sequence of [(id, base64)] pairs the callback is
    invoked with. *)
Definition iterateImages (db : ImageStore) : list (string * string) :=
  omap (λ key, (λ base64, (key, base64)) <$> db !! key) (getAllKeys db).

(** ** services/backupService.ts: importBackup *)

Record ImportState := {
  imageCount : nat;
  restoredSentences : list EnglishSentence;
  legacyImageIds : list string;
  store : ImageStore
}.

Definition push_sentence (i t : string) (s : ImportState) : ImportState :=
  {| imageCount := imageCount s;
     restoredSentences :=
       restoredSentences s ++
       [{| id := i; english_text := t; imageUrl := None; status := pending |}];
     legacyImageIds := legacyImageIds s;
     store := store s |}.

(** [await saveImage(id, base64); imageCount++;] and, when [legacy],
    [legacyImageIds.push(id)]. *)
Definition save_and_count (legacy : bool) (i b : string) (s : ImportState)
  : ImportState :=
  {| imageCount := S (imageCount s);
     restoredSentences := restoredSentences s;
     legacyImageIds :=
       if legacy then legacyImageIds s ++ [i] else legacyImageIds s;
     store := saveImage i b (store s) |}.

(** The result [None] of the functions below does not model an exception:
    it marks a record outside this typed embedding, one whose [id], [text]
    or [base64] would reach a [string]-typed position as another kind of
    value.  Exceptions are caught inside the source and modelled as such. *)
Definition typed_sentence (data : JSON) (s : ImportState) : option ImportState :=
  i ← Js.as_string (Js.prop data "id");
  t ← Js.as_string (Js.prop data "text");
  Some (push_sentence i t s).

Definition typed_save (legacy : bool) (data : JSON) (s : ImportState)
  : option ImportState :=
  i ← Js.as_string (Js.prop data "id");
  b ← Js.as_string (Js.prop data "base64");
  Some (save_and_count legacy i b s).

(** The body of the [try] of the line loop, after [JSON.parse].  On
    [null] the read of [data.type] throws a [TypeError], which the [catch]
    of the loop swallows. *)
Definition dispatch_line (data : JSON) (s : ImportState) : option ImportState :=
  match data with
  | JNull => Some s
  | _ =>
      if Js.is_str (Js.prop data "type") "sentence" then typed_sentence data s
      else if Js.is_str (Js.prop data "type") "image" then
        if Js.truthy (Js.prop data "id") && Js.truthy (Js.prop data "base64")
        then typed_save false data s
        else Some s
      else if Js.truthy (Js.prop data "id") && Js.truthy (Js.prop data "base64")
      then typed_save true data s
      else Some s
  end.

(** The body of the [try] of the "process leftover" block. *)
Definition dispatch_leftover (data : JSON) (s : ImportState) : option ImportState :=
  match data with
  | JNull => Some s
  | _ =>
      if Js.is_str (Js.prop data "type") "sentence" then typed_sentence data s
      else if Js.is_str (Js.prop data "type") "image"
              || (Js.truthy (Js.prop data "id") && Js.truthy (Js.prop data "base64"))
      then
        if Js.truthy (Js.prop data "id") && Js.truthy (Js.prop data "base64")
        then typed_save (negb (Js.truthy (Js.prop data "type"))) data s
        else Some s
      else Some s
  end.

Section ImportBackup.
Context `{JSONCodec}.

(** One iteration of [for (const line of lines)]. *)
Definition import_line (line : string) (s : ImportState) : option ImportState :=
  if negb (JsString.truthy (trim line)) then Some s
  else match JSON_parse line with
       | None => Some s
       | Some data => dispatch_line data s
       end.

Fixpoint import_lines (lines : list string) (s : ImportState)
  : option ImportState :=
  match lines with
  | [] => Some s
  | line :: rest => s' ← import_line line s; import_lines rest s'
  end.

(** [if (leftover.trim()) { try { ... } catch (e) {} }] *)
Definition import_leftover (leftover : string) (s : ImportState)
  : option ImportState :=
  if JsString.truthy (trim leftover) then
    match JSON_parse leftover with
    | None => Some s
    | Some data => dispatch_leftover data s
    end
  else Some s.

(** The [while (true)] loop over the reads of the stream; [chunks] are
    the texts the decoder returns, read after read. *)
Fixpoint read_loop (chunks : list string) (leftover : string) (s : ImportState)
  : option (string * ImportState) :=
  match chunks with
  | [] => Some (leftover, s)
  | chunk :: rest =>
      let '(lines, last_line) := pop (split_nl (leftover +:+ chunk)) in
      s' ← import_lines lines s;
      read_loop rest (default "" last_line) s'
  end.

Definition import_start (db : ImageStore) : ImportState :=
  {| imageCount := 0; restoredSentences := []; legacyImageIds := [];
     store := db |}.

Definition importBackup (chunks : list string) (db : ImageStore)
  : option ImportState :=
  '(leftover, s) ← read_loop chunks "" (import_start db);
  import_leftover leftover s.

End ImportBackup.

(** ** App.tsx: the [setSentences] updater of [handleBackupImport]

    A JavaScript [Map] keeps its entries in insertion order; [set] on an
    existing key replaces the value where the entry is. *)

Module JsMap.

Definition t := list (string * EnglishSentence).

Definition has (k : string) (m : t) : bool :=
  existsb (λ e, String.eqb e.1 k) m.

Fixpoint set (k : string) (v : EnglishSentence) (m : t) : t :=
  match m with
  | [] => [(k, v)]
  | (k', v') :: rest =>
      if String.eqb k' k then (k, v) :: rest else (k', v') :: set k v rest
  end.

(** [new Map(entries)] *)
Definition of_entries (entries : list (string * EnglishSentence)) : t :=
  foldl (λ m e, set e.1 e.2 m) [] entries.

Definition values (m : t) : list EnglishSentence := m.*2.

End JsMap.

Definition placeholder_text : string := "(Restored Image - No Text Available)".

Definition placeholder (i : string) : EnglishSentence :=
  {| id := i; english_text := placeholder_text; status := completed;
     imageUrl := None |}.

Definition reconcile (prev restored : list EnglishSentence)
    (legacy : list string) : list EnglishSentence :=
  let idMap := JsMap.of_entries (map (λ s, (id s, s)) prev) in
  let idMap := foldl (λ m s, JsMap.set (id s) s m) idMap restored in
  let idMap :=
    foldl (λ m i, if negb (JsMap.has i m) then JsMap.set i (placeholder i) m
                  else m) idMap legacy in
  JsMap.values idMap.

(** ** services/backupService.ts: exportBackup *)

(** [Math.round((processed / total) * 100)], a computation on doubles. *)
Class FloatArith := {
  percent : nat → nat → Z
}.

(** What the host decides: whether [showSaveFilePicker] exists, the clock,
    and which awaited File System Access call, if any, rejects (call 0 is
    the picker, 1 is [createWritable], 2 the write of the header, then one
    write per record, then [close]) and whether the rejection is an
    [AbortError]. *)
Record HostEnv := {
  supportsFileSystemAccess : bool;
  now_iso : string;
  fs_fault : option (nat * bool)
}.

Record ExportResult := {
  saved_file : option string;
  download : option string;
  progress : list Z
}.

Definition header_record (created : string) (totalImages : nat) : JSON :=
  JObj [("type", JStr "header"); ("version", JNum 2);
        ("created", JStr created); ("count", JNum (Z.of_nat totalImages))].

Definition sentence_record (s : EnglishSentence) : JSON :=
  JObj [("type", JStr "sentence"); ("id", JStr (id s));
        ("text", JStr (english_text s))].

Definition image_record (e : string * string) : JSON :=
  JObj [("type", JStr "image"); ("id", JStr e.1); ("base64", JStr e.2)].

Section ExportBackup.
Context `{JSONCodec} `{FloatArith}.

(** [JSON.stringify(record) + '\n'] *)
Definition record_line (r : JSON) : string :=
  JSON_stringify r +:+ String newline EmptyString.

Definition reportProgress (onProgress : bool) (totalItems processed : nat)
  : list Z :=
  if onProgress && negb (Nat.eqb totalItems 0) then
    if Nat.eqb (processed mod 50) 0 || Nat.eqb processed totalItems
    then [percent processed totalItems]
    else []
  else [].

(** The two loops of a delivery path over the records they write:
    [processed++; reportProgress()] after each.  Returns the final
    counter and the values reported. *)
Fixpoint count_records (onProgress : bool) (totalItems : nat)
    (records : list JSON) (processed : nat) : nat * list Z :=
  match records with
  | [] => (processed, [])
  | _ :: rest =>
      let processed := S processed in
      let '(p, reports) := count_records onProgress totalItems rest processed in
      (p, reportProgress onProgress totalItems processed ++ reports)
  end.

(** The records after the header: the sentences in list order, then the
    images as [iterateImages] delivers them. *)
Definition body_records (sentences : list EnglishSentence) (db : ImageStore)
  : list JSON :=
  map sentence_record sentences ++ map image_record (iterateImages db).

Definition exportBackup (env : HostEnv) (sentences : list EnglishSentence)
    (onProgress : bool) (db : ImageStore) : ExportResult :=
  let totalImages := length (getAllKeys db) in
  let totalItems := length sentences + totalImages in
  let headerStr := record_line (header_record (now_iso env) totalImages) in
  let records := body_records sentences db in
  let blob processed reported :=
    let '(_, reports) := count_records onProgress totalItems records processed in
    {| saved_file := None;
       download := Some (concat (headerStr :: map record_line records));
       progress := reported ++ reports |} in
  if supportsFileSystemAccess env then
    let written :=
      match fs_fault env with
      | Some (call, _) => if Nat.leb call (3 + length records)
                          then Some (call - 3) else None
      | None => None
      end in
    match written, fs_fault env with
    | Some n, Some (_, abort) =>
        let '(processed, reports) :=
          count_records onProgress totalItems (take n records) 0 in
        if abort
        then {| saved_file := None; download := None; progress := reports |}
        else blob processed reports
    | _, _ =>
        let '(_, reports) := count_records onProgress totalItems records 0 in
        {| saved_file := Some (concat (headerStr :: map record_line records));
           download := None;
           progress := reports |}
    end
  else blob 0 [].

End ExportBackup.

(** ** The SQLite snapshot service *)

(** A container as the service uses it: named tables, the rows of a table
    being [(id, base64)] pairs. *)
Definition Table := list (string * string).
Definition Database := list (string * Table).

(** The call at which sql.js throws while [importFromSQLite] reads a
    file: the constructor [new SQL.Database(bytes)]; the first query,
    [db.exec] (sqlite opens a file without reading a page of it, so that
    on bytes that are no database the constructor returns and it is this
    query that throws, "file is not a database"); or, once [db.exec] has
    found the table [images], a later call of the [try] ([db.prepare], a
    [stmt.step], the [saveImage] of a row whose [id] is no key), after
    the rows that the loop has saved by then. *)
Inductive Failure :=
  | InConstructor
  | InExec
  | InSelect (saved : Table).

(** sql.js: [db.export()], and what the calls of [importFromSQLite] make
    of the bytes of a file: the container they read, or the call that
    throws. *)
Class SqlJs := {
  Buffer : Type;
  SQL_export : Database → Buffer;
  SQL_read : Buffer → Failure + Database
}.

(** The container that sql.js reads from the bytes, [None] when one of
    its calls throws. *)
Definition SQL_open `{SqlJs} (bytes : Buffer) : option Database :=
  match SQL_read bytes with
  | inr d => Some d
  | inl _ => None
  end.

Definition CHUNK_SIZE : nat := 50.

(** [stmt.run([key, base64])] of [INSERT INTO images VALUES (?, ?)]: [id]
    is the primary key, a second row with the same [id] is refused. *)
Definition insert_row (key base64 : string) (t : Table) : option Table :=
  if existsb (String.eqb key) t.*1 then None else Some (t ++ [(key, base64)]).

(** What [importFromSQLite] throws.  Its own two errors are thrown before
    a row is saved and leave the store as it was.  An error of sql.js
    that reaches the second [try], which has a [finally] and no [catch],
    leaves the function as it is; it can follow rows already saved, and
    carries the store that it leaves. *)
Inductive ImportError :=
  | InvalidFormatError   (* "Invalid SQLite file format." *)
  | InvalidSchemaError   (* "Invalid SQLite schema: 'images' table not found." *)
  | SqlJsError (after : ImageStore).

Section Sqlite.
Context `{FloatArith} `{SqlJs}.

(** [for (const key of chunkKeys)]: the rows inserted, the counter and
    the values reported.  [None]: an insertion threw. *)
Fixpoint fill_chunk (onProgress : bool) (total : nat) (chunkKeys : list string)
    (db : ImageStore) (t : Table) (processed : nat)
  : option (Table * nat * list Z) :=
  match chunkKeys with
  | [] => Some (t, processed, [])
  | key :: rest =>
      t' ← match getImage key db with
           | Some base64 => insert_row key base64 t
           | None => Some t
           end;
      let processed := S processed in
      '(t'', p, reports) ← fill_chunk onProgress total rest db t' processed;
      Some (t'', p, (if onProgress then [percent processed total] else [])
                    ++ reports)
  end.

(** [for (let i = 0; i < total; i += CHUNK_SIZE)], with the iterations
    left as fuel.  Returns the containers built, one per iteration, and
    the values reported.  [None]: an insertion threw or the fuel ran out;
    [chunk_loop_batches] shows that neither happens. *)
Fixpoint chunk_loop (fuel : nat) (onProgress : bool) (keys : list string)
    (db : ImageStore) (i processed : nat) : option (list Database * list Z) :=
  if Nat.leb (length keys) i then Some ([], [])
  else match fuel with
       | O => None
       | S fuel' =>
           let chunkKeys := take CHUNK_SIZE (drop i keys) in
           '(t, p, reports) ←
             fill_chunk onProgress (length keys) chunkKeys db [] processed;
           '(chunks, reports') ←
             chunk_loop fuel' onProgress keys db (i + CHUNK_SIZE) p;
           Some ([("images", t)] :: chunks, reports ++ reports')
       end.

(** The containers of the chunks, before serialisation. *)
Definition exportToSQLiteDatabases (onProgress : bool) (db : ImageStore)
  : option (list Database * list Z) :=
  let keys := getAllKeys db in
  chunk_loop (length keys) onProgress keys db 0 0.

(** The sequence the generator yields, and the values reported. *)
Definition exportToSQLiteChunks (onProgress : bool) (db : ImageStore)
  : option (list Buffer * list Z) :=
  '(chunks, reports) ← exportToSQLiteDatabases onProgress db;
  Some (map SQL_export chunks, reports).

(** [SELECT name FROM sqlite_master WHERE type='table' AND name='images'] *)
Definition images_tables (d : Database) : list string :=
  filter (λ name, name = "images") d.*1.

(** [SELECT id, base64 FROM images] *)
Definition select_images (d : Database) : Table :=
  default [] (snd <$> List.find (λ e, String.eqb e.1 "images") d).

(** [while (stmt.step())]: the rows saved in turn, and their count. *)
Definition save_rows (rows : Table) (db : ImageStore) : nat * ImageStore :=
  foldl (λ '(count, st) row, (S count, saveImage row.1 row.2 st)) (0, db) rows.

(** The first [try] catches what the constructor throws and throws the
    invalid-format error in its place.  The second [try] has no [catch]:
    what [db.exec], [db.prepare], [stmt.step] or [saveImage] throws there
    is thrown by the function, after [db.close()].  sql.js is taken as
    loaded ([getSql] resolves), here as in the export, and the store of
    the model never rejects a write of a string under a string. *)
Definition importFromSQLite (fileBuffer : Buffer) (db : ImageStore)
  : ImportError + (nat * ImageStore) :=
  match SQL_read fileBuffer with
  | inl InConstructor => inl InvalidFormatError
  | inl InExec => inl (SqlJsError db)
  | inl (InSelect saved) => inl (SqlJsError (save_rows saved db).2)
  | inr d =>
      if Nat.eqb (length (images_tables d)) 0 then inl InvalidSchemaError
      else inr (save_rows (select_images d) db)
  end.

End Sqlite.

(** ** services/dbService.ts: getAllImages *)

(** The entries of the store as a cursor visits them, in key order. *)
Definition cursor (db : ImageStore) : list (string * string) :=
  omap (λ key, (λ value, (key, value)) <$> db !! key) (getAllKeys db).

(** [results[key] = value] on the object literal [results]: an own
    property is created or replaced.  The key [__proto__] is the
    exception: the assignment reaches the accessor that
    [Object.prototype] defines, whose setter ignores a value that is
    neither an object nor [null], and [results] gets no property. *)
Definition assign (key value : string) (results : gmap string string)
  : gmap string string :=
  if String.eqb key "__proto__" then results else <[key := value]> results.

(** The own properties of the object the promise resolves with. *)
Definition getAllImages (db : ImageStore) : gmap string string :=
  foldl (λ results e, assign e.1 e.2 results) ∅ (cursor db).

(** ** App.tsx

    The component state the handlers read and write is passed explicitly;
    a functional update [setSentences(prev => ...)] is applied to the
    current list.  [generateImageWithStyle] (the image service) and
    [JSZip] are not among the sources: the first is a parameter that
    returns a data URL or throws, the second an interface. *)

Inductive GenerationStatus := IDLE | RUNNING | COMPLETED.

Inductive Tab := upload | manage.

#[global] Instance Status_eq_dec : EqDecision Status.
Proof. solve_decision. Defined.

(** jszip: the archive of the files added so far, or a rejection
    ([None]) of [generateAsync]. *)
Class JSZip := {
  Blob : Type;
  generateAsync : list (string * string) → option Blob
}.

Module App.

(** *** handleCsvUpload *)

Definition is_cr (c : ascii) : bool := Ascii.eqb c (Ascii.ascii_of_nat 13).
Definition is_comma (c : ascii) : bool := Ascii.eqb c (Ascii.ascii_of_nat 44).
Definition is_quote (c : ascii) : bool := Ascii.eqb c (Ascii.ascii_of_nat 34).

(** [s.split(sep)] for a separator of one character: never empty. *)
Fixpoint split (sep : ascii → bool) (s : string) : list string :=
  match s with
  | EmptyString => [EmptyString]
  | String c s' =>
      if sep c then EmptyString :: split sep s'
      else match split sep s' with
           | h :: t => String c h :: t
           | [] => [String c EmptyString]
           end
  end.

(** [text.split(/\r?\n/)]: the text is cut at every line feed, and a
    carriage return just before the line feed goes with it. *)
Fixpoint split_lines (s : string) : list string :=
  match s with
  | EmptyString => [EmptyString]
  | String c s' =>
      let keep :=
        match split_lines s' with
        | h :: t => String c h :: t
        | [] => [String c EmptyString]
        end in
      if is_newline c then EmptyString :: split_lines s'
      else if is_cr c then
        match s' with
        | String c' s'' =>
            if is_newline c' then EmptyString :: split_lines s'' else keep
        | EmptyString => keep
        end
      else keep
  end.

(** [a.join(sep)] *)
Fixpoint join (sep : string) (a : list string) : string :=
  match a with
  | [] => EmptyString
  | [x] => x
  | x :: rest => x +:+ sep +:+ join sep rest
  end.

Definition drop_start_quote (s : string) : string :=
  match s with
  | String c s' => if is_quote c then s' else s
  | EmptyString => EmptyString
  end.

Fixpoint drop_end_quote (s : string) : string :=
  match s with
  | EmptyString => EmptyString
  | String c EmptyString => if is_quote c then EmptyString else s
  | String c s' => String c (drop_end_quote s')
  end.

(** [s.replace(/^"|"$/g, '')]: a quote at the start goes, and a quote at
    the end of what is left. *)
Definition unquote (s : string) : string := drop_end_quote (drop_start_quote s).

(** The callback of [map]: [const [id, ...rest] = line.split(',')].  The
    array is never empty, so [id] is never [undefined]. *)
Definition parse_line (line : string) : EnglishSentence :=
  let parts := split is_comma line in
  {| id := trim (hd EmptyString parts);
     english_text := unquote (trim (join "," (tl parts)));
     imageUrl := None;
     status := pending |}.

(** The value [parsed] of [reader.onload]. *)
Definition parseCsv (text : string) : list EnglishSentence :=
  parse_line
    <$> filter (λ line, JsString.truthy (trim line))
          (drop 1 (split_lines text)).

(** [file] is the text of the chosen file, [None] when none was chosen. *)
Definition handleCsvUpload (file : option string)
    (state : list EnglishSentence * Tab) : list EnglishSentence * Tab :=
  match file with
  | None => state
  | Some text => (parseCsv text, manage)
  end.

(** *** The effect that synchronises the statuses with the store *)

Definition with_status (st : Status) (s : EnglishSentence) : EnglishSentence :=
  {| id := id s; english_text := english_text s; imageUrl := imageUrl s;
     status := st |}.

(** [sentences] is the list of the render that started the effect, [prev]
    the list the functional update is applied to. *)
Definition sync (db : ImageStore) (sentences prev : list EnglishSentence)
  : list EnglishSentence :=
  if Nat.eqb (length sentences) 0 then prev
  else
    let keySet : gset string := list_to_set (getAllKeys db) in
    (λ s,
       let hasImage := bool_decide (id s ∈ keySet) in
       if hasImage && negb (bool_decide (status s = completed))
       then with_status completed s
       else if negb hasImage && bool_decide (status s = completed)
       then with_status pending s
       else s) <$> prev.

(** *** startBatch *)

(** The sentences, the generation status (the state variable [status]),
    the Image Store, and the number of calls made to the image service. *)
Record State := {
  sentences : list EnglishSentence;
  generation : GenerationStatus;
  images : ImageStore;
  calls : nat
}.

Definition maxRetries : nat := 3.

(** [prev.map(p => p.id === i ? { ...p, status: st } : p)] *)
Definition mark (i : string) (st : Status) (prev : list EnglishSentence)
  : list EnglishSentence :=
  (λ p, if String.eqb (id p) i then with_status st p else p) <$> prev.

(** [prev.map(p => p.id === i ? { ...p, imageUrl: url, status: 'completed' } : p)] *)
Definition mark_completed (i url : string) (prev : list EnglishSentence)
  : list EnglishSentence :=
  (λ p, if String.eqb (id p) i
        then {| id := id p; english_text := english_text p;
                imageUrl := Some url; status := completed |}
        else p) <$> prev.

Section StartBatch.

(** The image service at its [n]-th call, for a text and a style: the
    data URL it resolves with, or [None] when it throws. *)
Variable generateImageWithStyle : nat → string → string → option string.

(** [while (attempts < maxRetries && !success)], by the number [left] of
    attempts that remain: [attempts] is [maxRetries - left]. *)
Fixpoint attempt (left : nat) (s : EnglishSentence) (style : string)
    (σ : State) : State :=
  match left with
  | O => σ
  | S left' =>
      let processing_ := mark (id s) processing (sentences σ) in
      match generateImageWithStyle (calls σ) (english_text s) style with
      | Some url =>
          {| sentences := mark_completed (id s) url processing_;
             generation := generation σ;
             images := saveImage (id s) url (images σ);
             calls := S (calls σ) |}
      | None =>
          attempt left' s style
            {| sentences :=
                 if Nat.eqb left' 0 then mark (id s) error processing_
                 else processing_;
               generation := generation σ;
               images := images σ;
               calls := S (calls σ) |}
      end
  end.

Definition startBatch (styleDescription : string) (batchSize : nat)
    (σ : State) : State :=
  match generation σ with
  | RUNNING => σ
  | _ =>
      let pending_ :=
        take batchSize (filter (λ s, status s ≠ completed) (sentences σ)) in
      let σ' :=
        foldl (λ σ s, attempt maxRetries s styleDescription σ)
          {| sentences := sentences σ; generation := RUNNING;
             images := images σ; calls := calls σ |}
          pending_ in
      {| sentences := sentences σ'; generation := IDLE;
         images := images σ'; calls := calls σ' |}
  end.

End StartBatch.

(** *** handleDeleteImage *)

(** [confirm] is the answer to [window.confirm]. *)
Definition handleDeleteImage (confirm : bool) (i : string)
    (state : list EnglishSentence * ImageStore)
  : list EnglishSentence * ImageStore :=
  if confirm then
    ((λ s, if String.eqb (id s) i
           then {| id := id s; english_text := english_text s;
                   imageUrl := None; status := pending |}
           else s) <$> state.1,
     deleteImage i state.2)
  else state.

(** *** handleExport *)

Definition CHUNK_SIZE : nat := 500.

(** [Math.ceil(n / d)], exact on the lengths of arrays. *)
Definition ceil_div (n d : nat) : nat := (n + d - 1) / d.

(** The file the inner loop adds to the folder for the key [i], if any:
    [dataUrl.split(',')[1]] is the text between the first comma and the
    second. *)
Definition zip_entry (db : ImageStore) (i : string) : option (string * string) :=
  dataUrl ← getImage i db;
  base64Data ← split is_comma dataUrl !! 1;
  if JsString.truthy base64Data then Some (i +:+ ".png", base64Data) else None.

Definition part_name (i totalChunks : nat) : string :=
  "english_visualizer_export_part" +:+ pretty (i + 1) +:+ "_of_"
    +:+ pretty totalChunks +:+ ".zip".

Record Exported `{JSZip} := {
  alert : option string;
  downloads : list (string * Blob)
}.

Section HandleExport.
Context `{JSZip}.

(** The loop over the chunks [i, i + 1, ...]; a rejection of
    [generateAsync] ends it in the [catch]. *)
Fixpoint export_parts (db : ImageStore) (keys : list string)
    (totalChunks : nat) (parts : list nat) : Exported :=
  match parts with
  | [] => {| alert := None; downloads := [] |}
  | i :: rest =>
      let chunkKeys :=
        take ((i + 1) * CHUNK_SIZE - i * CHUNK_SIZE) (drop (i * CHUNK_SIZE) keys) in
      let entries := omap (zip_entry db) chunkKeys in
      if Nat.ltb 0 (length entries) then
        match generateAsync entries with
        | Some content =>
            let r := export_parts db keys totalChunks rest in
            {| alert := alert r;
               downloads := (part_name i totalChunks, content) :: downloads r |}
        | None =>
            {| alert := Some "Failed to export images. Check console for details.";
               downloads := [] |}
        end
      else export_parts db keys totalChunks rest
  end.

Definition handleExport (db : ImageStore) : Exported :=
  let keys := getAllKeys db in
  if Nat.eqb (length keys) 0
  then {| alert := Some "No images to export."; downloads := [] |}
  else
    let totalChunks := ceil_div (length keys) CHUNK_SIZE in
    export_parts db keys totalChunks (seq 0 totalChunks).

End HandleExport.

(** *** The search box *)

(** [toLowerCase] on a code unit below 256: the letters A to Z, and the
    capital letters from 192 to 222 but for the multiplication sign. *)
Definition lower (c : ascii) : ascii :=
  let n := Ascii.nat_of_ascii c in
  if (Nat.leb 65 n && Nat.leb n 90)
     || (Nat.leb 192 n && Nat.leb n 222 && negb (Nat.eqb n 215))
  then Ascii.ascii_of_nat (n + 32) else c.

Fixpoint toLowerCase (s : string) : string :=
  match s with
  | EmptyString => EmptyString
  | String c s' => String (lower c) (toLowerCase s')
  end.

Fixpoint startsWith (s sub : string) : bool :=
  match sub, s with
  | EmptyString, _ => true
  | String a sub', String b s' => Ascii.eqb a b && startsWith s' sub'
  | String _ _, EmptyString => false
  end.

Fixpoint includes (s sub : string) : bool :=
  startsWith s sub
  || match s with
     | EmptyString => false
     | String _ s' => includes s' sub
     end.

Definition filteredSentences (searchTerm : string)
    (sentences : list EnglishSentence) : list EnglishSentence :=
  List.filter
    (λ s, includes (toLowerCase (english_text s)) (toLowerCase searchTerm)
          || includes (toLowerCase (id s)) (toLowerCase searchTerm))
    sentences.

End App.

(** ** The earlier revision of App.tsx

    Its handlers are those of [App] but for the effect that synchronises
    with the store, which reads every image. *)

Module AppEarlier.

(** [{ ...s, imageUrl: stored || undefined, status: stored ? 'completed' : s.status }] *)
Definition synced (db : ImageStore) (s : EnglishSentence) : EnglishSentence :=
  match getImage (id s) db with
  | Some stored => {| id := id s; english_text := english_text s;
                      imageUrl := Some stored; status := completed |}
  | None => {| id := id s; english_text := english_text s;
               imageUrl := None; status := status s |}
  end.

(** [setSentences(updated)], or no update when the list is empty. *)
Definition sync (db : ImageStore) (sentences : list EnglishSentence)
  : list EnglishSentence :=
  if Nat.eqb (length sentences) 0 then sentences else synced db <$> sentences.

End AppEarlier.

(** ** components/SentenceItem.tsx

    The local state of a row, and the state updates of its two effects:
    the one that loads the image, once [getImage] has resolved, and the
    one that follows the [sentence] prop, for one run. *)

Module SentenceItem.

Record Local := {
  shown : option string;      (* the state variable [imageUrl] *)
  label : Status;             (* the state variable [status] *)
  isLoading : bool
}.

(** [imageUrl ? ... : ...]: an image URL that is there and not empty. *)
Definition truthy (url : option string) : bool :=
  match url with
  | Some u => JsString.truthy u
  | None => false
  end.

(** [useState(sentence.imageUrl)], [useState(sentence.status)],
    [useState(false)] *)
Definition initial (sentence : EnglishSentence) : Local :=
  {| shown := imageUrl sentence; label := status sentence; isLoading := false |}.

(** [load]: [mounted] tells whether the row is still mounted when
    [getImage] resolves. *)
Definition load (db : ImageStore) (sentence : EnglishSentence) (mounted : bool)
    (local : Local) : Local :=
  if mounted then
    match getImage (id sentence) db with
    | Some stored =>
        {| shown := Some stored; label := completed; isLoading := false |}
    | None =>
        {| shown := shown local; label := label local; isLoading := false |}
    end
  else {| shown := shown local; label := label local; isLoading := true |}.

(** One run of the effect on [[sentence, imageUrl]].  The last
    [setStatus] of the run is the one that counts, and a status is never
    an empty string. *)
Definition follow (sentence : EnglishSentence) (local : Local) : Local :=
  {| shown :=
       if truthy (imageUrl sentence) then imageUrl sentence
       else if negb (bool_decide (status sentence = completed))
               && truthy (shown local)
       then None
       else shown local;
     label := status sentence;
     isLoading := isLoading local |}.

End SentenceItem.

(** ** services/backupService.ts: the progress of importBackup

    [processedBytes += value.byteLength] and the report after the lines
    of each read; [byteLengths] are the sizes of the reads and
    [totalBytes] is [file.size]. *)

Section ImportProgress.
Context `{FloatArith}.

Fixpoint import_reports (onProgress : bool) (totalBytes : nat)
    (byteLengths : list nat) (processedBytes : nat) : list Z :=
  match byteLengths with
  | [] => []
  | byteLength :: rest =>
      let processedBytes := processedBytes + byteLength in
      (if onProgress then [percent processedBytes totalBytes] else [])
      ++ import_reports onProgress totalBytes rest processedBytes
  end.

Definition importBackup_progress (onProgress : bool) (totalBytes : nat)
    (byteLengths : list nat) : list Z :=
  import_reports onProgress totalBytes byteLengths 0.

End ImportProgress.

(** ** A concrete platform, for evaluation

    [Reference.codec] prints and parses JSON text over integers, strings
    with their escapes, arrays and objects; fractions, exponents and code
    units above 255 are outside it.  [Reference.arith] rounds the exact
    quotient half up.  [Reference.sqljs] serialises a container as
    itself, every other buffer being the call at which reading it
    throws. *)

Module Reference.

Definition chr (n : nat) : ascii := Ascii.ascii_of_nat n.
Definition code (c : ascii) : nat := Ascii.nat_of_ascii c.
Definition str1 (n : nat) : string := String (chr n) EmptyString.

Definition quote : nat := 34.
Definition backslash : nat := 92.

Definition hex_digit (n : nat) : ascii :=
  if Nat.ltb n 10 then chr (48 + n) else chr (87 + n).

Definition hex_value (c : ascii) : option nat :=
  let n := code c in
  if Nat.leb 48 n && Nat.leb n 57 then Some (n - 48)
  else if Nat.leb 97 n && Nat.leb n 102 then Some (n - 87)
  else if Nat.leb 65 n && Nat.leb n 70 then Some (n - 55)
  else None.

Definition escape_char (c : ascii) : string :=
  let n := code c in
  if Nat.eqb n quote then String (chr backslash) (str1 quote)
  else if Nat.eqb n backslash then String (chr backslash) (str1 backslash)
  else if Nat.eqb n 8 then String (chr backslash) "b"
  else if Nat.eqb n 12 then String (chr backslash) "f"
  else if Nat.eqb n 10 then String (chr backslash) "n"
  else if Nat.eqb n 13 then String (chr backslash) "r"
  else if Nat.eqb n 9 then String (chr backslash) "t"
  else if Nat.ltb n 32 then
    String (chr backslash)
      (String "u" (String "0" (String "0"
         (String (hex_digit (n / 16)) (String (hex_digit (n mod 16)) "")))))
  else String c "".

Fixpoint escape (s : string) : string :=
  match s with
  | EmptyString => EmptyString
  | String c s' => escape_char c +:+ escape s'
  end.

Definition quoted (s : string) : string :=
  str1 quote +:+ escape s +:+ str1 quote.

Definition print_Z (z : Z) : string :=
  DecimalString.NilEmpty.string_of_int (Z.to_int z).

(** The items, separated by commas. *)
Fixpoint commas (items : list string) : string :=
  match items with
  | [] => EmptyString
  | [x] => x
  | x :: rest => x +:+ "," +:+ commas rest
  end.

Fixpoint stringify (v : JSON) : string :=
  match v with
  | JNull => "null"
  | JBool true => "true"
  | JBool false => "false"
  | JNum n => print_Z n
  | JStr s => quoted s
  | JArr items => "[" +:+ commas (map stringify items) +:+ "]"
  | JObj fields =>
      "{" +:+
      commas (map (λ kv, quoted kv.1 +:+ ":" +:+ stringify kv.2) fields)
      +:+ "}"
  end.

Definition json_ws (c : ascii) : bool :=
  let n := code c in
  Nat.eqb n 32 || Nat.eqb n 9 || Nat.eqb n 10 || Nat.eqb n 13.

Fixpoint skip_ws (s : string) : string :=
  match s with
  | String c s' => if json_ws c then skip_ws s' else s
  | EmptyString => EmptyString
  end.

(** The text after an opening quote: the string and what follows its
    closing quote. *)
Fixpoint string_body (s : string) : option (string * string) :=
  match s with
  | EmptyString => None
  | String c r =>
      let n := code c in
      if Nat.eqb n quote then Some (EmptyString, r)
      else if Nat.eqb n backslash then
        match r with
        | String e r' =>
            let simple (ch : nat) :=
              '(t, rest) ← string_body r'; Some (String (chr ch) t, rest) in
            let m := code e in
            if Nat.eqb m quote then simple quote
            else if Nat.eqb m backslash then simple backslash
            else if Nat.eqb m 47 then simple 47
            else if Nat.eqb m 98 then simple 8
            else if Nat.eqb m 102 then simple 12
            else if Nat.eqb m 110 then simple 10
            else if Nat.eqb m 114 then simple 13
            else if Nat.eqb m 116 then simple 9
            else if Nat.eqb m 117 then
              match r' with
              | String h1 (String h2 (String h3 (String h4 r''))) =>
                  a ← hex_value h1; b ← hex_value h2;
                  c' ← hex_value h3; d ← hex_value h4;
                  if Nat.eqb a 0 && Nat.eqb b 0 then
                    '(t, rest) ← string_body r'';
                    Some (String (chr (16 * c' + d)) t, rest)
                  else None
              | _ => None
              end
            else None
        | EmptyString => None
        end
      else if Nat.ltb n 32 then None
      else '(t, rest) ← string_body r; Some (String c t, rest)
  end.

Definition is_digit (c : ascii) : bool :=
  Nat.leb 48 (code c) && Nat.leb (code c) 57.

(** The longest prefix of decimal digits, and what follows it. *)
Fixpoint span_digits (s : string) : string * string :=
  match s with
  | String c r =>
      if is_digit c then let '(t, rest) := span_digits r in (String c t, rest)
      else (EmptyString, s)
  | EmptyString => (EmptyString, EmptyString)
  end.

(** A fraction or an exponent follows. *)
Definition continues (rest : string) : bool :=
  match rest with
  | String d _ =>
      Nat.eqb (code d) 46 || Nat.eqb (code d) 101 || Nat.eqb (code d) 69
  | EmptyString => false
  end.

(** An optional minus sign, then [0] or a non-zero digit followed by
    digits, not continued by a fraction or an exponent. *)
Definition number (s : string) : option (Z * string) :=
  let '(negative, s1) :=
    match s with
    | String c r => if Nat.eqb (code c) 45 then (true, r) else (false, s)
    | EmptyString => (false, s)
    end in
  let '(token, rest) := span_digits s1 in
  match token with
  | EmptyString => None
  | String c t =>
      if Nat.eqb (code c) 48 && JsString.truthy t then None
      else if continues rest then None
      else
        u ← DecimalString.NilEmpty.uint_of_string token;
        Some (Z.of_int (if negative then Decimal.Neg u else Decimal.Pos u), rest)
  end.

Fixpoint strip (lit s : string) : option string :=
  match lit, s with
  | EmptyString, _ => Some s
  | String a lit', String b s' => if Ascii.eqb a b then strip lit' s' else None
  | _, _ => None
  end.

(** A later duplicate of a key replaces the earlier value. *)
Fixpoint obj_set (k : string) (v : JSON) (fields : list (string * JSON))
  : list (string * JSON) :=
  match fields with
  | [] => [(k, v)]
  | (k', v') :: rest =>
      if String.eqb k' k then (k, v) :: rest else (k', v') :: obj_set k v rest
  end.

Fixpoint value (fuel : nat) (s : string) : option (JSON * string) :=
  match fuel with
  | O => None
  | S fuel' =>
      match skip_ws s with
      | EmptyString => None
      | String c r as s1 =>
          let n := code c in
          if Nat.eqb n quote then
            '(t, rest) ← string_body r; Some (JStr t, rest)
          else if Nat.eqb n 123 then
            match skip_ws r with
            | String c' r' as s2 =>
                if Nat.eqb (code c') 125 then Some (JObj [], r')
                else '(fs, rest) ← members fuel' s2 []; Some (JObj fs, rest)
            | EmptyString => None
            end
          else if Nat.eqb n 91 then
            match skip_ws r with
            | String c' r' as s2 =>
                if Nat.eqb (code c') 93 then Some (JArr [], r')
                else '(xs, rest) ← elements fuel' s2; Some (JArr xs, rest)
            | EmptyString => None
            end
          else if Nat.eqb n 116 then rest ← strip "true" s1; Some (JBool true, rest)
          else if Nat.eqb n 102 then rest ← strip "false" s1; Some (JBool false, rest)
          else if Nat.eqb n 110 then rest ← strip "null" s1; Some (JNull, rest)
          else '(z, rest) ← number s1; Some (JNum z, rest)
      end
  end
with elements (fuel : nat) (s : string) : option (list JSON * string) :=
  match fuel with
  | O => None
  | S fuel' =>
      '(x, rest) ← value fuel' s;
      match skip_ws rest with
      | String c r =>
          if Nat.eqb (code c) 44 then
            '(xs, rest') ← elements fuel' r; Some (x :: xs, rest')
          else if Nat.eqb (code c) 93 then Some ([x], r)
          else None
      | EmptyString => None
      end
  end
with members (fuel : nat) (s : string) (acc : list (string * JSON))
  : option (list (string * JSON) * string) :=
  match fuel with
  | O => None
  | S fuel' =>
      match skip_ws s with
      | String q r =>
          if Nat.eqb (code q) quote then
            '(k, rest) ← string_body r;
            match skip_ws rest with
            | String colon r1 =>
                if Nat.eqb (code colon) 58 then
                  '(x, rest1) ← value fuel' r1;
                  let acc := obj_set k x acc in
                  match skip_ws rest1 with
                  | String c r2 =>
                      if Nat.eqb (code c) 44 then members fuel' r2 acc
                      else if Nat.eqb (code c) 125 then Some (acc, r2)
                      else None
                  | EmptyString => None
                  end
                else None
            | EmptyString => None
            end
          else None
      | EmptyString => None
      end
  end.

Definition parse (s : string) : option JSON :=
  '(v, rest) ← value (2 * String.length s + 2) s;
  match skip_ws rest with
  | EmptyString => Some v
  | _ => None
  end.

(** What may follow a number. *)
Definition ends_number (rest : string) : bool :=
  match rest with
  | String d _ => negb (is_digit d) && negb (continues rest)
  | EmptyString => true
  end.

(** Values printed without nesting, and what may follow a member. *)
Definition scalar (x : JSON) : bool :=
  match x with JStr _ | JNum _ => true | _ => false end.

Definition closes (rest : string) : bool :=
  match rest with
  | String c _ => Nat.eqb (code c) 44 || Nat.eqb (code c) 125
  | EmptyString => false
  end.

Definition print_field (kv : string * JSON) : string :=
  quoted kv.1 +:+ ":" +:+ stringify kv.2.

(** An object printed without nesting: at least one member, distinct
    keys, scalar values. *)
Definition flat (fs : list (string * JSON)) : Prop :=
  Forall (λ kv, scalar kv.2 = true) fs ∧ fs ≠ [] ∧ NoDup fs.*1.

#[export] Instance codec : JSONCodec :=
  {| JSON_parse := parse; JSON_stringify := stringify |}.

(** [floor (100 * p / t + 1/2)] *)
#[export] Instance arith : FloatArith :=
  {| percent p t := ((200 * Z.of_nat p + Z.of_nat t) / (2 * Z.of_nat t))%Z |}.

#[export] Instance sqljs : SqlJs :=
  {| Buffer := Failure + Database;
     SQL_export d := inr d;
     SQL_read b := b |}.

End Reference.

(** * Vocabulary of the statements *)

(** ** Lines of a text *)

(** The lines a text completes, and the partial line it ends with. *)
Definition lines_of (text : string) : list string := (pop (split_nl text)).1.
Definition tail_of (text : string) : string :=
  default "" (pop (split_nl text)).2.

(** [l] followed by a newline and then [rest]. *)
Definition line (l rest : string) : string := l +:+ String newline rest.

(** ** Effects of an import *)

(** An import never reads the store or its counters: what it does to a
    state is what it does to the empty one, added to that state. *)
Definition perform (e s : ImportState) : ImportState :=
  {| imageCount := imageCount s + imageCount e;
     restoredSentences := restoredSentences s ++ restoredSentences e;
     legacyImageIds := legacyImageIds s ++ legacyImageIds e;
     store := store e ∪ store s |}.

Definition nothing : ImportState :=
  {| imageCount := 0; restoredSentences := []; legacyImageIds := [];
     store := ∅ |}.

Definition stateless (f : ImportState → option ImportState) : Prop :=
  ∀ s, f s = e ← f nothing; Some (perform e s).

(** Two results of an import that wrote and counted the same images and
    restored the same sentences. *)
Definition same_images (r1 r2 : option ImportState) : Prop :=
  match r1, r2 with
  | Some s1, Some s2 =>
      imageCount s1 = imageCount s2
      ∧ restoredSentences s1 = restoredSentences s2
      ∧ store s1 = store s2
  | None, None => True
  | _, _ => False
  end.

(** ** Lines by the record they hold *)

(** A line that holds a valid [image] record for key [k] and value [v]. *)
Definition image_line `{JSONCodec} (l k v : string) : Prop :=
  has_newline l = false ∧ JsString.truthy (trim l) = true ∧
  ∃ data, JSON_parse l = Some data ∧
          Js.prop data "type" = Some (JStr "image") ∧
          Js.prop data "id" = Some (JStr k) ∧
          Js.prop data "base64" = Some (JStr v) ∧
          k ≠ "" ∧ v ≠ "".

(** A line that holds a legacy record: no [type], and non-empty [id] [x]
    and [base64] [b]. *)
Definition legacy_line `{JSONCodec} (l x b : string) : Prop :=
  has_newline l = false ∧ JsString.truthy (trim l) = true ∧
  ∃ data, JSON_parse l = Some data ∧
          Js.prop data "type" = None ∧
          Js.prop data "id" = Some (JStr x) ∧
          Js.prop data "base64" = Some (JStr b) ∧
          x ≠ "" ∧ b ≠ "".

(** A record is recognised when the two dispatches of [importBackup] have
    a rule for it: everything but a truthy [type] other than [sentence]
    and [image] on a record that carries [id] and [base64]. *)
Definition recognised (data : JSON) : bool :=
  negb (Js.truthy (Js.prop data "type")
        && negb (Js.is_str (Js.prop data "type") "sentence")
        && negb (Js.is_str (Js.prop data "type") "image")
        && Js.truthy (Js.prop data "id") && Js.truthy (Js.prop data "base64")).

(** ** Batches and reports of the snapshot export *)

(** The rows a batch of keys contributes: one per key that holds a
    non-empty artifact. *)
Definition rows_of (db : ImageStore) (keys : list string) : Table :=
  omap (λ key, (λ base64, (key, base64)) <$> getImage key db) keys.

(** Consecutive batches of [CHUNK_SIZE] keys, the last one shorter. *)
Fixpoint batches (fuel : nat) (keys : list string) : list (list string) :=
  match fuel, keys with
  | S fuel', _ :: _ => take CHUNK_SIZE keys :: batches fuel' (drop CHUNK_SIZE keys)
  | _, _ => []
  end.

Definition key_batches (keys : list string) : list (list string) :=
  batches (length keys) keys.

(** The sizes of the batches depend on the number of keys only. *)
Fixpoint batch_sizes (fuel n : nat) : list nat :=
  match fuel, n with
  | S fuel', S _ => min CHUNK_SIZE n :: batch_sizes fuel' (n - CHUNK_SIZE)
  | _, _ => []
  end.

(** The values reported while the keys numbered [from + 1 .. from + n] are
    processed. *)
Definition reported `{FloatArith} (onProgress : bool) (total from n : nat)
  : list Z :=
  if onProgress then (λ p, percent p total) <$> seq (S from) n else [].

(** ** Progress and delivery of the backup export *)

(** What the double arithmetic of the percentage guarantees: rounding is
    monotone in the numerator, and a full count is exactly 100. *)
Class FloatArithLaws `{FloatArith} : Prop := {
  percent_mono p q t : p ≤ q → q ≤ t → (percent p t ≤ percent q t)%Z;
  percent_full t : 0 < t → percent t t = 100%Z
}.

(** One delivery path runs from start to end: the blob path where the
    File System Access API is missing, or that API without a rejection. *)
Definition single_path (env : HostEnv) : Prop :=
  supportsFileSystemAccess env = false ∨ fs_fault env = None.

(** The text an export delivers, by either path. *)
Definition delivered (r : ExportResult) : option string :=
  match saved_file r with
  | Some text => Some text
  | None => download r
  end.


(** The text of a backup: the header line, then one line per record. *)
Definition backup_text `{JSONCodec} (created : string)
    (sentences : list EnglishSentence) (db : ImageStore) : string :=
  concat (record_line (header_record created (length (getAllKeys db)))
          :: map record_line (body_records sentences db)).

(** ** Round trip *)

(** What the round trip asks of the JSON services on a record: parsing
    its serialisation gives the record back, and the serialisation is one
    non-blank line. *)
Definition faithful `{JSONCodec} (r : JSON) : Prop :=
  JSON_parse (JSON_stringify r) = Some r
  ∧ has_newline (JSON_stringify r) = false
  ∧ JsString.truthy (trim (JSON_stringify r)) = true.

(** A sentence as the import restores it. *)
Definition restored (x : EnglishSentence) : EnglishSentence :=
  {| id := id x; english_text := english_text x; imageUrl := None;
     status := pending |}.

(** The artifacts that survive a round trip: non-empty key, non-empty
    value. *)
Definition exportable (db : ImageStore) : ImageStore :=
  filter (λ kv, kv.1 ≠ "" ∧ kv.2 ≠ "") db.

(** ** The map of the reconciliation *)

Module JsMapSpec.
Import JsMap.

(** Keys are distinct, and every sentence sits under its own id. *)
Definition wf (m : t) : Prop :=
  NoDup m.*1 ∧ ∀ k v, (k, v) ∈ m → id v = k.

(** Adding sentences under their ids: [new Map(...)] and the overlay of
    the restored sentences. *)
Definition add (m : t) (s : EnglishSentence) : t := set (id s) s m.

(** The step for one legacy id. *)
Definition legacy_step (m : t) (i : string) : t :=
  if negb (has i m) then set i (placeholder i) m else m.

End JsMapSpec.

(** ** Concrete streams and stores *)

Module Examples.

(** [{"type":"thumb","id":"a","base64":"x"}] *)
Definition thumb_record : JSON :=
  JObj [("type", JStr "thumb"); ("id", JStr "a"); ("base64", JStr "x")].
Definition thumb_line : string := Reference.stringify thumb_record.

(** [{"type":"image","id":"a","base64":"x"}] and the same for [b], [y] *)
Definition image_a : string := Reference.stringify (image_record ("a", "x")).
Definition image_b : string := Reference.stringify (image_record ("b", "y")).

Definition not_json : string := "{not json".

End Examples.

Module Stores.

Definition no_picker : HostEnv :=
  {| supportsFileSystemAccess := false;
     now_iso := "2024-05-01T10:00:00.000Z";
     fs_fault := None |}.

Definition greeting : EnglishSentence :=
  {| id := "s1"; english_text := "Hello."; imageUrl := None;
     status := completed |}.

(** Two artifacts. *)
Definition two : ImageStore := {["a" := "x"; "b" := "y"]}.

(** One key, holding an empty artifact. *)
Definition empty_artifact : ImageStore := {["a" := ""]}.

(** One artifact, under the empty key. *)
Definition empty_key : ImageStore := {["" := "data:image/png;base64,iVBORw0KGgo="]}.

(** 120 keys [k0 .. k119], each holding an artifact. *)
Definition full_120 : ImageStore :=
  list_to_map ((λ i : nat, ("k" +:+ pretty i, "x")) <$> seq 0 120).

(** 120 keys [k0 .. k119]; [k0] holds an empty artifact. *)
Definition hundred_twenty : ImageStore :=
  list_to_map
    ((λ i : nat, ("k" +:+ pretty i, if Nat.eqb i 0 then "" else "x"))
       <$> seq 0 120).

(** Buffers: one that the constructor refuses, one that is no database
    (the first query throws), one on which the query of the rows throws
    after the row of [a], a container without the table [images], and a
    container whose table [images] has two rows. *)
Definition refused : @Buffer Reference.sqljs := inl InConstructor.
Definition unreadable : @Buffer Reference.sqljs := inl InExec.
Definition damaged : @Buffer Reference.sqljs := inl (InSelect [("a", "x")]).
Definition no_table : @Buffer Reference.sqljs := inr [("notes", [])].
Definition two_rows : @Buffer Reference.sqljs :=
  inr [("images", [("a", "x"); ("b", "y")])].

(** [{"id":"x1","base64":"d"}] *)
Definition legacy_x1 : string :=
  Reference.stringify (JObj [("id", JStr "x1"); ("base64", JStr "d")]).

(** The same record with [base64] present and empty. *)
Definition legacy_x1_empty : string :=
  Reference.stringify (JObj [("id", JStr "x1"); ("base64", JStr "")]).

(** [{"type":"sentence","id":"x1","text":"hi"}] *)
Definition sentence_x1 : string :=
  Reference.stringify
    (sentence_record {| id := "x1"; english_text := "hi"; imageUrl := None;
                        status := completed |}).

End Stores.

(** ** The statuses and the store *)

(** A list of sentences agrees with the store when exactly the sentences
    whose id is a key of the store are [completed]. *)
Definition consistent (db : ImageStore) (sentences : list EnglishSentence)
  : Prop :=
  ∀ s, s ∈ sentences → (status s = completed ↔ is_Some (db !! id s)).

(** ** What a record of a backup can do *)

(** One record leaves the state of an import as it is, restores a
    sentence, or writes and counts an image whose key and value are not
    empty. *)
Inductive record_step : ImportState → ImportState → Prop :=
  | step_ignored s : record_step s s
  | step_sentence i t s : record_step s (push_sentence i t s)
  | step_image legacy i b s :
      i ≠ "" → b ≠ "" → record_step s (save_and_count legacy i b s).

(** What every import keeps true of its state, [db] being the store it
    started from. *)
Record import_invariant (db : ImageStore) (s : ImportState) : Prop := {
  inv_keeps : ∀ k, is_Some (db !! k) → is_Some (store s !! k);
  inv_written : ∀ k v, store s !! k = Some v →
                       db !! k = Some v ∨ (k ≠ "" ∧ v ≠ "");
  inv_size : size (store s) ≤ size db + imageCount s;
  inv_legacy_counted : length (legacyImageIds s) ≤ imageCount s;
  inv_legacy_stored : ∀ k, k ∈ legacyImageIds s → is_Some (store s !! k);
  inv_pending :
    Forall (λ x, status x = pending ∧ imageUrl x = None) (restoredSentences s)
}.

(** A record that is neither a sentence nor an image with its two
    fields. *)
Definition unrelated (data : JSON) : bool :=
  negb (Js.is_str (Js.prop data "type") "sentence")
  && negb (Js.truthy (Js.prop data "id") && Js.truthy (Js.prop data "base64")).

(** ** Delivery of the backup export *)

(** The rejection the host has in store is met when the export reaches
    the call that rejects: [Some abort] then, [abort] telling whether it
    is an [AbortError]; [n] is the number of records after the header. *)
Definition fault_met (env : HostEnv) (n : nat) : option bool :=
  if supportsFileSystemAccess env then
    match fs_fault env with
    | Some (call, abort) => if Nat.leb call (3 + n) then Some abort else None
    | None => None
    end
  else None.

(** ** Snapshot files, exported and imported *)

(** sql.js opens what it exported: it reads the container back, and none
    of its calls throws on it. *)
Class SqlJsLaws `{SqlJs} : Prop := {
  open_export d : SQL_open (SQL_export d) = Some d
}.

(** Files imported one after the other; the first error ends the run.
    The result is the number of rows saved in all, and the store. *)
Fixpoint importAll `{SqlJs} (files : list Buffer) (db : ImageStore)
  : ImportError + (nat * ImageStore) :=
  match files with
  | [] => inr (0, db)
  | f :: rest =>
      match importFromSQLite f db with
      | inl e => inl e
      | inr (n, db1) =>
          match importAll rest db1 with
          | inl e => inl e
          | inr (m, db2) => inr (n + m, db2)
          end
      end
  end.

(** The artifacts [getImage] shows: those that are not empty. *)
Definition visible (db : ImageStore) : ImageStore :=
  filter (λ kv, kv.2 ≠ "") db.

(** ** Lines of a CSV text *)

(** The string without one carriage return at its end. *)
Fixpoint strip_cr (s : string) : string :=
  match s with
  | EmptyString => EmptyString
  | String c EmptyString => if App.is_cr c then EmptyString else s
  | String c s' => String c (strip_cr s')
  end.

(** Every piece but the last without the carriage return at its end. *)
Fixpoint chop (pieces : list string) : list string :=
  match pieces with
  | [] => []
  | [x] => [x]
  | x :: rest => strip_cr x :: chop rest
  end.

(** The sentences of the data lines: one per line that is not blank. *)
Definition csv_rows (lines : list string) : list EnglishSentence :=
  App.parse_line <$> filter (λ l, JsString.truthy (trim l)) lines.

Fixpoint has_comma (s : string) : bool :=
  match s with
  | EmptyString => false
  | String c s' => App.is_comma c || has_comma s'
  end.

Definition cr : string := String (Ascii.ascii_of_nat 13) EmptyString.
Definition lf : string := String newline EmptyString.
Definition dquote : string := String (Ascii.ascii_of_nat 34) EmptyString.

(** ** Concrete inputs of the handlers *)

Module Inputs.

(** A CSV file of four lines after the header: one plain, one blank, one
    quoted with a comma in its text, one without a comma. *)
Definition csv_header : string := "id,english_text".
Definition csv_lines : list string :=
  ["1,Hello."; "   ";
   " 2 ," +:+ dquote +:+ "Hi, there" +:+ dquote;
   "3"].

Definition csv_sentences : list EnglishSentence :=
  [{| id := "1"; english_text := "Hello."; imageUrl := None; status := pending |};
   {| id := "2"; english_text := "Hi, there"; imageUrl := None; status := pending |};
   {| id := "3"; english_text := ""; imageUrl := None; status := pending |}].

End Inputs.

(** ** Outcomes of a batch *)

(** The sentence as one attempt loop leaves it: completed with the image
    the service returned, or in error after the last failed attempt. *)
Definition settled (outcome : option string) (p : EnglishSentence)
  : EnglishSentence :=
  match outcome with
  | Some url => {| id := id p; english_text := english_text p;
                   imageUrl := Some url; status := completed |}
  | None => App.with_status error p
  end.

(** The list after the attempt loop for the id [i]. *)
Definition settle (i : string) (outcome : option string)
    (prev : list EnglishSentence) : list EnglishSentence :=
  (λ p, if String.eqb (id p) i then settled outcome p else p) <$> prev.

(** What a batch over the sentences [targets] makes of a sentence [p],
    between the stores [before] and [after]: a sentence whose id is not
    the id of a target is left as it is; one whose id is, is completed
    with an image that the store now holds under its id, or is in error
    with its key of the store untouched. *)
Definition batch_outcome (targets : list EnglishSentence)
    (before after : ImageStore) (p p' : EnglishSentence) : Prop :=
  if decide (id p ∈ id <$> targets) then
    (∃ url, p' = settled (Some url) p ∧ after !! id p = Some url)
    ∨ (p' = settled None p ∧ after !! id p = before !! id p)
  else p' = p.

Module Session.

(** An image service whose first call fails and whose later calls
    return the same data URL. *)
Definition service (n : nat) (text style : string) : option string :=
  if Nat.eqb n 0 then None else Some "data:image/png;base64,AAAA".

(** Three sentences, the second completed and stored. *)
Definition start : App.State :=
  {| App.sentences :=
       [{| id := "1"; english_text := "Hello."; imageUrl := None;
           status := pending |};
        {| id := "2"; english_text := "Hi."; imageUrl := None;
           status := completed |};
        {| id := "3"; english_text := "Bye."; imageUrl := None;
           status := error |}];
     App.generation := IDLE;
     App.images := {["2" := "data:image/png;base64,BBBB"]};
     App.calls := 0 |}.

(** A host whose picker works and whose second write of a record is
    rejected with an error that is not an [AbortError]. *)
Definition failing_write : HostEnv :=
  {| supportsFileSystemAccess := true;
     now_iso := "2024-05-01T10:00:00.000Z";
     fs_fault := Some (4, false) |}.

End Session.

Module Rows.

(** A sentence that the list holds as pending, and one held as completed,
    both without image URL. *)
Definition waiting : EnglishSentence :=
  {| id := "a"; english_text := "Hello."; imageUrl := None; status := pending |}.
Definition done_ : EnglishSentence :=
  {| id := "a"; english_text := "Hello."; imageUrl := None; status := completed |}.

End Rows.

(** * Properties *)

(** ** Splitting text into lines *)

Module JsStringFacts.

Lemma append_cons c s t : String c s +:+ t = String c (s +:+ t).
Proof. reflexivity. Qed.

Lemma append_nil_l s : "" +:+ s = s.
Proof. reflexivity. Qed.

Lemma append_nil_r s : s +:+ "" = s.
Proof. induction s as [|c s IH]; [done|]. by rewrite append_cons, IH. Qed.

Lemma append_assoc s t u : (s +:+ t) +:+ u = s +:+ t +:+ u.
Proof.
  induction s as [|c s IH]; [done|]. by rewrite !append_cons, IH.
Qed.

Lemma split_nl_not_nil s : split_nl s ≠ [].
Proof.
  induction s as [|c s IH]; simpl; [done|].
  destruct (is_newline c); [done|]. by destruct (split_nl s).
Qed.

Lemma split_nl_lines_tail s : split_nl s = lines_of s ++ [tail_of s].
Proof.
  unfold lines_of, tail_of, pop; simpl.
  pose proof (split_nl_not_nil s) as Hne.
  destruct (split_nl s) as [|x l] using rev_ind; [done|].
  by rewrite removelast_last, last_snoc.
Qed.

Lemma lines_tail_unique s l t : split_nl s = l ++ [t] → lines_of s = l ∧ tail_of s = t.
Proof.
  intros E. unfold lines_of, tail_of, pop; simpl. rewrite E.
  by rewrite removelast_last, last_snoc.
Qed.

Lemma split_nl_newline c s :
  is_newline c = true →
  lines_of (String c s) = "" :: lines_of s ∧ tail_of (String c s) = tail_of s.
Proof.
  intros Hc. apply lines_tail_unique. simpl. rewrite Hc.
  by rewrite (split_nl_lines_tail s).
Qed.

Lemma split_nl_char c s :
  is_newline c = false →
  match lines_of s with
  | [] => lines_of (String c s) = [] ∧ tail_of (String c s) = String c (tail_of s)
  | h :: t => lines_of (String c s) = String c h :: t
              ∧ tail_of (String c s) = tail_of s
  end.
Proof.
  intros Hc. pose proof (split_nl_lines_tail s) as E.
  destruct (lines_of s) as [|h t]; apply lines_tail_unique;
    simpl; rewrite Hc, E; done.
Qed.

(** Reading a text in two pieces: the partial line the first piece ends
    with is continued by the second. *)
Lemma split_nl_app a b :
  split_nl (a +:+ b) = lines_of a ++ split_nl (tail_of a +:+ b).
Proof.
  induction a as [|c a IH]; [done|].
  rewrite append_cons. destruct (is_newline c) eqn:Hc.
  - destruct (split_nl_newline c a Hc) as [-> ->].
    simpl. by rewrite Hc, IH.
  - pose proof (split_nl_char c a Hc) as Hs. simpl. rewrite Hc, IH.
    destruct (lines_of a) as [|h t]; destruct Hs as [-> ->]; [|done].
    simpl. by rewrite Hc.
Qed.

Lemma lines_of_app a b :
  lines_of (a +:+ b) = lines_of a ++ lines_of (tail_of a +:+ b).
Proof.
  apply (lines_tail_unique _ _ (tail_of (tail_of a +:+ b))).
  by rewrite split_nl_app, (split_nl_lines_tail (tail_of a +:+ b)), (assoc_L (++)).
Qed.

Lemma tail_of_app a b : tail_of (a +:+ b) = tail_of (tail_of a +:+ b).
Proof.
  apply (lines_tail_unique _ (lines_of a ++ lines_of (tail_of a +:+ b))).
  by rewrite split_nl_app, (split_nl_lines_tail (tail_of a +:+ b)), (assoc_L (++)).
Qed.

Lemma split_nl_no_newline s : has_newline s = false → split_nl s = [s].
Proof.
  induction s as [|c s IH]; simpl; [done|].
  intros [Hc Hs]%orb_false_iff. by rewrite Hc, (IH Hs).
Qed.

Lemma tail_of_no_newline s : has_newline (tail_of s) = false.
Proof.
  induction s as [|c s IH]; [done|]. destruct (is_newline c) eqn:Hc.
  - by destruct (split_nl_newline c s Hc) as [_ ->].
  - pose proof (split_nl_char c s Hc) as Hs.
    destruct (lines_of s); destruct Hs as [_ ->]; [|done].
    simpl. by rewrite Hc.
Qed.

(** A complete line followed by more text. *)
Lemma split_nl_line l rest :
  has_newline l = false →
  split_nl (l +:+ String newline rest) = l :: split_nl rest.
Proof.
  induction l as [|c l IH]; [done|].
  simpl. intros [Hc Hl]%orb_false_iff. by rewrite Hc, (IH Hl).
Qed.

Lemma lines_of_line l rest :
  has_newline l = false →
  lines_of (l +:+ String newline rest) = l :: lines_of rest.
Proof.
  intros Hl. apply (lines_tail_unique _ _ (tail_of rest)).
  by rewrite (split_nl_line _ _ Hl), (split_nl_lines_tail rest).
Qed.

Lemma tail_of_line l rest :
  has_newline l = false →
  tail_of (l +:+ String newline rest) = tail_of rest.
Proof.
  intros Hl. apply (lines_tail_unique _ (l :: lines_of rest)).
  by rewrite (split_nl_line _ _ Hl), (split_nl_lines_tail rest).
Qed.

Lemma lines_of_no_newline s : has_newline s = false → lines_of s = [].
Proof. intros Hs. apply (lines_tail_unique s [] s), split_nl_no_newline, Hs. Qed.

Lemma tail_of_id s : has_newline s = false → tail_of s = s.
Proof. intros Hs. apply (lines_tail_unique s [] s), split_nl_no_newline, Hs. Qed.

End JsStringFacts.

Import JsStringFacts.

(** ** importBackup: the stream read in pieces, and what an import does *)

Section ImportFacts.
Context `{JSONCodec}.

Lemma import_lines_app l1 l2 s :
  import_lines (l1 ++ l2) s = import_lines l1 s ≫= import_lines l2.
Proof.
  revert s. induction l1 as [|l l1 IH]; intros s; simpl; [done|].
  destruct (import_line l s) as [s'|]; simpl; [apply IH|done].
Qed.

Lemma read_loop_text chunks leftover s :
  has_newline leftover = false →
  read_loop chunks leftover s =
    s' ← import_lines (lines_of (leftover +:+ concat chunks)) s;
    Some (tail_of (leftover +:+ concat chunks), s').
Proof.
  revert leftover s. induction chunks as [|chunk rest IH]; intros lo s Hlo; simpl.
  - rewrite append_nil_r, lines_of_no_newline, tail_of_id by done. done.
  - change (removelast (split_nl (lo +:+ chunk))) with (lines_of (lo +:+ chunk)).
    change (default "" (last (split_nl (lo +:+ chunk))))
      with (tail_of (lo +:+ chunk)).
    rewrite <- append_assoc, (lines_of_app (lo +:+ chunk)),
      (tail_of_app (lo +:+ chunk)), import_lines_app.
    destruct (import_lines (lines_of (lo +:+ chunk)) s) as [s'|]; simpl; [|done].
    apply IH, tail_of_no_newline.
Qed.

(** The result of an import depends on the text of the stream, not on
    where the reads cut it. *)
Lemma importBackup_text chunks db :
  importBackup chunks db =
    s ← import_lines (lines_of (concat chunks)) (import_start db);
    import_leftover (tail_of (concat chunks)) s.
Proof.
  unfold importBackup. rewrite read_loop_text by done. rewrite append_nil_l.
  by destruct (import_lines _ _).
Qed.

Lemma importBackup_chunking chunks chunks' db :
  concat chunks = concat chunks' →
  importBackup chunks db = importBackup chunks' db.
Proof. intros E. by rewrite !importBackup_text, E. Qed.

End ImportFacts.

Section Stateless.
Context `{JSONCodec}.

Lemma perform_nothing_r e : perform e nothing = e.
Proof.
  destruct e; unfold perform; simpl. f_equal. apply (right_id_L ∅ (∪)).
Qed.

Lemma perform_nothing_l s : perform nothing s = s.
Proof.
  destruct s; unfold perform; simpl. f_equal; [lia|apply app_nil_r..|].
  apply (left_id_L ∅ (∪)).
Qed.

Lemma perform_assoc e2 e1 s :
  perform e2 (perform e1 s) = perform (perform e2 e1) s.
Proof.
  unfold perform; simpl. f_equal; [lia|by rewrite (assoc_L (++))..|].
  by rewrite (assoc_L (∪)).
Qed.

Lemma stateless_ret : stateless Some.
Proof. intros s. simpl. by rewrite perform_nothing_l. Qed.

Lemma stateless_bind f g :
  stateless f → stateless g → stateless (λ s, f s ≫= g).
Proof.
  intros Hf Hg s. rewrite (Hf s).
  destruct (f nothing) as [e1|]; simpl; [|done].
  rewrite (Hg (perform e1 s)), (Hg e1).
  destruct (g nothing) as [e2|]; simpl; [|done].
  by rewrite perform_assoc.
Qed.

Lemma push_sentence_perform i t s :
  push_sentence i t s = perform (push_sentence i t nothing) s.
Proof.
  unfold push_sentence, perform; simpl. f_equal; [lia|by rewrite app_nil_r|].
  by rewrite (left_id_L ∅ (∪)).
Qed.

Lemma save_and_count_perform legacy i b s :
  save_and_count legacy i b s = perform (save_and_count legacy i b nothing) s.
Proof.
  unfold save_and_count, perform, saveImage; simpl. f_equal; [lia|..].
  - by rewrite app_nil_r.
  - by destruct legacy; rewrite ?app_nil_r.
  - by rewrite insert_empty, insert_union_singleton_l.
Qed.

Lemma stateless_typed_sentence data : stateless (typed_sentence data).
Proof.
  intros s. unfold typed_sentence.
  destruct (Js.as_string (Js.prop data "id")); simpl; [|done].
  destruct (Js.as_string (Js.prop data "text")); simpl; [|done].
  by rewrite push_sentence_perform.
Qed.

Lemma stateless_typed_save legacy data : stateless (typed_save legacy data).
Proof.
  intros s. unfold typed_save.
  destruct (Js.as_string (Js.prop data "id")); simpl; [|done].
  destruct (Js.as_string (Js.prop data "base64")); simpl; [|done].
  by rewrite save_and_count_perform.
Qed.

Lemma stateless_dispatch_line data : stateless (dispatch_line data).
Proof.
  unfold dispatch_line. intros s.
  destruct data; try apply stateless_ret;
    repeat match goal with
           | |- context [if ?b then _ else _] => destruct b
           end;
    first [apply stateless_typed_sentence | apply stateless_typed_save
          | apply stateless_ret].
Qed.

Lemma stateless_dispatch_leftover data : stateless (dispatch_leftover data).
Proof.
  unfold dispatch_leftover. intros s.
  destruct data; try apply stateless_ret;
    repeat match goal with
           | |- context [if ?b then _ else _] => destruct b
           end;
    first [apply stateless_typed_sentence | apply stateless_typed_save
          | apply stateless_ret].
Qed.

Lemma stateless_import_line line : stateless (import_line line).
Proof.
  intros s. unfold import_line.
  destruct (negb _); [apply stateless_ret|].
  destruct (JSON_parse line); [apply stateless_dispatch_line|apply stateless_ret].
Qed.

Lemma stateless_import_leftover line : stateless (import_leftover line).
Proof.
  intros s. unfold import_leftover.
  destruct (JsString.truthy _); [|apply stateless_ret].
  destruct (JSON_parse line); [apply stateless_dispatch_leftover|apply stateless_ret].
Qed.

Lemma stateless_import_lines lines : stateless (import_lines lines).
Proof.
  induction lines as [|l ls IH]; [apply stateless_ret|].
  apply (stateless_bind (import_line l) (import_lines ls));
    [apply stateless_import_line|apply IH].
Qed.

(** The import into any store, from the import into the empty one. *)
Lemma importBackup_perform chunks db :
  importBackup chunks db =
    e ← importBackup chunks ∅; Some (perform e (import_start db)).
Proof.
  rewrite !importBackup_text.
  apply (stateless_bind (import_lines _) (import_leftover _));
    [apply stateless_import_lines|apply stateless_import_leftover].
Qed.

End Stateless.

Section LineFacts.
Context `{JSONCodec}.

Lemma truthy_string s : s ≠ "" → JsString.truthy s = true.
Proof. by destruct s. Qed.

Lemma prop_not_null data name v : Js.prop data name = Some v → data ≠ JNull.
Proof. by destruct data. Qed.

Lemma import_line_image l k v s :
  image_line l k v → import_line l s = Some (save_and_count false k v s).
Proof.
  intros (_ & Ht & data & Hp & Hty & Hid & Hb & Hk & Hv).
  unfold import_line, dispatch_line, typed_save. rewrite Ht, Hp; simpl.
  rewrite Hty, Hid, Hb; simpl. rewrite !truthy_string by done; simpl.
  destruct data; done.
Qed.

Lemma import_line_malformed l s : JSON_parse l = None → import_line l s = Some s.
Proof. intros Hp. unfold import_line. rewrite Hp. by destruct (negb _). Qed.

Lemma import_leftover_malformed l s :
  JSON_parse l = None → import_leftover l s = Some s.
Proof. intros Hp. unfold import_leftover. rewrite Hp. by destruct (JsString.truthy _). Qed.

(** A record with a [type] the import does not know, carrying [id] and
    [base64]: a complete line is stored, counted and listed as legacy. *)
Lemma import_line_unknown_type l data t k v s :
  JsString.truthy (trim l) = true → JSON_parse l = Some data →
  Js.prop data "type" = Some (JStr t) → t ≠ "sentence" → t ≠ "image" →
  Js.prop data "id" = Some (JStr k) → Js.prop data "base64" = Some (JStr v) →
  k ≠ "" → v ≠ "" →
  import_line l s = Some (save_and_count true k v s).
Proof.
  intros Ht Hp Hty Hs Hi Hid Hb Hk Hv.
  unfold import_line, dispatch_line, typed_save. rewrite Ht, Hp; simpl.
  rewrite Hty, Hid, Hb; simpl. rewrite !truthy_string by done; simpl.
  apply String.eqb_neq in Hs, Hi. rewrite Hs, Hi. by destruct data.
Qed.

(** On every recognised record the rules for the last, unterminated line
    are those of a complete line. *)
Lemma dispatch_leftover_recognised data s :
  recognised data = true → dispatch_leftover data s = dispatch_line data s.
Proof.
  unfold recognised, dispatch_leftover, dispatch_line. intros Hr.
  destruct data; try done.
  all: generalize dependent (Js.prop (JObj fields) "type");
    generalize dependent (Js.prop (JObj fields) "id");
    generalize dependent (Js.prop (JObj fields) "base64").
  all: intros b i t; destruct (Js.is_str t "sentence") eqn:E1; try done.
  destruct (Js.is_str t "image") eqn:E2;
    destruct (Js.truthy i), (Js.truthy b); simpl; try done.
  - destruct t as [[]|]; try done. simpl in E2.
    apply String.eqb_eq in E2 as ->. done.
  - by destruct (Js.truthy t).
Qed.

(** On any record at all the two dispatches write and count the same
    images and restore the same sentences. *)
Lemma dispatch_leftover_same data s :
  same_images (dispatch_leftover data s) (dispatch_line data s).
Proof.
  destruct (recognised data) eqn:Hr.
  - rewrite (dispatch_leftover_recognised _ _ Hr).
    by destruct (dispatch_line data s).
  - unfold recognised in Hr. apply negb_false_iff in Hr.
    repeat (apply andb_true_iff in Hr as [Hr ?]).
    unfold dispatch_leftover, dispatch_line.
    destruct data; try done.
    all: repeat match goal with
                | H : negb ?b = true |- _ => apply negb_true_iff in H
                | H : ?b = _ |- context [?b] => rewrite H
                end; simpl.
    unfold typed_save.
    destruct (Js.as_string (Js.prop (JObj fields) "id")); simpl; [|done].
    by destruct (Js.as_string (Js.own fields "base64")).
Qed.

Lemma import_leftover_same l s :
  same_images (import_leftover l s) (import_line l s).
Proof.
  unfold import_leftover, import_line.
  destruct (JsString.truthy (trim l)); simpl; [|done].
  destruct (JSON_parse l); [apply dispatch_leftover_same|done].
Qed.

Lemma import_leftover_recognised l s :
  (∀ data, JSON_parse l = Some data → recognised data = true) →
  import_leftover l s = import_line l s.
Proof.
  intros Hr. unfold import_leftover, import_line.
  destruct (JsString.truthy (trim l)); simpl; [|done].
  destruct (JSON_parse l) as [data|]; [|done].
  by apply dispatch_leftover_recognised, Hr.
Qed.

End LineFacts.

(** ** importBackup: malformed lines, the last line, a second import *)

Section Claims.
Context `{JSONCodec}.

(** C7. A line that fails to parse as JSON, between two valid [image]
    records, is skipped and nothing else is: the import of the three
    lines returns, with both images written and counted, however the
    reads cut the stream; and inside any stream (after [pre], which ends
    a line, and before [post]) the import is that of the stream without
    the malformed line. *)
Theorem C7_malformed_line_skipped (l1 bad l2 k1 v1 k2 v2 : string) :
  image_line l1 k1 v1 → image_line l2 k2 v2 →
  has_newline bad = false → JSON_parse bad = None →
  (∀ chunks db,
     concat chunks = line l1 (line bad (line l2 "")) →
     importBackup chunks db =
       Some {| imageCount := 2; restoredSentences := []; legacyImageIds := [];
               store := saveImage k2 v2 (saveImage k1 v1 db) |})
  ∧ (∀ pre post chunks db,
       tail_of pre = "" →
       concat chunks = pre +:+ line l1 (line bad (line l2 post)) →
       importBackup chunks db
       = importBackup [pre +:+ line l1 (line l2 post)] db).
Proof.
  intros H1 H2 Hnl Hbad.
  assert (has_newline l1 = false) as Hl1 by apply H1.
  assert (has_newline l2 = false) as Hl2 by apply H2.
  split.
  - intros chunks db E. rewrite importBackup_text, E. unfold line.
    rewrite (lines_of_line l1), (lines_of_line bad), (lines_of_line l2) by done.
    rewrite (tail_of_line l1), (tail_of_line bad), (tail_of_line l2) by done.
    simpl.
    rewrite (import_line_image _ _ _ _ H1); simpl.
    rewrite (import_line_malformed _ _ Hbad); simpl.
    rewrite (import_line_image _ _ _ _ H2); simpl. done.
  - intros pre post chunks db Hpre E. rewrite !importBackup_text, E. simpl.
    rewrite append_nil_r, (lines_of_app pre), (tail_of_app pre),
      (lines_of_app pre), (tail_of_app pre), Hpre, !append_nil_l.
    unfold line.
    rewrite (lines_of_line l1), (lines_of_line bad), (lines_of_line l1) by done.
    rewrite (tail_of_line l1), (tail_of_line bad), (tail_of_line l1) by done.
    rewrite !import_lines_app.
    destruct (import_lines (lines_of pre) _) as [s|]; simpl; [|done].
    rewrite (import_line_image _ _ _ _ H1); simpl.
    rewrite (import_line_malformed _ _ Hbad); simpl. done.
Qed.

(** C8. A second import of the same stream (whatever the reads) into the
    store the first import left returns as the first did, and leaves the
    store, hence its key set, as it was. *)
Theorem C8_import_twice (chunks chunks' : list string) (db : ImageStore)
    (s1 : ImportState) :
  concat chunks = concat chunks' →
  importBackup chunks db = Some s1 →
  ∃ s2, importBackup chunks' (store s1) = Some s2
        ∧ dom (store s2) = dom (store s1)
        ∧ store s2 = store s1
        ∧ imageCount s2 = imageCount s1
        ∧ restoredSentences s2 = restoredSentences s1
        ∧ legacyImageIds s2 = legacyImageIds s1.
Proof.
  intros E H1. rewrite <- (importBackup_chunking _ _ _ E).
  rewrite importBackup_perform in H1 |- *.
  destruct (importBackup chunks ∅) as [e|]; simpl in *; [|done].
  injection H1 as <-. eexists; split; [done|]. simpl.
  assert (store e ∪ (store e ∪ db) = store e ∪ db) as ->; [|done].
  by rewrite (assoc_L (∪)), (idemp_L (∪)).
Qed.

(** C6, as the code has it.  A file whose last line has no newline is
    imported, whatever the reads, as the same file with the newline
    added: the same images are written and counted and the same sentences
    restored, so the last record is not dropped; and the two results are
    equal, legacy ids included, when the rules recognise the record of
    the last line. *)
Theorem C6_final_line_imported (text : string) (chunks chunks' : list string)
    (db : ImageStore) :
  concat chunks = text → concat chunks' = line text "" →
  same_images (importBackup chunks db) (importBackup chunks' db)
  ∧ ((∀ data, JSON_parse (tail_of text) = Some data → recognised data = true) →
     importBackup chunks db = importBackup chunks' db).
Proof.
  intros E E'. rewrite !importBackup_text, E, E'. unfold line.
  rewrite (lines_of_app text), (tail_of_app text).
  rewrite (lines_of_line (tail_of text) ""), (tail_of_line (tail_of text) "")
    by apply tail_of_no_newline.
  rewrite import_lines_app. change (lines_of "") with (@nil string).
  change (tail_of "") with "".
  destruct (import_lines (lines_of text) _) as [s|]; simpl; [|done].
  assert (∀ r, r ≫= (λ s', import_leftover "" s') = r) as Hend
    by (by intros [?|]).
  assert (import_line (tail_of text) s ≫= (λ s', Some s')
          = import_line (tail_of text) s) as -> by (by destruct (import_line _ _)).
  rewrite Hend. split.
  - apply import_leftover_same.
  - apply import_leftover_recognised.
Qed.

End Claims.

(** ** The Image Store *)

Section StoreFacts.
Implicit Types (db : ImageStore) (k v : string).

Lemma getAllKeys_Permutation db : getAllKeys db ≡ₚ (map_to_list db).*1.
Proof. apply merge_sort_Permutation. Qed.

Lemma getAllKeys_sorted db : Sorted String.le (getAllKeys db).
Proof. apply (Sorted_merge_sort String.le). Qed.

Lemma elem_of_getAllKeys db k : k ∈ getAllKeys db ↔ is_Some (db !! k).
Proof.
  rewrite getAllKeys_Permutation, list_elem_of_fmap. split.
  - intros [[k' v] [-> Hin]]. apply elem_of_map_to_list in Hin. by exists v.
  - intros [v Hv]. exists (k, v). split; [done|]. by apply elem_of_map_to_list.
Qed.

Lemma NoDup_getAllKeys db : NoDup (getAllKeys db).
Proof. rewrite getAllKeys_Permutation. apply NoDup_fst_map_to_list. Qed.

Lemma length_getAllKeys db : length (getAllKeys db) = size db.
Proof.
  by rewrite getAllKeys_Permutation, length_fmap, length_map_to_list.
Qed.

Lemma getImage_Some db k v : getImage k db = Some v ↔ db !! k = Some v ∧ v ≠ "".
Proof.
  unfold getImage. destruct (db !! k) as [w|]; [|by split; [|intros []]].
  destruct w; simpl; (split; [intros [= <-]|intros [[= <-] ?]]); done.
Qed.



End StoreFacts.

(** ** The SQLite snapshot service *)

Section SqliteFacts.
Context `{FloatArith} `{SqlJs}.
Implicit Types (db : ImageStore) (t : Table).

Lemma rows_of_fst_subset db keys k : k ∈ (rows_of db keys).*1 → k ∈ keys.
Proof.
  unfold rows_of. rewrite list_elem_of_fmap. intros [[k' v] [-> Hin]].
  apply list_elem_of_omap in Hin as (key & Hkey & Hg).
  destruct (getImage key db); simplify_eq/=. done.
Qed.

Lemma elem_of_rows_of db keys k v :
  (k, v) ∈ rows_of db keys ↔ k ∈ keys ∧ db !! k = Some v ∧ v ≠ "".
Proof.
  unfold rows_of. rewrite list_elem_of_omap. split.
  - intros (key & Hkey & Hg).
    destruct (getImage key db) as [b|] eqn:E; simplify_eq/=.
    by apply getImage_Some in E as [? ?].
  - intros (Hk & Hv & Hne). exists k. split; [done|].
    by rewrite (proj2 (getImage_Some db k v)).
Qed.

Lemma length_rows_of_le db keys :
  (length (rows_of db keys) ≤ length keys)%nat.
Proof.
  induction keys as [|k keys IH]; simpl; [done|].
  destruct (getImage k db); simpl; lia.
Qed.

Lemma length_rows_of_full db keys :
  (∀ k, k ∈ keys → ∃ v, db !! k = Some v ∧ v ≠ "") →
  length (rows_of db keys) = length keys.
Proof.
  induction keys as [|k keys IH]; intros Hall; simpl; [done|].
  destruct (Hall k) as (v & Hv & Hne); [left|].
  rewrite (proj2 (getImage_Some db k v)) by done. simpl.
  rewrite IH; [done|]. intros k' Hk'. apply Hall. by right.
Qed.

Lemma insert_row_fresh key base64 t :
  key ∉ t.*1 → insert_row key base64 t = Some (t ++ [(key, base64)]).
Proof.
  intros Hk. unfold insert_row.
  destruct (existsb (String.eqb key) t.*1) eqn:E; [|done].
  apply existsb_exists in E as (k' & Hin & ->%String.eqb_eq).
  by apply list_elem_of_In in Hin.
Qed.

(** Filling a chunk never throws: the keys of a batch are distinct. *)
Lemma fill_chunk_rows onProgress total keys db t processed :
  NoDup keys → (∀ k, k ∈ keys → k ∉ t.*1) →
  fill_chunk onProgress total keys db t processed =
    Some (t ++ rows_of db keys, processed + length keys,
          reported onProgress total processed (length keys)).
Proof.
  revert t processed.
  induction keys as [|k keys IH]; intros t p Hnd Hfresh; simpl.
  - rewrite app_nil_r, Nat.add_0_r. unfold reported. by destruct onProgress.
  - apply NoDup_cons in Hnd as [Hk Hnd].
    assert (∀ t', t'.*1 ⊆ k :: t.*1 → ∀ k', k' ∈ keys → k' ∉ t'.*1) as Hstep.
    { intros t' Hsub k' Hk' Hin. apply Hsub in Hin.
      apply elem_of_cons in Hin as [->|Hin]; [done|].
      by apply (Hfresh k'); [right|]. }
    destruct (getImage k db) as [b|]; simpl.
    + rewrite insert_row_fresh by (apply Hfresh; left). simpl.
      rewrite IH; [|done|]; simpl.
      * rewrite <- (assoc_L (++)). simpl. do 2 f_equal; [f_equal; lia|].
        unfold reported. by destruct onProgress.
      * apply Hstep. rewrite fmap_app. simpl. set_solver.
    + rewrite IH; [|done|]; simpl.
      * do 2 f_equal; [f_equal; lia|]. unfold reported. by destruct onProgress.
      * apply Hstep. set_solver.
Qed.


#[local] Arguments Nat.min : simpl never.
#[local] Arguments Nat.sub : simpl never.
#[local] Arguments seq : simpl never.

Lemma batches_nil fuel : batches fuel [] = [].
Proof. by destruct fuel. Qed.

(** The loop over the chunks returns, with one container per batch. *)
Lemma chunk_loop_batches fuel onProgress keys db i processed :
  NoDup keys → (i < length keys → processed = i) → length keys - i ≤ fuel →
  chunk_loop fuel onProgress keys db i processed =
    Some ((λ b, [("images", rows_of db b)]) <$> batches fuel (drop i keys),
          reported onProgress (length keys) i (length keys - i)).
Proof.
  intros Hnd. revert i processed.
  induction fuel as [|fuel IH]; intros i p Hp Hfuel.
  - assert (length keys ≤ i) as Hle by lia.
    simpl. rewrite (proj2 (Nat.leb_le _ _) Hle).
    replace (length keys - i) with 0 by lia.
    unfold reported. by destruct onProgress.
  - simpl. destruct (Nat.leb_spec (length keys) i) as [Hle|Hlt].
    + rewrite drop_ge by done. replace (length keys - i) with 0 by lia.
      unfold reported. by destruct onProgress.
    + rewrite (Hp Hlt).
      rewrite fill_chunk_rows;
        [|by eapply sublist_NoDup;
            [|etrans; [apply sublist_take|apply sublist_drop]]
         |intros ? ?; simpl; apply not_elem_of_nil].
      simpl. rewrite length_take, length_drop.
      rewrite (IH (i + CHUNK_SIZE)); [|unfold CHUNK_SIZE in *; lia..].
      simpl. destruct (drop i keys) as [|k0 rest] eqn:Hd.
      { apply (f_equal length) in Hd. rewrite length_drop in Hd.
        simpl in Hd. lia. }
      rewrite <- Hd, drop_drop. do 2 f_equal.
      unfold reported. destruct onProgress; [|done].
      rewrite <- fmap_app. f_equal. unfold CHUNK_SIZE.
      destruct (Nat.le_gt_cases (length keys - i) 50).
      * rewrite Nat.min_r by done.
        replace (length keys - (i + 50)) with 0 by lia. by rewrite app_nil_r.
      * rewrite Nat.min_l by lia. rewrite <- seq_app. f_equal. lia.
Qed.

Lemma exportToSQLiteDatabases_batches onProgress db :
  exportToSQLiteDatabases onProgress db =
    Some ((λ b, [("images", rows_of db b)]) <$> key_batches (getAllKeys db),
          reported onProgress (size db) 0 (size db)).
Proof.
  unfold exportToSQLiteDatabases.
  rewrite (chunk_loop_batches _ _ _ _ 0 0 (NoDup_getAllKeys db)) by (done || lia).
  unfold key_batches. by rewrite drop_0, Nat.sub_0_r, !length_getAllKeys.
Qed.

(** The batches are consecutive pieces of the key list. *)
Lemma batches_concat fuel keys :
  length keys ≤ fuel → mjoin (batches fuel keys) = keys.
Proof.
  revert keys. induction fuel as [|fuel IH]; intros keys Hf.
  - destruct keys; [done|simpl in Hf; lia].
  - destruct keys as [|k keys]; [done|].
    change (batches (S fuel) (k :: keys))
      with (take CHUNK_SIZE (k :: keys)
            :: batches fuel (drop CHUNK_SIZE (k :: keys))).
    change (mjoin (?b :: ?bs)) with (b ++ mjoin bs).
    rewrite IH by (rewrite length_drop; simpl in *; unfold CHUNK_SIZE; lia).
    apply take_drop.
Qed.

Lemma batches_bounds fuel keys :
  Forall (λ b, 0 < length b ≤ CHUNK_SIZE) (batches fuel keys).
Proof.
  revert keys. induction fuel as [|fuel IH]; intros keys; [by constructor|].
  destruct keys as [|k keys]; [by constructor|].
  change (batches (S fuel) (k :: keys))
    with (take CHUNK_SIZE (k :: keys)
          :: batches fuel (drop CHUNK_SIZE (k :: keys))).
  constructor; [|apply IH].
  rewrite length_take. simpl. unfold CHUNK_SIZE. lia.
Qed.

Lemma batches_sizes fuel keys :
  length <$> batches fuel keys = batch_sizes fuel (length keys).
Proof.
  revert keys. induction fuel as [|fuel IH]; intros keys; [done|].
  destruct keys as [|k keys]; [done|].
  change (batches (S fuel) (k :: keys))
    with (take CHUNK_SIZE (k :: keys)
          :: batches fuel (drop CHUNK_SIZE (k :: keys))).
  change (batch_sizes (S fuel) (length (k :: keys)))
    with (min CHUNK_SIZE (length (k :: keys))
          :: batch_sizes fuel (length (k :: keys) - CHUNK_SIZE)).
  rewrite fmap_cons, IH, length_take, length_drop. done.
Qed.

End SqliteFacts.

Section SqliteClaims.
Context `{FloatArith} `{SqlJs}.

Lemma import_rows_fold (rows : Table) (count : nat) (db : ImageStore) :
  foldl (λ '(count, st) row, (S count, saveImage row.1 row.2 st)) (count, db) rows
  = (count + length rows, foldl (λ st row, saveImage row.1 row.2 st) db rows).
Proof.
  revert count db. induction rows as [|row rows IH]; intros count db; simpl.
  - by rewrite Nat.add_0_r.
  - rewrite IH. f_equal. lia.
Qed.

Lemma images_tables_nil (d : Database) : images_tables d = [] ↔ "images" ∉ d.*1.
Proof.
  unfold images_tables. split.
  - intros E Hin.
    assert ("images" ∈ filter (λ name, name = "images") d.*1) as Hf
      by (by apply list_elem_of_filter).
    rewrite E in Hf. by apply not_elem_of_nil in Hf.
  - intros Hn. induction d.*1 as [|n ns IH]; [done|].
    rewrite filter_cons. rewrite not_elem_of_cons in Hn. destruct Hn as [Hne Hn].
    destruct (decide (n = "images")); [done|by apply IH].
Qed.

(** C5. What [importFromSQLite] does on every buffer.  It fails with the
    invalid-format error exactly when the constructor throws, and with
    the invalid-schema error exactly when sql.js reads the bytes to a
    container without a table [images]; when the container has the
    table, it puts every row of it into the store, in order, and returns
    their number.  A buffer on which a query throws is none of these
    three cases: the function then fails with the error of sql.js.  On
    bytes that are no database (the constructor returns, the first query
    throws) the store is as it was; when the query of the rows throws,
    the rows saved by then are in the store. *)
Theorem C5_importFromSQLite (fileBuffer : Buffer) (db : ImageStore) :
  (importFromSQLite fileBuffer db = inl InvalidFormatError
     ↔ SQL_read fileBuffer = inl InConstructor)
  ∧ (importFromSQLite fileBuffer db = inl InvalidSchemaError
     ↔ ∃ d, SQL_read fileBuffer = inr d ∧ "images" ∉ d.*1)
  ∧ (∀ d, SQL_read fileBuffer = inr d → "images" ∈ d.*1 →
       importFromSQLite fileBuffer db
       = inr (length (select_images d),
              foldl (λ st row, saveImage row.1 row.2 st) db (select_images d)))
  ∧ (SQL_read fileBuffer = inl InExec →
       importFromSQLite fileBuffer db = inl (SqlJsError db))
  ∧ (∀ saved, SQL_read fileBuffer = inl (InSelect saved) →
       importFromSQLite fileBuffer db
       = inl (SqlJsError (foldl (λ st row, saveImage row.1 row.2 st) db saved))).
Proof.
  unfold importFromSQLite, save_rows.
  destruct (SQL_read fileBuffer) as [[| |saved]|d].
  - split_and!; try done. split; [done|]. by intros (? & ? & _).
  - split_and!; try done. split; [done|]. by intros (? & ? & _).
  - split_and!; try done.
    + split; [done|]. by intros (? & ? & _).
    + intros saved' [= <-]. by rewrite import_rows_fold.
  - pose proof (images_tables_nil d) as Hnil.
    destruct (images_tables d) as [|n ns] eqn:E; simpl.
    + split_and!; try done.
      * split; [|done]. intros _. exists d. split; [done|]. by apply Hnil.
      * intros d' [= <-] Hin. by apply Hnil in Hin.
    + assert ("images" ∈ d.*1) as Hin.
      { destruct (decide ("images" ∈ d.*1)) as [|Hn]; [done|].
        by apply Hnil in Hn. }
      rewrite import_rows_fold. split_and!; try done.
      * split; [done|]. by intros (d' & [= <-] & Hn).
      * by intros d' [= <-] _.
Qed.


(** C2, as the code has it.  The export returns one chunk per batch of
    the key list, the batches being consecutive pieces of at most 50
    keys; the table of a chunk has one row per key of its batch that
    holds a non-empty artifact.  With 120 keys there are 3 chunks, for
    batches of 50, 50 and 20 keys, and they hold 50, 50 and 20 rows when
    no artifact is empty; with no key there is no chunk. *)
Theorem C2_chunks (onProgress : bool) (db : ImageStore) :
  let bs := key_batches (getAllKeys db) in
  exportToSQLiteChunks onProgress db
  = Some ((λ b, SQL_export [("images", rows_of db b)]) <$> bs,
          reported onProgress (size db) 0 (size db))
  ∧ mjoin bs = getAllKeys db
  ∧ Forall (λ b, 0 < length b ≤ CHUNK_SIZE) bs
  ∧ (∀ b k v, (k, v) ∈ rows_of db b ↔ k ∈ b ∧ db !! k = Some v ∧ v ≠ "")
  ∧ (size db = 120 →
       length <$> bs = [50; 50; 20]
       ∧ ((∀ k v, db !! k = Some v → v ≠ "") →
            (λ b, length (rows_of db b)) <$> bs = [50; 50; 20]))
  ∧ (size db = 0 → bs = []).
Proof.
  intros bs.
  assert (mjoin bs = getAllKeys db) as Hjoin by (by apply batches_concat).
  split_and!.
  - unfold exportToSQLiteChunks.
    rewrite exportToSQLiteDatabases_batches. simpl.
    by rewrite <- list_fmap_compose.
  - done.
  - apply batches_bounds.
  - intros. apply elem_of_rows_of.
  - intros Hsize.
    assert (length <$> bs = [50; 50; 20]) as Hlen.
    { unfold bs, key_batches. rewrite batches_sizes, length_getAllKeys, Hsize.
      reflexivity. }
    split; [done|]. intros Hfull. rewrite <- Hlen.
    apply list_fmap_ext. intros i b Hb. apply length_rows_of_full.
    intros k Hk.
    assert (k ∈ getAllKeys db) as Hin.
    { rewrite <- Hjoin. apply list_elem_of_join. exists b. split; [done|].
      by eapply list_elem_of_lookup_2. }
    apply elem_of_getAllKeys in Hin as [v Hv]. exists v. split; [done|].
    by eapply Hfull.
  - intros Hsize. unfold bs, key_batches.
    by rewrite length_getAllKeys, Hsize.
Qed.

End SqliteClaims.

(** ** Progress reports *)

Section ProgressFacts.
Context `{FloatArith} {laws : FloatArithLaws} `{JSONCodec}.

Lemma count_records_reports onProgress totalItems records processed :
  count_records onProgress totalItems records processed =
    (processed + length records,
     mjoin (reportProgress onProgress totalItems
              <$> seq (S processed) (length records))).
Proof.
  revert processed. induction records as [|r records IH]; intros p; simpl.
  - by rewrite Nat.add_0_r.
  - rewrite IH. f_equal. lia.
Qed.








End ProgressFacts.

Section ExportFacts.
Context `{FloatArith} `{JSONCodec}.

(** Whatever the host does, a text that is delivered is the backup. *)
Lemma exportBackup_delivered env sentences onProgress db text :
  delivered (exportBackup env sentences onProgress db) = Some text →
  text = backup_text (now_iso env) sentences db.
Proof.
  unfold exportBackup, delivered, backup_text.
  destruct (supportsFileSystemAccess env).
  - destruct (fs_fault env) as [[call abort]|].
    + destruct (Nat.leb call _).
      * destruct (count_records _ _ (take _ _) 0) as [p reps].
        destruct abort; [done|].
        destruct (count_records _ _ _ p). simpl. by intros [= <-].
      * destruct (count_records _ _ _ 0). simpl. by intros [= <-].
    + destruct (count_records _ _ _ 0). simpl. by intros [= <-].
  - destruct (count_records _ _ _ 0). simpl. by intros [= <-].
Qed.

(** On a single delivery path the backup is delivered, and the reports
    are those of one run over the records. *)
Lemma exportBackup_single_path env sentences onProgress db :
  single_path env →
  let r := exportBackup env sentences onProgress db in
  delivered r = Some (backup_text (now_iso env) sentences db)
  ∧ progress r =
      mjoin (reportProgress onProgress (length sentences + size db)
               <$> seq 1 (length (body_records sentences db))).
Proof.
  intros Hsingle. unfold single_path in Hsingle.
  unfold exportBackup, delivered, backup_text.
  destruct (supportsFileSystemAccess env).
  - destruct Hsingle as [Hno|Hnone]; [done|]. rewrite Hnone.
    by rewrite !count_records_reports, length_getAllKeys.
  - by rewrite !count_records_reports, length_getAllKeys.
Qed.

(** Every key that is listed is fetched: the callback runs once per key. *)
Lemma iterateImages_keys db : (iterateImages db).*1 = getAllKeys db.
Proof.
  unfold iterateImages.
  assert (Forall (λ k, is_Some (db !! k)) (getAllKeys db)) as Hall
    by (apply Forall_forall; intros k; apply elem_of_getAllKeys).
  induction Hall as [|k keys [v Hv] _ IH]; [done|].
  csimpl. rewrite Hv. csimpl. by rewrite IH.
Qed.



End ExportFacts.

Section ProgressClaim.
Context `{FloatArith} {laws : FloatArithLaws} `{JSONCodec} `{SqlJs}.


End ProgressClaim.

(** ** Reconciliation *)

Module JsMapFacts.
Import JsMap JsMapSpec.

Lemma has_true k m : has k m = true ↔ k ∈ m.*1.
Proof.
  unfold has. induction m as [|[k' v'] m IH]; simpl.
  - split; [done|]. by intros ?%not_elem_of_nil.
  - rewrite orb_true_iff, IH, elem_of_cons, String.eqb_eq. naive_solver.
Qed.

Lemma has_false k m : has k m = false ↔ k ∉ m.*1.
Proof. rewrite <- has_true. by destruct (has k m). Qed.

Lemma set_fresh k v m : k ∉ m.*1 → set k v m = m ++ [(k, v)].
Proof.
  induction m as [|[k' v'] m IH]; simpl; [done|].
  rewrite not_elem_of_cons. intros [Hne Hk].
  destruct (String.eqb_spec k' k) as [->|_]; [done|]. by rewrite IH.
Qed.

Lemma set_keys k v m :
  (set k v m).*1 = if has k m then m.*1 else m.*1 ++ [k].
Proof.
  unfold has. induction m as [|[k' v'] m IH]; csimpl; [done|].
  destruct (String.eqb_spec k' k) as [->|_]; csimpl; [done|].
  rewrite IH. by destruct (existsb _ m).
Qed.

Lemma elem_of_set_keys k v m k' :
  k' ∈ (set k v m).*1 ↔ k' = k ∨ k' ∈ m.*1.
Proof.
  rewrite set_keys. destruct (has k m) eqn:E.
  - apply has_true in E. naive_solver.
  - rewrite elem_of_app, list_elem_of_singleton. naive_solver.
Qed.

Lemma elem_of_set k v m e : e ∈ set k v m → e = (k, v) ∨ e ∈ m.
Proof.
  induction m as [|[k0 v0] m IH]; simpl.
  - intros ->%list_elem_of_singleton. by left.
  - destruct (String.eqb k0 k).
    + intros [->|Hin]%elem_of_cons; [by left|]. right. by right.
    + intros [->|Hin]%elem_of_cons; [right; by left|].
      destruct (IH Hin) as [->|?]; [by left|]. right. by right.
Qed.

Lemma set_wf k v m : wf m → id v = k → wf (set k v m).
Proof.
  intros [Hnd Hid] Hv. split.
  - rewrite set_keys. destruct (has k m) eqn:E; [done|].
    apply has_false in E. apply NoDup_app. split_and!; [done| |apply NoDup_singleton].
    by intros k' Hk' ->%list_elem_of_singleton.
  - intros k' v' [[= -> ->]|Hin]%elem_of_set; [done|by apply Hid].
Qed.

Lemma wf_functional m k v1 v2 :
  wf m → (k, v1) ∈ m → (k, v2) ∈ m → v1 = v2.
Proof.
  intros [Hnd _]. induction m as [|[k0 v0] m IH]; simpl in *.
  - by intros ?%not_elem_of_nil.
  - apply NoDup_cons in Hnd as [Hk0 Hnd].
    assert (∀ v, (k0, v) ∈ m → False) as Hno.
    { intros v Hin. apply Hk0, list_elem_of_fmap. by exists (k0, v). }
    intros [[= -> ->]|H1]%elem_of_cons [[= <-]|H2]%elem_of_cons;
      [done|by destruct (Hno v2)|by subst; destruct (Hno v1)|by apply IH].
Qed.

Lemma add_all_wf m l : wf m → wf (foldl add m l).
Proof.
  revert m. induction l as [|s l IH]; intros m Hwf; simpl; [done|].
  apply IH. by apply set_wf.
Qed.

Lemma add_all_keys m l k :
  k ∈ (foldl add m l).*1 ↔ k ∈ m.*1 ∨ k ∈ id <$> l.
Proof.
  revert m. induction l as [|s l IH]; intros m; csimpl.
  - split; [by left|]. by intros [?|?%not_elem_of_nil].
  - rewrite IH. unfold add. rewrite elem_of_set_keys, elem_of_cons.
    naive_solver.
Qed.

Lemma of_entries_sentences prev :
  of_entries (map (λ s, (id s, s)) prev) = foldl add [] prev.
Proof.
  unfold of_entries. generalize ([] : t).
  induction prev as [|s prev IH]; intros m; simpl; [done|]. apply IH.
Qed.

Lemma legacy_step_spec m i :
  legacy_step m i = if has i m then m else m ++ [(i, placeholder i)].
Proof.
  unfold legacy_step. destruct (has i m) eqn:E; simpl; [done|].
  by apply set_fresh, has_false.
Qed.

Lemma legacy_all_wf m l : wf m → wf (foldl legacy_step m l).
Proof.
  revert m. induction l as [|i l IH]; intros m Hwf; simpl; [done|].
  apply IH. unfold legacy_step. destruct (negb _); [|done]. by apply set_wf.
Qed.

Lemma legacy_all_keeps m l e : e ∈ m → e ∈ foldl legacy_step m l.
Proof.
  revert m. induction l as [|i l IH]; intros m Hin; simpl; [done|].
  apply IH. rewrite legacy_step_spec. destruct (has i m); [done|].
  apply elem_of_app. by left.
Qed.

Lemma legacy_all_placeholder m l x :
  x ∈ l → x ∉ m.*1 → (x, placeholder x) ∈ foldl legacy_step m l.
Proof.
  revert m. induction l as [|i l IH]; intros m Hx Hfresh; simpl.
  - by apply not_elem_of_nil in Hx.
  - destruct (decide (i = x)) as [->|Hne].
    + apply legacy_all_keeps. rewrite legacy_step_spec.
      rewrite (proj2 (has_false x m) Hfresh).
      apply elem_of_app. right. by left.
    + apply elem_of_cons in Hx as [->|Hx]; [done|].
      apply IH; [done|]. rewrite legacy_step_spec.
      destruct (has i m); [done|]. rewrite fmap_app, elem_of_app.
      intros [?|?%list_elem_of_singleton]; [done|]. by simplify_eq/=.
Qed.

End JsMapFacts.

Section ReconcileFacts.
Import JsMap JsMapSpec JsMapFacts.

Lemma reconcile_unfold prev restored legacy :
  reconcile prev restored legacy
  = values (foldl legacy_step (foldl add (foldl add [] prev) restored) legacy).
Proof. unfold reconcile. by rewrite of_entries_sentences. Qed.

(** A legacy id that no sentence carries, neither a current one nor a
    restored one, gets the placeholder sentence, and nothing else has
    that id. *)
Lemma reconcile_placeholder prev restored legacy x :
  x ∈ legacy → x ∉ id <$> prev → x ∉ id <$> restored →
  let out := reconcile prev restored legacy in
  placeholder x ∈ out ∧ ∀ e, e ∈ out → id e = x → e = placeholder x.
Proof.
  intros Hx Hprev Hrest. simpl. rewrite reconcile_unfold.
  set (m := foldl add (foldl add [] prev) restored).
  assert (wf m) as Hwf.
  { apply add_all_wf, add_all_wf. split; [constructor|].
    by intros ? ? ?%not_elem_of_nil. }
  assert (x ∉ m.*1) as Hfresh.
  { unfold m. rewrite !add_all_keys. intros [[?%not_elem_of_nil|?]|?]; done. }
  pose proof (legacy_all_placeholder m legacy x Hx Hfresh) as Hin.
  pose proof (legacy_all_wf m legacy Hwf) as Hwf'.
  unfold values. split.
  - apply list_elem_of_fmap. by exists (x, placeholder x).
  - intros e ([k e'] & -> & He)%list_elem_of_fmap Hid. simpl in *.
    assert (k = x) as -> by (by rewrite <- (proj2 Hwf' k e' He)).
    by eapply wf_functional.
Qed.

End ReconcileFacts.

Section LegacyClaim.
Context `{JSONCodec}.

Lemma import_line_legacy l x b s :
  legacy_line l x b → import_line l s = Some (save_and_count true x b s).
Proof.
  intros (_ & Ht & data & Hp & Hty & Hid & Hb & Hx & Hv).
  unfold import_line, dispatch_line, typed_save. rewrite Ht, Hp; simpl.
  rewrite Hty, Hid, Hb; simpl. rewrite !truthy_string by done; simpl.
  destruct data; done.
Qed.

Lemma import_leftover_legacy l x b s :
  legacy_line l x b → import_leftover l s = Some (save_and_count true x b s).
Proof.
  intros (_ & Ht & data & Hp & Hty & Hid & Hb & Hx & Hv).
  unfold import_leftover, dispatch_leftover, typed_save. rewrite Ht, Hp; simpl.
  rewrite Hty, Hid, Hb; simpl. rewrite !truthy_string by done; simpl.
  destruct data; done.
Qed.

(** C4, as the code has it.  A stream holds a legacy record with
    non-empty [id] [x] and [base64] [b], as a complete line or as its
    unterminated last line.  The import then stores [b] under [x] and
    lists [x] as a legacy id, whatever else the stream holds; and when
    no current sentence and no sentence restored from the stream has id
    [x], reconciliation yields the placeholder sentence for [x] (fixed
    text, status [completed], no [imageUrl]) as the one sentence with
    that id. *)
Theorem C4_legacy_reconciled (pre l post x b : string) (chunks : list string)
    (db : ImageStore) (s : ImportState) (prev : list EnglishSentence) :
  legacy_line l x b →
  tail_of pre = "" →
  post = "" ∨ (∃ post', post = String newline post') →
  concat chunks = pre +:+ l +:+ post →
  importBackup chunks db = Some s →
  (∃ s0 e, s = perform e (save_and_count true x b s0))
  ∧ x ∈ legacyImageIds s
  ∧ is_Some (store s !! x)
  ∧ (x ∉ id <$> prev → x ∉ id <$> restoredSentences s →
     let out := reconcile prev (restoredSentences s) (legacyImageIds s) in
     placeholder x ∈ out
     ∧ english_text (placeholder x) = "(Restored Image - No Text Available)"
     ∧ status (placeholder x) = completed
     ∧ imageUrl (placeholder x) = None
     ∧ ∀ e, e ∈ out → id e = x → e = placeholder x).
Proof.
  intros Hl Hpre Hpost E Himp.
  assert (has_newline l = false) as Hnl by apply Hl.
  assert (∃ s0 e, s = perform e (save_and_count true x b s0)) as Hvia.
  { rewrite importBackup_text, E in Himp.
    rewrite (lines_of_app pre), (tail_of_app pre), Hpre, append_nil_l in Himp.
    rewrite import_lines_app in Himp.
    destruct (import_lines (lines_of pre) _) as [s0|]; simpl in Himp; [|done].
    exists s0. destruct Hpost as [->|[post' ->]].
    - rewrite append_nil_r, lines_of_no_newline, tail_of_id in Himp by done.
      simpl in Himp. rewrite (import_leftover_legacy _ _ _ _ Hl) in Himp.
      exists nothing. injection Himp as <-. by rewrite perform_nothing_l.
    - rewrite (lines_of_line l), (tail_of_line l) in Himp by done.
      simpl in Himp. rewrite (import_line_legacy _ _ _ _ Hl) in Himp.
      simpl in Himp.
      pose proof (stateless_bind _ _ (stateless_import_lines (lines_of post'))
                    (stateless_import_leftover (tail_of post'))
                    (save_and_count true x b s0)) as Hst.
      cbv beta in Hst.
      assert ((import_lines (lines_of post') nothing
               ≫= import_leftover (tail_of post'))
              ≫= (λ e, Some (perform e (save_and_count true x b s0)))
              = Some s) as Hvia
        by exact (eq_trans (eq_sym Hst) Himp).
      destruct (import_lines (lines_of post') nothing ≫= _) as [e|];
        simpl in Hvia; [|done].
      exists e. by injection Hvia as <-. }
  destruct Hvia as (s0 & e & ->). split; [by eauto|]. split_and!.
  - simpl. rewrite elem_of_app. left. rewrite elem_of_app. right. by left.
  - simpl. apply lookup_union_is_Some. right. unfold saveImage.
    rewrite lookup_insert_eq. by eexists.
  - intros Hprev Hrest.
    destruct (reconcile_placeholder prev
                (restoredSentences (perform e (save_and_count true x b s0)))
                (legacyImageIds (perform e (save_and_count true x b s0))) x)
      as [Hin Huniq]; [|done..|by split_and!].
    simpl. rewrite elem_of_app. left. rewrite elem_of_app. right. by left.
Qed.

End LegacyClaim.

(** ** Export, then import *)

Section RoundtripFacts.
Context `{JSONCodec}.

Lemma lines_of_records rs :
  Forall (λ r, has_newline (JSON_stringify r) = false) rs →
  lines_of (concat (map record_line rs)) = map JSON_stringify rs
  ∧ tail_of (concat (map record_line rs)) = "".
Proof.
  induction 1 as [|r rs Hr _ [IHl IHt]]; simpl; [done|].
  unfold record_line at 1 3. rewrite !append_assoc, !append_cons, !append_nil_l.
  by rewrite lines_of_line, tail_of_line, IHl, IHt.
Qed.

Lemma import_line_header created n s :
  faithful (header_record created n) →
  import_line (JSON_stringify (header_record created n)) s = Some s.
Proof.
  intros (Hp & _ & Ht). unfold import_line. by rewrite Ht, Hp.
Qed.

Lemma import_line_sentence x s :
  faithful (sentence_record x) →
  import_line (JSON_stringify (sentence_record x)) s
  = Some (push_sentence (id x) (english_text x) s).
Proof.
  intros (Hp & _ & Ht). unfold import_line. by rewrite Ht, Hp.
Qed.

(** An image record whose id or whose data is empty fails both guards of
    the line loop and is ignored. *)
Lemma import_line_image_record e s :
  faithful (image_record e) →
  import_line (JSON_stringify (image_record e)) s
  = Some (if decide (e.1 ≠ "" ∧ e.2 ≠ "") then save_and_count false e.1 e.2 s
          else s).
Proof.
  intros (Hp & _ & Ht). unfold import_line. rewrite Ht, Hp. simpl.
  unfold dispatch_line, typed_save. simpl.
  destruct e as [[|c k] [|c' v]]; simpl; done.
Qed.

Lemma import_sentence_lines xs s :
  Forall faithful (map sentence_record xs) →
  import_lines (map JSON_stringify (map sentence_record xs)) s
  = Some (foldl (λ s x, push_sentence (id x) (english_text x) s) s xs).
Proof.
  revert s. induction xs as [|x xs IH]; intros s Hf; simpl; [done|].
  apply Forall_cons in Hf as [Hx Hf].
  rewrite (import_line_sentence _ _ Hx). simpl. by apply IH.
Qed.

Lemma import_image_lines es s :
  Forall faithful (map image_record es) →
  import_lines (map JSON_stringify (map image_record es)) s
  = Some (foldl (λ s e, save_and_count false e.1 e.2 s) s
            (filter (λ e, e.1 ≠ "" ∧ e.2 ≠ "") es)).
Proof.
  revert s. induction es as [|e es IH]; intros s Hf; simpl; [done|].
  apply Forall_cons in Hf as [He Hf].
  rewrite (import_line_image_record _ _ He). simpl.
  rewrite filter_cons, IH by done.
  by destruct (decide (e.1 ≠ "" ∧ e.2 ≠ "")).
Qed.

Lemma after_sentences xs s :
  foldl (λ s x, push_sentence (id x) (english_text x) s) s xs
  = {| imageCount := imageCount s;
       restoredSentences := restoredSentences s ++ (restored <$> xs);
       legacyImageIds := legacyImageIds s;
       store := store s |}.
Proof.
  revert s. induction xs as [|x xs IH]; intros s; simpl.
  - destruct s; simpl. by rewrite app_nil_r.
  - rewrite IH. simpl. by rewrite <- (assoc_L (++)).
Qed.

Lemma after_images es s :
  foldl (λ s e, save_and_count false e.1 e.2 s) s es
  = {| imageCount := imageCount s + length es;
       restoredSentences := restoredSentences s;
       legacyImageIds := legacyImageIds s;
       store := foldl (λ m e, saveImage e.1 e.2 m) (store s) es |}.
Proof.
  revert s. induction es as [|e es IH]; intros s; simpl.
  - destruct s; simpl. by rewrite Nat.add_0_r.
  - rewrite IH. simpl. f_equal. lia.
Qed.

(** Distinct keys written one after the other: the union of the written
    entries and the store. *)
Lemma puts_union (es : list (string * string)) (m : ImageStore) :
  NoDup es.*1 →
  foldl (λ m e, saveImage e.1 e.2 m) m es = list_to_map es ∪ m.
Proof.
  revert m. induction es as [|[k v] es IH]; intros m Hnd; simpl.
  - by rewrite (left_id_L ∅ (∪)).
  - apply NoDup_cons in Hnd as [Hk Hnd]. rewrite IH by done.
    unfold saveImage. simpl.
    rewrite <- insert_union_r, insert_union_l; [done|].
    by apply not_elem_of_list_to_map_1.
Qed.

Lemma elem_of_iterateImages (db : ImageStore) k v :
  (k, v) ∈ iterateImages db ↔ db !! k = Some v.
Proof.
  unfold iterateImages. rewrite list_elem_of_omap. split.
  - intros (key & _ & Hkv). destruct (db !! key) as [w|] eqn:E; [|done].
    by injection Hkv as <- <-.
  - intros Hv. exists k. split; [apply elem_of_getAllKeys; by eexists|].
    by rewrite Hv.
Qed.

Lemma NoDup_iterateImages (db : ImageStore) : NoDup (iterateImages db).*1.
Proof. rewrite iterateImages_keys. apply NoDup_getAllKeys. Qed.

(** The image records that the import writes are the exportable
    artifacts, each once. *)
Lemma written_exportable (db : ImageStore) :
  let written := filter (λ e, e.1 ≠ "" ∧ e.2 ≠ "") (iterateImages db) in
  NoDup written.*1
  ∧ list_to_map written = exportable db
  ∧ length written = size (exportable db).
Proof.
  intros written.
  assert (NoDup written.*1) as Hnd.
  { eapply sublist_NoDup; [apply NoDup_iterateImages|].
    apply fmap_sublist, sublist_filter. }
  assert (list_to_map written = exportable db) as Hmap.
  { apply map_eq. intros k. apply option_eq. intros v.
    rewrite <- elem_of_list_to_map by done. unfold written, exportable.
    rewrite list_elem_of_filter, elem_of_iterateImages, map_lookup_filter_Some.
    simpl. naive_solver. }
  split_and!; [done..|].
  rewrite <- Hmap, <- length_map_to_list.
  apply Permutation_length. symmetry. by apply map_to_list_to_map.
Qed.

End RoundtripFacts.

Section RoundtripClaim.
Context `{FloatArith} `{JSONCodec}.

(** C1, as the code has it.  A backup that an export delivered is
    imported, whatever the reads, into any store [target], the JSON
    services being faithful on the records of the backup.  The import
    writes exactly the artifacts whose key and value are both non-empty
    and counts them; afterwards [target] holds each of them with its
    exported value; the sentences come back in order, as pending.  When
    no key and no value of the exported store is empty these are all [N]
    artifacts. *)
Theorem C1_roundtrip (env : HostEnv) (sentences : list EnglishSentence)
    (onProgress : bool) (db target : ImageStore) (text : string)
    (chunks : list string) :
  delivered (exportBackup env sentences onProgress db) = Some text →
  concat chunks = text →
  Forall faithful
    (header_record (now_iso env) (size db) :: body_records sentences db) →
  ∃ s, importBackup chunks target = Some s
       ∧ imageCount s = size (exportable db)
       ∧ restoredSentences s = restored <$> sentences
       ∧ legacyImageIds s = []
       ∧ store s = exportable db ∪ target
       ∧ (∀ k v, db !! k = Some v → k ≠ "" → v ≠ "" → store s !! k = Some v)
       ∧ ((∀ k v, db !! k = Some v → k ≠ "" ∧ v ≠ "") →
          imageCount s = size db
          ∧ ∀ k v, db !! k = Some v → store s !! k = Some v).
Proof.
  intros Hdel Hchunks Hf.
  apply exportBackup_delivered in Hdel. subst text.
  rewrite <- length_getAllKeys in Hf.
  destruct (lines_of_records
              (header_record (now_iso env) (length (getAllKeys db))
               :: body_records sentences db)) as [Hlines Htail].
  { eapply Forall_impl; [exact Hf|]. by intros r (_ & ? & _). }
  apply Forall_cons in Hf as [Hh Hb]. unfold body_records in Hb, Hlines, Htail.
  apply Forall_app in Hb as [Hs Hi].
  destruct (written_exportable db) as (Hnd & Hmap & Hlen).
  set (written := filter (λ e, e.1 ≠ "" ∧ e.2 ≠ "") (iterateImages db)) in *.
  exists {| imageCount := length written;
            restoredSentences := restored <$> sentences;
            legacyImageIds := [];
            store := exportable db ∪ target |}.
  assert (∀ k v, db !! k = Some v → k ≠ "" → v ≠ "" →
                 (exportable db ∪ target) !! k = Some v) as Hkept.
  { intros k v Hv Hk Hne. apply lookup_union_Some_l.
    by apply map_lookup_filter_Some. }
  split_and!; try done.
  - rewrite importBackup_text, Hchunks.
    change (backup_text (now_iso env) sentences db)
      with (concat (map record_line
              (header_record (now_iso env) (length (getAllKeys db))
               :: body_records sentences db))).
    unfold body_records. rewrite Hlines, Htail. simpl.
    rewrite (import_line_header _ _ _ Hh). simpl.
    rewrite !map_app, import_lines_app.
    rewrite (import_sentence_lines _ _ Hs). simpl.
    rewrite import_image_lines by done.
    simpl. fold written. rewrite after_images, after_sentences. simpl.
    by rewrite puts_union, Hmap.
  - intros Hfull.
    assert (exportable db = db) as Hid.
    { apply map_filter_id. intros k v Hv. by apply Hfull. }
    simpl. split; [by rewrite Hlen, Hid|].
    intros k v Hv. destruct (Hfull k v Hv). by apply Hkept.
Qed.

End RoundtripClaim.

(** ** The reference codec on the records of a backup *)

Module ReferenceFacts.
Import Reference.

Lemma string_body_escape_char c tail :
  string_body (escape_char c +:+ tail)
  = '(t, rest) ← string_body tail; Some (String c t, rest).
Proof. destruct c as [[] [] [] [] [] [] [] []]; reflexivity. Qed.

Lemma string_body_escape s rest :
  string_body (escape s +:+ String (chr quote) rest) = Some (s, rest).
Proof.
  induction s as [|c s IH]; [done|].
  simpl. by rewrite append_assoc, string_body_escape_char, IH.
Qed.

Lemma quoted_cons s rest :
  quoted s +:+ rest = String (chr quote) (escape s +:+ String (chr quote) rest).
Proof.
  unfold quoted, str1. by rewrite !append_cons, !append_nil_l, append_assoc.
Qed.

Lemma value_quoted fuel s rest :
  value (S fuel) (quoted s +:+ rest) = Some (JStr s, rest).
Proof. rewrite quoted_cons. simpl. by rewrite string_body_escape. Qed.

Lemma span_digits_uint d rest :
  ends_number rest = true →
  span_digits (DecimalString.NilEmpty.string_of_uint d +:+ rest)
  = (DecimalString.NilEmpty.string_of_uint d, rest).
Proof.
  intros Hrest. induction d; simpl; rewrite ?append_cons, ?IHd; try done.
  destruct rest as [|c rest]; [done|]. simpl in *.
  by destruct (is_digit c).
Qed.

Lemma continues_ends rest : ends_number rest = true → continues rest = false.
Proof.
  destruct rest as [|c rest]; [done|]. simpl.
  intros [_ ?%negb_true_iff]%andb_true_iff. done.
Qed.

(** The decimal digits of a positive number do not start with [0]. *)
Lemma to_uint_no_leading_zero p d : Pos.to_uint p ≠ Decimal.D0 d.
Proof.
  intros E.
  assert (Decimal.unorm (Pos.to_uint p) = Pos.to_uint p) as Hnorm.
  { change (Pos.to_uint p) with (N.to_uint (Npos p)) at 2.
    by rewrite <- (DecimalPos.Unsigned.of_to p), DecimalPos.Unsigned.to_of. }
  rewrite E in Hnorm. unfold Decimal.unorm in Hnorm.
  destruct (Decimal.nzhead (Decimal.D0 d)) eqn:Hz.
  - injection Hnorm as <-. by apply (DecimalPos.Unsigned.to_uint_nonzero p).
  - by apply DecimalFacts.nzhead_nonzero in Hz.
  - done.
  - done.
  - done.
  - done.
  - done.
  - done.
  - done.
  - done.
  - done.
Qed.

Lemma number_uint (negative : bool) p rest :
  ends_number rest = true →
  number ((if negative then "-" else "")
          +:+ DecimalString.NilEmpty.string_of_uint (Pos.to_uint p) +:+ rest)
  = Some (if negative then Zneg p else Zpos p, rest).
Proof.
  intros Hrest.
  assert (∀ token,
            token = DecimalString.NilEmpty.string_of_uint (Pos.to_uint p) →
            number ((if negative then "-" else "") +:+ token +:+ rest)
            = Some (if negative then Zneg p else Zpos p, rest)) as Hgen;
    [|by apply Hgen].
  intros token ->.
  pose proof (DecimalPos.Unsigned.to_uint_nonnil p) as Hnil.
  pose proof (to_uint_no_leading_zero p) as Hzero.
  pose proof (DecimalZ.of_to (Zpos p)) as Hpos.
  pose proof (DecimalZ.of_to (Zneg p)) as Hneg.
  simpl in Hpos, Hneg.
  destruct (Pos.to_uint p) as [|d|d|d|d|d|d|d|d|d|d] eqn:E;
    [done|by destruct (Hzero d)|..].
  all: destruct negative; unfold number; simpl;
    rewrite ?append_cons, ?append_nil_l; simpl;
    rewrite (span_digits_uint _ _ Hrest); simpl;
    rewrite (continues_ends _ Hrest);
    rewrite DecimalString.NilEmpty.usu; simpl;
    by rewrite ?Hpos, ?Hneg.
Qed.

Lemma number_print_Z z rest :
  ends_number rest = true → number (print_Z z +:+ rest) = Some (z, rest).
Proof.
  intros Hrest. destruct z as [|p|p].
  - change (print_Z 0) with "0". rewrite append_cons, append_nil_l.
    unfold number. simpl.
    destruct rest as [|c rest]; [done|]. simpl in *.
    apply andb_true_iff in Hrest as [Hd Hc]. apply negb_true_iff in Hd, Hc.
    rewrite Hd. simpl. by rewrite Hc.
  - apply (number_uint false p rest Hrest).
  - exact (number_uint true p rest Hrest).
Qed.

Lemma value_print_Z fuel z rest :
  ends_number rest = true →
  value (S fuel) (print_Z z +:+ rest) = Some (JNum z, rest).
Proof.
  intros Hrest. pose proof (number_print_Z z rest Hrest) as Hn.
  destruct z as [|p|p].
  - change (print_Z 0) with "0" in *. rewrite append_cons, append_nil_l in *.
    simpl. simpl in Hn. by rewrite Hn.
  - unfold print_Z in *. simpl in *.
    pose proof (DecimalPos.Unsigned.to_uint_nonnil p) as Hnil.
    destruct (Pos.to_uint p) as [|d|d|d|d|d|d|d|d|d|d]; [done|..].
    all: simpl in *; rewrite append_cons in *; simpl; by rewrite Hn.
  - unfold print_Z in *. simpl in *. rewrite append_cons in *. simpl.
    by rewrite Hn.
Qed.

Lemma closes_ends rest : closes rest = true → ends_number rest = true.
Proof.
  destruct rest as [|c rest]; [done|]. unfold closes, ends_number, continues, is_digit.
  intros [E|E]%orb_true_iff; apply Nat.eqb_eq in E; by rewrite E.
Qed.

Lemma value_scalar fuel x rest :
  scalar x = true → closes rest = true →
  value (S fuel) (stringify x +:+ rest) = Some (x, rest).
Proof.
  intros Hx Hrest. destruct x; try done.
  - by apply value_print_Z, closes_ends.
  - apply value_quoted.
Qed.

Lemma obj_set_fresh k x acc : k ∉ acc.*1 → obj_set k x acc = acc ++ [(k, x)].
Proof.
  induction acc as [|[k' x'] acc IH]; csimpl; [done|].
  rewrite not_elem_of_cons. intros [Hne Hk].
  destruct (String.eqb_spec k' k) as [->|_]; [done|]. by rewrite IH.
Qed.

Lemma members_step fuel k R acc :
  members (S fuel) (quoted k +:+ String ":" R) acc =
    '(x, rest1) ← value fuel R;
    match skip_ws rest1 with
    | String c r2 =>
        if Nat.eqb (code c) 44 then members fuel r2 (obj_set k x acc)
        else if Nat.eqb (code c) 125 then Some (obj_set k x acc, r2)
        else None
    | EmptyString => None
    end.
Proof. rewrite quoted_cons. simpl. by rewrite string_body_escape. Qed.

Lemma print_field_cons kv rest :
  print_field kv +:+ rest
  = quoted kv.1 +:+ String ":" (stringify kv.2 +:+ rest).
Proof.
  unfold print_field. by rewrite !append_assoc, append_cons, append_nil_l.
Qed.

Lemma members_flat fuel fs acc rest :
  Forall (λ kv, scalar kv.2 = true) fs → fs ≠ [] →
  NoDup (acc ++ fs).*1 → length fs < fuel →
  members fuel (commas (map print_field fs) +:+ String "}" rest) acc
  = Some (acc ++ fs, rest).
Proof.
  revert fuel acc. induction fs as [|[k x] fs IH]; intros fuel acc Hs Hne Hnd Hf; [done|].
  apply Forall_cons in Hs as [Hx Hs]. simpl in Hx.
  assert (k ∉ acc.*1) as Hk.
  { rewrite fmap_app in Hnd. apply NoDup_app in Hnd as (_ & Hdis & _).
    intros Hin. apply (Hdis k Hin). csimpl. by left. }
  destruct fuel as [|[|fuel]]; [simpl in Hf; lia..|].
  destruct fs as [|kv fs].
  - change (commas (map print_field [(k, x)])) with (print_field (k, x)).
    rewrite print_field_cons, members_step.
    rewrite value_scalar by done. simpl. by rewrite obj_set_fresh.
  - change (commas (map print_field ((k, x) :: kv :: fs)))
      with (print_field (k, x) +:+ "," +:+ commas (map print_field (kv :: fs))).
    rewrite !append_assoc, print_field_cons, members_step.
    rewrite append_cons, append_nil_l.
    rewrite value_scalar by done.
    remember (S fuel) as fuel' eqn:Hfuel. simpl. rewrite obj_set_fresh by done.
    rewrite IH; [by rewrite <- (assoc_L (++))|done|done| |simpl in *; lia].
    by rewrite <- (assoc_L (++)).
Qed.

Lemma stringify_object fs :
  stringify (JObj fs)
  = String "{" (commas (map print_field fs) +:+ String "}" "").
Proof. reflexivity. Qed.

Lemma fields_start_quoted fs rest :
  fs ≠ [] →
  ∃ T, commas (map print_field fs) +:+ rest = String (chr quote) T.
Proof.
  destruct fs as [|[k x] [|kv fs]]; [done|..]; intros _.
  - change (commas (map print_field [(k, x)])) with (print_field (k, x)).
    rewrite print_field_cons, quoted_cons. by eexists.
  - change (commas (map print_field ((k, x) :: kv :: fs)))
      with (print_field (k, x) +:+ "," +:+ commas (map print_field (kv :: fs))).
    rewrite append_assoc, print_field_cons, quoted_cons. by eexists.
Qed.

Lemma value_object fuel fs rest :
  flat fs → length fs < fuel →
  value (S fuel) (String "{" (commas (map print_field fs) +:+ String "}" rest))
  = Some (JObj fs, rest).
Proof.
  intros (Hs & Hne & Hnd) Hf.
  pose proof (members_flat fuel fs [] rest Hs Hne Hnd Hf) as Hm.
  destruct (fields_start_quoted fs (String "}" rest) Hne) as [T HT].
  rewrite HT in *.
  transitivity ('(fs', rest') ← members fuel (String (chr quote) T) [];
                Some (JObj fs', rest')); [reflexivity|].
  by rewrite Hm.
Qed.

Lemma length_append s t :
  String.length (s +:+ t) = String.length s + String.length t.
Proof. induction s as [|c s IH]; [done|]. rewrite append_cons. simpl. by rewrite IH. Qed.

Lemma length_fields fs :
  length fs ≤ String.length (commas (map print_field fs)).
Proof.
  induction fs as [|[k x] fs IH]; [done|]. destruct fs as [|kv fs].
  - change (commas (map print_field [(k, x)])) with (print_field (k, x)).
    pose proof (print_field_cons (k, x) "") as E.
    rewrite append_nil_r, quoted_cons in E. rewrite E. simpl. lia.
  - change (commas (map print_field ((k, x) :: kv :: fs)))
      with (print_field (k, x) +:+ "," +:+ commas (map print_field (kv :: fs))).
    rewrite print_field_cons, quoted_cons.
    remember (commas (map print_field (kv :: fs))) as tail.
    simpl in *. rewrite !length_append. simpl. rewrite !length_append. lia.
Qed.

Lemma parse_flat fs : flat fs → parse (stringify (JObj fs)) = Some (JObj fs).
Proof.
  intros Hflat. unfold parse. rewrite stringify_object.
  replace (2 * String.length _ + 2)
    with (S (2 * String.length
               (String "{" (commas (map print_field fs) +:+ String "}" "")) + 1))
    by lia.
  rewrite value_object; [done..|].
  pose proof (length_fields fs). simpl. rewrite length_append. lia.
Qed.

Lemma has_newline_append s t :
  has_newline (s +:+ t) = has_newline s || has_newline t.
Proof.
  induction s as [|c s IH]; [done|]. rewrite append_cons. simpl.
  by rewrite IH, orb_assoc.
Qed.

Lemma has_newline_escape s : has_newline (escape s) = false.
Proof.
  induction s as [|c s IH]; [done|]. simpl. rewrite has_newline_append, IH.
  by destruct c as [[] [] [] [] [] [] [] []].
Qed.

Lemma has_newline_quoted s : has_newline (quoted s) = false.
Proof.
  unfold quoted. by rewrite !has_newline_append, has_newline_escape.
Qed.

Lemma has_newline_uint d :
  has_newline (DecimalString.NilEmpty.string_of_uint d) = false.
Proof. induction d; simpl; by rewrite ?IHd. Qed.

Lemma has_newline_print_Z z : has_newline (print_Z z) = false.
Proof.
  destruct z; unfold print_Z; simpl; try done; by rewrite has_newline_uint.
Qed.

Lemma has_newline_scalar x : scalar x = true → has_newline (stringify x) = false.
Proof.
  destruct x; try done; intros _;
    [apply has_newline_print_Z|apply has_newline_quoted].
Qed.

Lemma has_newline_fields fs :
  Forall (λ kv, scalar kv.2 = true) fs →
  has_newline (commas (map print_field fs)) = false.
Proof.
  induction 1 as [|[k x] fs Hx _ IH]; [done|].
  assert (has_newline (print_field (k, x)) = false) as Hf.
  { unfold print_field.
    by rewrite !has_newline_append, has_newline_quoted, has_newline_scalar. }
  destruct fs as [|kv fs]; [done|].
  change (commas (map print_field ((k, x) :: kv :: fs)))
    with (print_field (k, x) +:+ "," +:+ commas (map print_field (kv :: fs))).
  by rewrite !has_newline_append, Hf, IH.
Qed.

Lemma trim_not_blank c s :
  is_ws c = false → JsString.truthy (trim (String c s)) = true.
Proof.
  intros Hc. unfold trim. simpl. rewrite Hc. simpl.
  destruct (trimEnd s); by rewrite ?Hc.
Qed.

(** The reference codec is faithful on every flat object. *)
Lemma flat_faithful fs : flat fs → @faithful codec (JObj fs).
Proof.
  intros Hflat. split_and!.
  - by apply parse_flat.
  - change (has_newline (stringify (JObj fs)) = false).
    rewrite stringify_object.
    change (has_newline (commas (map print_field fs) +:+ String "}" "") = false).
    rewrite has_newline_append, has_newline_fields; [done|apply Hflat].
  - change (JsString.truthy (trim (stringify (JObj fs))) = true).
    rewrite stringify_object. by apply trim_not_blank.
Qed.

Lemma flat_intro fs :
  forallb (λ kv, scalar kv.2) fs = true → fs ≠ [] → NoDup fs.*1 → flat fs.
Proof.
  intros Hs Hne Hnd. split_and!; [|done..].
  apply Forall_forall. intros kv Hin.
  rewrite forallb_forall in Hs. by apply Hs, list_elem_of_In.
Qed.

(** Hence on every record an export writes. *)
Lemma header_faithful created n : @faithful codec (header_record created n).
Proof.
  apply flat_faithful, flat_intro; [done..|]. csimpl.
  repeat (apply NoDup_cons_2;
            [rewrite ?elem_of_cons, elem_of_nil; by intros [?|[?|[?|?]]]
            || by intros [?|[?|?]] || by intros [?|?] || by intros ?|]).
  apply NoDup_nil_2.
Qed.

Lemma sentence_faithful x : @faithful codec (sentence_record x).
Proof.
  apply flat_faithful, flat_intro; [done..|]. csimpl.
  repeat (apply NoDup_cons_2;
            [rewrite ?elem_of_cons, elem_of_nil; by intros [?|[?|[?|?]]]
            || by intros [?|[?|?]] || by intros [?|?] || by intros ?|]).
  apply NoDup_nil_2.
Qed.

Lemma image_faithful e : @faithful codec (image_record e).
Proof.
  apply flat_faithful, flat_intro; [done..|]. csimpl.
  repeat (apply NoDup_cons_2;
            [rewrite ?elem_of_cons, elem_of_nil; by intros [?|[?|[?|?]]]
            || by intros [?|[?|?]] || by intros [?|?] || by intros ?|]).
  apply NoDup_nil_2.
Qed.

Lemma export_faithful created sentences (db : ImageStore) :
  Forall (@faithful codec)
    (header_record created (size db) :: body_records sentences db).
Proof.
  constructor; [apply header_faithful|]. unfold body_records.
  apply Forall_app. split; apply Forall_forall; intros r Hr;
    apply list_elem_of_In, in_map_iff in Hr as (y & <- & _);
    [apply sentence_faithful|apply image_faithful].
Qed.
End ReferenceFacts.

(** ** The Image Store, operation by operation *)

Section StoreOperations.
Implicit Types (db : ImageStore) (k v : string).

(** The key list is determined by the set of keys. *)
Lemma getAllKeys_ext db db' :
  (∀ k, is_Some (db !! k) ↔ is_Some (db' !! k)) →
  getAllKeys db = getAllKeys db'.
Proof.
  intros Hsame. apply (Sorted_unique String.le); [apply getAllKeys_sorted..|].
  apply NoDup_Permutation; [apply NoDup_getAllKeys..|].
  intros k. by rewrite !elem_of_getAllKeys.
Qed.

(** [saveImage] then [getImage] on the same key gives the value back,
    unless it is the empty string, which reads as [null]; the other keys
    read as before; the last write to a key wins; the key is listed by
    [getAllKeys] afterwards, and the list is unchanged when the key was
    there already and one longer when it was not. *)
Theorem saveImage_then_getImage db k v :
  getImage k (saveImage k v db) = (if JsString.truthy v then Some v else None)
  ∧ (∀ k', k' ≠ k → getImage k' (saveImage k v db) = getImage k' db)
  ∧ (∀ v0, saveImage k v (saveImage k v0 db) = saveImage k v db)
  ∧ k ∈ getAllKeys (saveImage k v db)
  ∧ (is_Some (db !! k) → getAllKeys (saveImage k v db) = getAllKeys db)
  ∧ (db !! k = None →
     getAllKeys (saveImage k v db) ≡ₚ k :: getAllKeys db).
Proof.
  unfold getImage, saveImage. split_and!.
  - by rewrite lookup_insert_eq.
  - intros k' Hne. by rewrite lookup_insert_ne.
  - intros v0. apply insert_insert_eq.
  - apply elem_of_getAllKeys. rewrite lookup_insert_eq. by eexists.
  - intros Hk. apply getAllKeys_ext. intros k'.
    rewrite lookup_insert_is_Some. destruct (decide (k = k')); naive_solver.
  - intros Hk. apply NoDup_Permutation.
    + apply NoDup_getAllKeys.
    + apply NoDup_cons. split; [|apply NoDup_getAllKeys].
      rewrite elem_of_getAllKeys, Hk. by intros [? ?].
    + intros k'. rewrite elem_of_cons, !elem_of_getAllKeys.
      rewrite lookup_insert_is_Some. destruct (decide (k = k')); naive_solver.
Qed.

(** After [deleteImage] the key reads as [null] and is no longer listed;
    the other keys read and are listed as before; deleting a key that is
    not there changes nothing, and deleting a key just written to a store
    that did not have it gives that store back. *)
Theorem deleteImage_forgets db k :
  getImage k (deleteImage k db) = None
  ∧ (k ∉ getAllKeys (deleteImage k db))
  ∧ (∀ k', k' ≠ k →
       getImage k' (deleteImage k db) = getImage k' db
       ∧ (k' ∈ getAllKeys (deleteImage k db) ↔ k' ∈ getAllKeys db))
  ∧ (db !! k = None → deleteImage k db = db)
  ∧ (db !! k = None → ∀ v, deleteImage k (saveImage k v db) = db).
Proof.
  unfold getImage, saveImage, deleteImage. split_and!.
  - by rewrite lookup_delete_eq.
  - rewrite elem_of_getAllKeys, lookup_delete_eq. by intros [? ?].
  - intros k' Hne. rewrite !elem_of_getAllKeys, lookup_delete_ne by done.
    done.
  - apply delete_id.
  - intros Hk v. by rewrite delete_insert_eq, delete_id.
Qed.

Lemma elem_of_cursor db k v : (k, v) ∈ cursor db ↔ db !! k = Some v.
Proof.
  unfold cursor. rewrite list_elem_of_omap. split.
  - intros (key & _ & Hv). destruct (db !! key) eqn:E; by simplify_eq/=.
  - intros Hv. exists k. rewrite Hv. split; [|done].
    apply elem_of_getAllKeys. by eexists.
Qed.

Lemma NoDup_cursor db : NoDup (cursor db).*1.
Proof.
  unfold cursor.
  assert (∀ keys, NoDup keys →
            NoDup (omap (λ key, (λ value, (key, value)) <$> db !! key) keys).*1)
    as Hgen.
  { induction keys as [|k keys IH]; intros Hnd; [constructor|].
    apply NoDup_cons in Hnd as [Hk Hnd]. simpl.
    destruct (db !! k); csimpl; [|by apply IH].
    apply NoDup_cons. split; [|by apply IH].
    rewrite list_elem_of_fmap. intros ([k' v'] & -> & Hin).
    apply list_elem_of_omap in Hin as (key & Hkey & Hv).
    destruct (db !! key); by simplify_eq/=. }
  apply Hgen, NoDup_getAllKeys.
Qed.

Lemma assign_all (es : list (string * string)) (m : gmap string string) :
  foldl (λ results e, assign e.1 e.2 results) m es
  = foldl (λ m e, saveImage e.1 e.2 m) m (filter (λ e, e.1 ≠ "__proto__") es).
Proof.
  revert m. induction es as [|[k v] es IH]; intros m; simpl; [done|].
  rewrite filter_cons, IH. unfold assign. simpl.
  destruct (String.eqb_spec k "__proto__") as [->|Hne].
  - by rewrite decide_False by (by intros ?).
  - by rewrite decide_True.
Qed.

(** [getAllImages] resolves with the whole store, empty artifacts
    included, but for the key [__proto__], which the object it builds
    cannot hold. *)
Theorem getAllImages_whole_store db :
  getAllImages db = delete "__proto__" db
  ∧ (db !! "__proto__" = None → getAllImages db = db)
  ∧ (∀ k, k ≠ "__proto__" → getAllImages db !! k = db !! k)
  ∧ (∀ k v, getImage k db = Some v → k ≠ "__proto__" →
            getAllImages db !! k = Some v).
Proof.
  assert (getAllImages db = delete "__proto__" db) as Hall.
  { unfold getAllImages. rewrite assign_all, puts_union.
    - rewrite (right_id_L ∅ (∪)). apply map_eq. intros k. apply option_eq.
      intros v. rewrite <- elem_of_list_to_map.
      + rewrite list_elem_of_filter, elem_of_cursor. simpl.
        rewrite lookup_delete_Some. naive_solver.
      + eapply sublist_NoDup; [apply NoDup_cursor|].
        apply fmap_sublist, sublist_filter.
    - eapply sublist_NoDup; [apply NoDup_cursor|].
      apply fmap_sublist, sublist_filter. }
  rewrite Hall. split_and!; [done|apply delete_id| |].
  - intros k Hk. by rewrite lookup_delete_ne.
  - intros k v [Hv _]%getImage_Some Hk. by rewrite lookup_delete_ne.
Qed.

End StoreOperations.

(** ** importBackup: what every import keeps *)

Section ImportInvariants.
Context `{JSONCodec}.

Lemma typed_sentence_step data s s' :
  typed_sentence data s = Some s' → record_step s s'.
Proof.
  unfold typed_sentence.
  destruct (Js.as_string (Js.prop data "id")) as [i|]; simpl; [|done].
  destruct (Js.as_string (Js.prop data "text")) as [t|]; simpl; [|done].
  intros [= <-]. constructor.
Qed.

Lemma typed_save_step legacy data s s' :
  Js.truthy (Js.prop data "id") && Js.truthy (Js.prop data "base64") = true →
  typed_save legacy data s = Some s' → record_step s s'.
Proof.
  unfold typed_save. intros [Hi Hb]%andb_true_iff.
  destruct (Js.prop data "id") as [[| | |i| |]|]; simpl; try done.
  destruct (Js.prop data "base64") as [[| | |b| |]|]; simpl; try done.
  intros [= <-]. constructor; by intros ->.
Qed.

Lemma dispatch_line_step data s s' :
  dispatch_line data s = Some s' → record_step s s'.
Proof.
  unfold dispatch_line.
  destruct data; try (intros [= <-]; constructor).
  all: repeat match goal with
         | |- context [if ?b then _ else _] => destruct b eqn:?
         end;
    first [apply typed_sentence_step | by apply typed_save_step
          | intros [= <-]; constructor].
Qed.

Lemma dispatch_leftover_step data s s' :
  dispatch_leftover data s = Some s' → record_step s s'.
Proof.
  unfold dispatch_leftover.
  destruct data; try (intros [= <-]; constructor).
  all: repeat match goal with
         | |- context [if ?b then _ else _] => destruct b eqn:?
         end;
    first [apply typed_sentence_step | by apply typed_save_step
          | intros [= <-]; constructor].
Qed.

Lemma import_line_step l s s' : import_line l s = Some s' → record_step s s'.
Proof.
  unfold import_line. destruct (negb _); [intros [= <-]; constructor|].
  destruct (JSON_parse l); [apply dispatch_line_step|intros [= <-]; constructor].
Qed.

Lemma import_leftover_step l s s' :
  import_leftover l s = Some s' → record_step s s'.
Proof.
  unfold import_leftover.
  destruct (JsString.truthy _); [|intros [= <-]; constructor].
  destruct (JSON_parse l); [apply dispatch_leftover_step|intros [= <-]; constructor].
Qed.

Lemma import_invariant_start db : import_invariant db (import_start db).
Proof.
  split; simpl; try done; [by left|lia|by intros ? ?%not_elem_of_nil].
Qed.

Lemma import_invariant_step db s s' :
  record_step s s' → import_invariant db s → import_invariant db s'.
Proof.
  intros Hstep [Hkeeps Hwritten Hsize Hcount Hstored Hpending].
  destruct Hstep as [s|i t s|legacy i b s Hi Hb]; [done|split; simpl..].
  - done.
  - done.
  - done.
  - done.
  - done.
  - apply Forall_app. split; [done|]. by repeat constructor.
  - intros k Hk. unfold saveImage. rewrite lookup_insert_is_Some'. right.
    by apply Hkeeps.
  - intros k v. unfold saveImage.
    intros [[<- <-]|[_ Hv]]%lookup_insert_Some; [by right|by apply Hwritten].
  - unfold saveImage. destruct (store s !! i) eqn:E.
    + rewrite map_size_insert_Some by done. lia.
    + rewrite map_size_insert_None by done. lia.
  - destruct legacy; [rewrite length_app; simpl|]; lia.
  - intros k Hk. unfold saveImage. rewrite lookup_insert_is_Some'.
    destruct legacy; [|right; by apply Hstored].
    apply elem_of_app in Hk as [Hk|Hk%list_elem_of_singleton];
      [right; by apply Hstored|by left].
  - done.
Qed.

Lemma import_invariant_lines db lines s s' :
  import_lines lines s = Some s' → import_invariant db s →
  import_invariant db s'.
Proof.
  revert s. induction lines as [|l lines IH]; intros s; simpl.
  - by intros [= <-].
  - destruct (import_line l s) as [s1|] eqn:E; simpl; [|done].
    intros Hrest Hs. apply (IH s1 Hrest).
    apply (import_invariant_step db s); [|done]. by apply import_line_step with l.
Qed.

(** The result of an import is that of reading the whole text at once:
    where the reads cut the stream does not matter. *)
Theorem importBackup_whatever_the_reads (chunks : list string)
    (db : ImageStore) :
  importBackup chunks db = importBackup [concat chunks] db.
Proof. apply importBackup_chunking. simpl. by rewrite append_nil_r. Qed.

(** An import only adds to the store.  Every key that was there is still
    there; a value that changed or appeared is a non-empty artifact under
    a non-empty key; the store grew by at most the number of images
    counted; every legacy id was counted and is a key of the store; every
    restored sentence is pending and has no image URL.  The counters and
    the sentences do not depend on the store the import started from. *)
Theorem importBackup_only_adds (chunks : list string) (db : ImageStore)
    (s : ImportState) :
  importBackup chunks db = Some s →
  import_invariant db s
  ∧ ∃ e, importBackup chunks ∅ = Some e
         ∧ imageCount s = imageCount e
         ∧ restoredSentences s = restoredSentences e
         ∧ legacyImageIds s = legacyImageIds e
         ∧ store s = store e ∪ db.
Proof.
  intros Himp. split.
  - rewrite importBackup_text in Himp.
    destruct (import_lines _ _) as [s1|] eqn:E; simpl in Himp; [|done].
    apply (import_invariant_step db s1); [by apply import_leftover_step in Himp|].
    by apply (import_invariant_lines db _ _ _ E), import_invariant_start.
  - rewrite importBackup_perform in Himp.
    destruct (importBackup chunks ∅) as [e|]; simpl in Himp; [|done].
    exists e. by injection Himp as <-.
Qed.

(** A blank line, and a line whose record is neither a sentence nor an
    image with its two fields (the header of a backup is one), change
    nothing, as a complete line and as the unterminated last line. *)
Theorem import_line_ignored (l : string) (s : ImportState) :
  JsString.truthy (trim l) = false
  ∨ (∃ data, JSON_parse l = Some data ∧ unrelated data = true) →
  import_line l s = Some s ∧ import_leftover l s = Some s.
Proof.
  unfold import_line, import_leftover.
  intros [->|(data & -> & [Hty Himg]%andb_true_iff)]; [done|].
  destruct (JsString.truthy (trim l)); simpl; [|done].
  apply negb_true_iff in Hty, Himg.
  unfold dispatch_line, dispatch_leftover. rewrite Hty, Himg.
  destruct data; try done.
  all: by destruct (Js.is_str _ "image").
Qed.

End ImportInvariants.

(** ** exportBackup: which path delivers *)

Section ExportDelivery.
Context `{FloatArith} `{JSONCodec}.

(** The export never delivers both a saved file and a download.  When a
    File System Access call rejects with an [AbortError] nothing is
    delivered at all; when it rejects otherwise, the whole backup is
    delivered as a download; when no call rejects, the whole backup is
    the saved file, or the download where the API is missing. *)
Theorem exportBackup_delivery (env : HostEnv)
    (sentences : list EnglishSentence) (onProgress : bool) (db : ImageStore) :
  let r := exportBackup env sentences onProgress db in
  let text := backup_text (now_iso env) sentences db in
  (saved_file r = None ∨ download r = None)
  ∧ match fault_met env (length (body_records sentences db)) with
    | Some true => saved_file r = None ∧ download r = None
    | Some false => saved_file r = None ∧ download r = Some text
    | None =>
        if supportsFileSystemAccess env
        then saved_file r = Some text ∧ download r = None
        else saved_file r = None ∧ download r = Some text
    end.
Proof.
  unfold exportBackup, fault_met, backup_text.
  destruct (supportsFileSystemAccess env).
  - destruct (fs_fault env) as [[call abort]|].
    + destruct (Nat.leb call _).
      * destruct (count_records _ _ (take _ _) 0) as [p reps].
        destruct abort; [by split; [left|]|].
        destruct (count_records _ _ _ p). simpl. by split; [left|].
      * destruct (count_records _ _ _ 0). simpl. by split; [right|].
    + destruct (count_records _ _ _ 0). simpl. by split; [right|].
  - destruct (count_records _ _ _ 0). simpl. by split; [left|].
Qed.

(** After a rejection that is not an [AbortError] the download path
    starts over from the first record, but the counter of the progress
    reports does not: with [w] records written before the rejection, the
    reports are those for the counter values [1 .. w] and then those for
    [w + 1 .. w + n], [n] being the number of records. *)
Theorem exportBackup_fallback_progress (env : HostEnv)
    (sentences : list EnglishSentence) (onProgress : bool) (db : ImageStore)
    (call : nat) :
  supportsFileSystemAccess env = true →
  fs_fault env = Some (call, false) →
  call ≤ 3 + length (body_records sentences db) →
  let n := length (body_records sentences db) in
  let totalItems := length sentences + size db in
  let w := call - 3 in
  progress (exportBackup env sentences onProgress db)
  = mjoin (reportProgress onProgress totalItems <$> seq 1 w)
    ++ mjoin (reportProgress onProgress totalItems <$> seq (S w) n).
Proof.
  intros Hsup Hfault Hcall. unfold exportBackup. rewrite Hsup, Hfault.
  rewrite (proj2 (Nat.leb_le _ _) Hcall).
  rewrite !count_records_reports. simpl.
  rewrite length_take, length_getAllKeys.
  by rewrite Nat.min_l by lia.
Qed.

End ExportDelivery.

(** ** Snapshot files: export, then import *)

Section SqliteRoundtrip.
Context `{FloatArith} `{SqlJs}.
Implicit Types (db target : ImageStore) (rows : Table).

(** Rows saved one after the other: the last row of a key wins. *)
Lemma puts_last_wins rows target :
  foldl (λ st row, saveImage row.1 row.2 st) target rows
  = list_to_map (reverse rows) ∪ target.
Proof.
  induction rows as [|[k v] rows IH] using rev_ind; simpl.
  - by rewrite (left_id_L ∅ (∪)).
  - rewrite foldl_app, reverse_app, IH. simpl. unfold saveImage.
    by rewrite insert_union_l.
Qed.

Lemma select_images_single rows : select_images [("images", rows)] = rows.
Proof. reflexivity. Qed.

Lemma import_table {laws : SqlJsLaws} rows target :
  importFromSQLite (SQL_export [("images", rows)]) target
  = inr (length rows, foldl (λ st row, saveImage row.1 row.2 st) target rows).
Proof.
  pose proof (open_export [("images", rows)]) as Hopen.
  unfold SQL_open in Hopen. unfold importFromSQLite, save_rows.
  destruct (SQL_read (SQL_export [("images", rows)])) as [?|d]; [done|].
  injection Hopen as ->.
  unfold images_tables. rewrite fmap_cons, filter_cons, decide_True by done.
  simpl. by rewrite import_rows_fold.
Qed.

Lemma importAll_tables {laws : SqlJsLaws} (tables : list Table) target :
  importAll ((λ rows, SQL_export [("images", rows)]) <$> tables) target
  = inr (length (mjoin tables),
         foldl (λ st row, saveImage row.1 row.2 st) target (mjoin tables)).
Proof.
  revert target. induction tables as [|rows tables IH]; intros target; [done|].
  rewrite fmap_cons. simpl. rewrite import_table, IH.
  change (mjoin (rows :: tables)) with (rows ++ mjoin tables).
  by rewrite length_app, foldl_app.
Qed.

Lemma rows_of_app db keys keys' :
  rows_of db (keys ++ keys') = rows_of db keys ++ rows_of db keys'.
Proof. apply omap_app. Qed.

Lemma rows_of_join db (bs : list (list string)) :
  mjoin (rows_of db <$> bs) = rows_of db (mjoin bs).
Proof.
  induction bs as [|b bs IH]; [done|].
  rewrite fmap_cons.
  change (mjoin (?x :: ?xs)) with (x ++ mjoin xs).
  by rewrite IH, rows_of_app.
Qed.

Lemma rows_of_all_visible db :
  NoDup (rows_of db (getAllKeys db)).*1
  ∧ list_to_map (rows_of db (getAllKeys db)) = visible db.
Proof.
  assert (∀ keys, NoDup keys → NoDup (rows_of db keys).*1) as Hgen.
  { induction keys as [|k keys IH]; intros Hnd; [constructor|].
    apply NoDup_cons in Hnd as [Hk Hnd]. simpl.
    destruct (getImage k db); csimpl; [|by apply IH].
    apply NoDup_cons. split; [|by apply IH].
    by intros ?%rows_of_fst_subset. }
  assert (NoDup (rows_of db (getAllKeys db)).*1) as Hnd
    by apply Hgen, NoDup_getAllKeys.
  split; [done|]. apply map_eq. intros k. apply option_eq. intros v.
  rewrite <- elem_of_list_to_map by done. unfold visible.
  rewrite elem_of_rows_of, elem_of_getAllKeys, map_lookup_filter_Some.
  simpl. naive_solver.
Qed.

(** The snapshot files of a store, imported in any order into any store
    [target], put there every artifact that is not empty, with its
    value, and leave the rest of [target] as it was; the rows counted are
    as many as those artifacts. *)
Theorem sqlite_export_then_import {laws : SqlJsLaws} (onProgress : bool)
    db target :
  ∃ chunks reports,
    exportToSQLiteChunks onProgress db = Some (chunks, reports)
    ∧ ∀ files, files ≡ₚ chunks →
        importAll files target = inr (size (visible db), visible db ∪ target).
Proof.
  eexists _, _. split.
  { unfold exportToSQLiteChunks.
    rewrite exportToSQLiteDatabases_batches. simpl.
    by rewrite <- list_fmap_compose. }
  intros files Hperm.
  apply Permutation_map_inv in Hperm as (bs & Hfiles & Hbs).
  assert (files = (λ rows, SQL_export [("images", rows)]) <$> (rows_of db <$> bs))
    as ->.
  { rewrite Hfiles, <- list_fmap_compose. clear. by induction bs. }
  rewrite importAll_tables.
  destruct (rows_of_all_visible db) as [Hnd Hmap].
  assert (mjoin (rows_of db <$> bs) ≡ₚ rows_of db (getAllKeys db)) as Hrows.
  { rewrite <- Hbs, rows_of_join. unfold key_batches.
    by rewrite batches_concat. }
  assert (NoDup (mjoin (rows_of db <$> bs)).*1) as Hnd'
    by (by rewrite Hrows).
  rewrite puts_union by done.
  rewrite (list_to_map_proper _ _ Hnd' Hrows), Hmap.
  do 2 f_equal. rewrite Hrows, <- Hmap, <- length_map_to_list.
  apply Permutation_length. symmetry. by apply map_to_list_to_map.
Qed.

(** A second import of the same file changes nothing: it leaves the
    store the first import left and counts the same rows. *)
Theorem importFromSQLite_twice (fileBuffer : Buffer) db db1 (count : nat) :
  importFromSQLite fileBuffer db = inr (count, db1) →
  importFromSQLite fileBuffer db1 = inr (count, db1).
Proof.
  unfold importFromSQLite, save_rows.
  destruct (SQL_read fileBuffer) as [[| |?]|d]; [done..|].
  destruct (Nat.eqb _ 0); [done|].
  rewrite !import_rows_fold. intros [= <- <-]. do 2 f_equal.
  rewrite !puts_last_wins.
  by rewrite (assoc_L (∪)), (idemp_L (∪)).
Qed.

End SqliteRoundtrip.

(** ** Reconciliation: the list it returns *)

Section ReconcileInvariants.
Import JsMap JsMapSpec JsMapFacts.

Lemma wf_nil : wf [].
Proof. split; [constructor|]. by intros ? ? ?%not_elem_of_nil. Qed.

Lemma wf_values_ids m : wf m → id <$> values m = m.*1.
Proof.
  intros [_ Hid]. unfold values. induction m as [|[k v] m IH]; [done|].
  csimpl. rewrite (Hid k v) by left. f_equal. apply IH.
  intros k' v' Hin. apply Hid. by right.
Qed.

Lemma elem_of_set_same k v m : (k, v) ∈ set k v m.
Proof.
  induction m as [|[k' v'] m IH]; simpl; [by left|].
  destruct (String.eqb k' k); [by left|by right].
Qed.

Lemma elem_of_set_other k v m e : e.1 ≠ k → e ∈ m → e ∈ set k v m.
Proof.
  intros Hne. induction m as [|[k' v'] m IH]; simpl;
    [by intros ?%not_elem_of_nil|].
  destruct (String.eqb_spec k' k) as [->|_].
  - intros [->|Hin]%elem_of_cons; [done|by right].
  - intros [->|Hin]%elem_of_cons; [by left|right; by apply IH].
Qed.

Lemma add_all_keeps m l e : e.1 ∉ id <$> l → e ∈ m → e ∈ foldl add m l.
Proof.
  revert m. induction l as [|s l IH]; intros m Hfresh Hin; simpl; [done|].
  rewrite fmap_cons, not_elem_of_cons in Hfresh. destruct Hfresh as [Hne Hfresh].
  apply IH; [done|]. by apply elem_of_set_other.
Qed.

Lemma add_all_elem m l e : e ∈ foldl add m l → e ∈ m ∨ e.2 ∈ l.
Proof.
  revert m. induction l as [|s l IH]; intros m; simpl; [by left|].
  intros [[->|Hin]%elem_of_set|Hin]%IH; [right; by left|by left|].
  right. by right.
Qed.

(** The last sentence added under an id is the one the map holds. *)
Lemma add_all_last m l s :
  s ∈ l → (∀ s', s' ∈ l → id s' = id s → s' = s) → (id s, s) ∈ foldl add m l.
Proof.
  revert m. induction l as [|a l IH]; intros m Hin Huniq; simpl.
  - by apply not_elem_of_nil in Hin.
  - destruct (decide (id s ∈ id <$> l)) as [Hl|Hl].
    + apply list_elem_of_fmap in Hl as (s' & Hid & Hs').
      assert (s' = s) as -> by (apply Huniq; [by right|done]).
      apply IH; [done|]. intros s' Hs''. apply Huniq. by right.
    + apply elem_of_cons in Hin as [->|Hin].
      * apply add_all_keeps; [done|apply elem_of_set_same].
      * destruct Hl. apply list_elem_of_fmap. by exists s.
Qed.

(** Whatever was added before it, and whatever is added under other ids
    after it. *)
Lemma add_all_last_of m pre s post :
  id s ∉ id <$> post → (id s, s) ∈ foldl add m (pre ++ s :: post).
Proof.
  intros Hpost. rewrite foldl_app. simpl.
  apply add_all_keeps; [done|]. apply elem_of_set_same.
Qed.

Lemma legacy_all_keys m l k :
  k ∈ (foldl legacy_step m l).*1 ↔ k ∈ m.*1 ∨ k ∈ l.
Proof.
  revert m. induction l as [|i l IH]; intros m; simpl.
  - split; [by left|]. by intros [?|?%not_elem_of_nil].
  - rewrite IH, legacy_step_spec, elem_of_cons. destruct (has i m) eqn:E.
    + apply has_true in E. naive_solver.
    + rewrite fmap_app, elem_of_app. simpl. rewrite list_elem_of_singleton.
      naive_solver.
Qed.

Lemma legacy_all_elem m l e :
  e ∈ foldl legacy_step m l → e ∈ m ∨ (e.1 ∈ l ∧ e.2 = placeholder e.1).
Proof.
  revert m. induction l as [|i l IH]; intros m; simpl; [by left|].
  intros [Hin|[Hin Hp]]%IH; [|right; split; [by right|done]].
  rewrite legacy_step_spec in Hin. destruct (has i m); [by left|].
  apply elem_of_app in Hin as [?|Hin%list_elem_of_singleton]; [by left|].
  subst e. right. split; [by left|done].
Qed.

Lemma add_all_distinct l :
  NoDup (id <$> l) → ∀ m, (∀ s, s ∈ l → id s ∉ m.*1) →
  foldl add m l = m ++ ((λ s, (id s, s)) <$> l).
Proof.
  induction l as [|s l IH]; intros Hnd m Hfresh; simpl.
  - by rewrite app_nil_r.
  - rewrite fmap_cons in Hnd. apply NoDup_cons in Hnd as [Hs Hnd].
    unfold add at 2. rewrite set_fresh by (apply Hfresh; left).
    rewrite IH; [by rewrite <- (assoc_L (++))|done|].
    intros s' Hs'. rewrite fmap_app, elem_of_app. simpl.
    rewrite list_elem_of_singleton. intros [Hin|Heq].
    + by apply (Hfresh s'); [right|].
    + apply Hs. rewrite <- Heq. apply list_elem_of_fmap. by exists s'.
Qed.

(** The list that [handleBackupImport] sets has no two sentences with the
    same id.  Its ids are those of the current sentences, of the restored
    sentences and of the legacy images; each of its sentences is a
    current one, a restored one, or the placeholder of a legacy id.  A
    restored sentence replaces the current one of the same id.  Of the
    sentences restored under one id the last is the one in the list,
    whatever precedes it; of the current sentences of an id that no
    restored sentence carries, the last is.  With nothing to restore, a
    list of distinct ids stays as it is, and sentences of distinct ids
    restored into an empty list come back as they are. *)
Theorem reconcile_result (prev restored : list EnglishSentence)
    (legacy : list string) :
  let out := reconcile prev restored legacy in
  NoDup (id <$> out)
  ∧ (∀ i, i ∈ id <$> out ↔
          i ∈ id <$> prev ∨ i ∈ id <$> restored ∨ i ∈ legacy)
  ∧ (∀ e, e ∈ out →
          e ∈ prev ∨ e ∈ restored ∨ (id e ∈ legacy ∧ e = placeholder (id e)))
  ∧ (∀ s, s ∈ restored →
          (∀ s', s' ∈ restored → id s' = id s → s' = s) → s ∈ out)
  ∧ (∀ s, s ∈ prev → id s ∉ id <$> restored →
          (∀ s', s' ∈ prev → id s' = id s → s' = s) → s ∈ out)
  ∧ (∀ pre s post, restored = pre ++ s :: post → id s ∉ id <$> post →
          s ∈ out ∧ ∀ e, e ∈ out → id e = id s → e = s)
  ∧ (∀ pre s post, prev = pre ++ s :: post → id s ∉ id <$> post →
          id s ∉ id <$> restored →
          s ∈ out ∧ ∀ e, e ∈ out → id e = id s → e = s)
  ∧ (NoDup (id <$> prev) → reconcile prev [] [] = prev)
  ∧ (NoDup (id <$> restored) → reconcile [] restored [] = restored).
Proof.
  simpl. rewrite !reconcile_unfold.
  set (m1 := foldl add [] prev). set (m2 := foldl add m1 restored).
  set (m := foldl legacy_step m2 legacy).
  assert (wf m1) as Hwf1 by apply add_all_wf, wf_nil.
  assert (wf m2) as Hwf2 by (by apply add_all_wf).
  assert (wf m) as Hwf by (by apply legacy_all_wf).
  assert (∀ s, (id s, s) ∈ m →
            s ∈ values m ∧ ∀ e, e ∈ values m → id e = id s → e = s) as Hone.
  { intros s Hs. split; [apply list_elem_of_fmap; by exists (id s, s)|].
    intros e ([k e'] & -> & Hin)%list_elem_of_fmap Hid. simpl in *.
    assert (id e' = k) as <- by (by apply Hwf).
    rewrite Hid in Hin. by apply (wf_functional m (id s)). }
  split_and!.
  - rewrite wf_values_ids by done. apply Hwf.
  - intros i. rewrite wf_values_ids by done. unfold m, m2, m1.
    rewrite legacy_all_keys, !add_all_keys.
    split; [intros [[[?%not_elem_of_nil|?]|?]|?]|]; naive_solver.
  - intros e ([k e'] & -> & Hin)%list_elem_of_fmap. simpl.
    assert (id e' = k) as <- by (by apply Hwf).
    apply legacy_all_elem in Hin as [Hin|[Hk Hp]]; [|by right; right].
    apply add_all_elem in Hin as [Hin|?]; [|by right; left].
    apply add_all_elem in Hin as [?%not_elem_of_nil|?]; [done|by left].
  - intros s Hs Huniq. apply list_elem_of_fmap. exists (id s, s).
    split; [done|]. apply legacy_all_keeps. by apply add_all_last.
  - intros s Hs Hfresh Huniq. apply list_elem_of_fmap. exists (id s, s).
    split; [done|]. apply legacy_all_keeps.
    apply add_all_keeps; [done|]. by apply add_all_last.
  - intros pre s post -> Hpost. apply Hone, legacy_all_keeps.
    by apply add_all_last_of.
  - intros pre s post -> Hpost Hfresh. apply Hone, legacy_all_keeps.
    apply add_all_keeps; [done|]. by apply add_all_last_of.
  - intros Hnd. simpl. unfold m1. rewrite add_all_distinct; [|done|].
    + simpl. unfold values. rewrite <- list_fmap_compose.
      clear. induction prev as [|s l IH]; [done|]. csimpl. by rewrite IH.
    + intros s _. apply not_elem_of_nil.
  - intros Hnd. simpl. rewrite add_all_distinct; [|done|].
    + simpl. unfold values. rewrite <- list_fmap_compose.
      clear. induction restored as [|s l IH]; [done|]. csimpl. by rewrite IH.
    + intros s _. apply not_elem_of_nil.
Qed.

End ReconcileInvariants.

(** ** App.tsx: the CSV text *)

Module CsvFacts.
Import App.

Lemma split_not_nil sep s : split sep s ≠ [].
Proof.
  induction s as [|c s IH]; simpl; [done|].
  destruct (sep c); [done|]. by destruct (split sep s).
Qed.

Lemma split_nl_split s : split_nl s = split is_newline s.
Proof. induction s as [|c s IH]; simpl; [done|]. by rewrite IH. Qed.

(** A piece without separator, the separator, and the rest. *)
Lemma split_piece sep a c b :
  (∀ x, x ∈ list_ascii_of_string a → sep x = false) → sep c = true →
  split sep (a +:+ String c b) = a :: split sep b.
Proof.
  intros Ha Hc. induction a as [|x a IH]; simpl.
  - by rewrite Hc.
  - rewrite (Ha x) by (simpl; left). rewrite IH; [done|].
    intros y Hy. apply Ha. simpl. by right.
Qed.

Lemma split_no_sep sep a :
  (∀ x, x ∈ list_ascii_of_string a → sep x = false) → split sep a = [a].
Proof.
  intros Ha. induction a as [|x a IH]; simpl; [done|].
  rewrite (Ha x) by (simpl; left). rewrite IH; [done|].
  intros y Hy. apply Ha. simpl. by right.
Qed.

Lemma has_comma_false a :
  has_comma a = false → ∀ x, x ∈ list_ascii_of_string a → is_comma x = false.
Proof.
  induction a as [|c a IH]; simpl; [by intros _ x ?%not_elem_of_nil|].
  intros [Hc Ha]%orb_false_iff x [->|Hx]%elem_of_cons; [done|by apply IH].
Qed.

Lemma has_newline_false a :
  has_newline a = false → ∀ x, x ∈ list_ascii_of_string a → is_newline x = false.
Proof.
  induction a as [|c a IH]; simpl; [by intros _ x ?%not_elem_of_nil|].
  intros [Hc Ha]%orb_false_iff x [->|Hx]%elem_of_cons; [done|by apply IH].
Qed.

(** Splitting at the commas and joining with commas gives the text back. *)
Lemma join_split_comma t : join "," (split is_comma t) = t.
Proof.
  induction t as [|c t IH]; [done|]. simpl.
  destruct (is_comma c) eqn:Hc.
  - apply Ascii.eqb_eq in Hc as ->.
    pose proof (split_not_nil is_comma t) as Hne.
    destruct (split is_comma t) as [|h r]; [done|].
    change (join "," ("" :: h :: r)) with ("" +:+ "," +:+ join "," (h :: r)).
    by rewrite IH.
  - destruct (split is_comma t) as [|h r]; [by subst|].
    destruct r as [|h' r]; simpl in *; by subst.
Qed.

(** ** Trimming *)

Lemma trimEnd_cr w : trimEnd (w +:+ cr) = trimEnd w.
Proof.
  induction w as [|c w IH]; [done|]. rewrite append_cons. simpl.
  by rewrite IH.
Qed.

Lemma trimStart_cr z :
  trimStart (z +:+ cr) = if JsString.truthy (trimStart z) then trimStart z +:+ cr else "".
Proof.
  induction z as [|c z IH]; [done|]. rewrite append_cons. simpl.
  destruct (is_ws c); [done|]. done.
Qed.

Lemma trim_cr z : trim (z +:+ cr) = trim z.
Proof.
  unfold trim. rewrite trimStart_cr.
  destruct (trimStart z) eqn:E; simpl; [done|]. by rewrite trimEnd_cr.
Qed.

Lemma strip_cr_cases x : strip_cr x = x ∨ x = strip_cr x +:+ cr.
Proof.
  induction x as [|c x IH]; [by left|]. simpl.
  destruct x as [|c' x].
  - destruct (is_cr c) eqn:Hc; [|by left].
    right. apply Ascii.eqb_eq in Hc as ->. done.
  - destruct IH as [IH|IH]; [left; by rewrite IH|right].
    by rewrite append_cons, <- IH.
Qed.

(** ** A carriage return at the end of a line *)

Lemma is_comma_cr : is_comma (Ascii.ascii_of_nat 13) = false.
Proof. reflexivity. Qed.

Lemma split_comma_cr x :
  ∃ init l, split is_comma x = init ++ [l]
            ∧ split is_comma (x +:+ cr) = init ++ [l +:+ cr].
Proof.
  induction x as [|c x (init & l & E & E')].
  - by exists [], "".
  - rewrite append_cons. simpl. rewrite E, E'. destruct (is_comma c).
    + by exists ("" :: init), l.
    + destruct init as [|h init]; simpl.
      * by exists [], (String c l).
      * by exists (String c h :: init), l.
Qed.

Lemma join_snoc_cr init l :
  join "," (init ++ [l +:+ cr]) = join "," (init ++ [l]) +:+ cr.
Proof.
  induction init as [|h init IH]; [done|].
  change ((h :: init) ++ ?r) with (h :: (init ++ r)).
  destruct init as [|h' init]; simpl in *.
  - by rewrite !append_assoc.
  - rewrite IH. by rewrite !append_assoc.
Qed.

Lemma parse_line_cr x : parse_line (x +:+ cr) = parse_line x.
Proof.
  unfold parse_line. destruct (split_comma_cr x) as (init & l & -> & ->).
  destruct init as [|h init]; simpl.
  - by rewrite trim_cr.
  - by rewrite join_snoc_cr, trim_cr.
Qed.

Lemma csv_rows_cons l ls :
  csv_rows (l :: ls)
  = (if JsString.truthy (trim l) then [parse_line l] else []) ++ csv_rows ls.
Proof.
  unfold csv_rows. rewrite filter_cons.
  by destruct (JsString.truthy (trim l)).
Qed.

Lemma csv_rows_strip_cr l ls : csv_rows (strip_cr l :: ls) = csv_rows (l :: ls).
Proof.
  rewrite !csv_rows_cons. destruct (strip_cr_cases l) as [->|E]; [done|].
  remember (strip_cr l) as x eqn:Hx. clear Hx. subst l.
  by rewrite trim_cr, parse_line_cr.
Qed.

Lemma csv_rows_chop ls : csv_rows (chop ls) = csv_rows ls.
Proof.
  induction ls as [|l ls IH]; [done|].
  destruct ls as [|l' ls]; [done|].
  change (chop (l :: l' :: ls)) with (strip_cr l :: chop (l' :: ls)).
  rewrite csv_rows_strip_cr, !(csv_rows_cons l). by rewrite IH.
Qed.

Lemma drop_chop ls : drop 1 (chop ls) = chop (drop 1 ls).
Proof. destruct ls as [|l [|l' ls]]; done. Qed.

(** ** The two ways of cutting a text into lines *)

Lemma chop_cons_nil ls : ls ≠ [] → chop ("" :: ls) = "" :: chop ls.
Proof. by destruct ls. Qed.

Lemma strip_cr_cons c x :
  (is_cr c = true → x ≠ "") → strip_cr (String c x) = String c (strip_cr x).
Proof.
  intros Hc. destruct x as [|c' x]; [|done]. simpl.
  destruct (is_cr c); [by destruct Hc|done].
Qed.

Lemma split_lines_cons c s :
  split_lines (String c s)
  = if is_newline c then "" :: split_lines s
    else if is_cr c then
      match s with
      | String c' s'' =>
          if is_newline c' then "" :: split_lines s''
          else match split_lines s with
               | h :: t => String c h :: t
               | [] => [String c ""]
               end
      | EmptyString => match split_lines s with
                       | h :: t => String c h :: t
                       | [] => [String c ""]
                       end
      end
    else match split_lines s with
         | h :: t => String c h :: t
         | [] => [String c ""]
         end.
Proof. reflexivity. Qed.

Lemma split_nl_cons c s :
  split_nl (String c s)
  = if is_newline c then "" :: split_nl s
    else match split_nl s with
         | h :: t => String c h :: t
         | [] => [String c ""]
         end.
Proof. reflexivity. Qed.

(** A character put in front of the first piece stays there when the
    pieces are chopped, unless it is a carriage return that makes up the
    whole of a piece that is not the last. *)
Lemma chop_keep c (pieces : list string) :
  (is_cr c = true → length pieces ≤ 1 ∨ hd "" pieces ≠ "") →
  chop (match pieces with
        | h :: t => String c h :: t
        | [] => [String c ""]
        end)
  = match chop pieces with
    | h :: t => String c h :: t
    | [] => [String c ""]
    end.
Proof.
  intros Hc. destruct pieces as [|h [|h' t]]; [done..|].
  change (chop (String c h :: h' :: t))
    with (strip_cr (String c h) :: chop (h' :: t)).
  change (chop (h :: h' :: t)) with (strip_cr h :: chop (h' :: t)).
  rewrite strip_cr_cons; [done|].
  intros Hcr ->. destruct (Hc Hcr) as [Hlen|Hhd]; simpl in *; [lia|done].
Qed.

Lemma split_lines_chop s : split_lines s = chop (split_nl s).
Proof.
  induction s as [|c s IH]; [done|].
  rewrite split_lines_cons, split_nl_cons.
  destruct (is_newline c) eqn:Hnl.
  { rewrite IH. by rewrite chop_cons_nil by apply split_nl_not_nil. }
  destruct (is_cr c) eqn:Hcr.
  - destruct s as [|c' s']; [done|]. lazy iota beta.
    destruct (is_newline c') eqn:Hnl'.
    + rewrite split_lines_cons, split_nl_cons, Hnl' in IH.
      rewrite chop_cons_nil in IH by apply split_nl_not_nil.
      injection IH as IH. rewrite IH, split_nl_cons, Hnl'.
      pose proof (split_nl_not_nil s') as Hne.
      destruct (split_nl s') as [|h t]; [done|].
      simpl. by rewrite Hcr.
    + rewrite IH. symmetry. apply chop_keep.
      intros _. right. rewrite split_nl_cons, Hnl'. by destruct (split_nl s').
  - rewrite IH. symmetry. apply chop_keep. by rewrite Hcr.
Qed.

Lemma split_nl_join ls :
  Forall (λ l, has_newline l = false) ls → ls ≠ [] →
  split_nl (join lf ls) = ls.
Proof.
  induction 1 as [|l ls Hl Hls IH]; intros Hne; [done|].
  destruct ls as [|l' ls].
  - simpl. by apply split_nl_no_newline.
  - change (join lf (l :: l' :: ls)) with (l +:+ lf +:+ join lf (l' :: ls)).
    unfold lf at 1. rewrite append_cons, append_nil_l.
    rewrite split_nl_line by done. by rewrite IH.
Qed.

Lemma split_nl_join_crlf ls :
  Forall (λ l, has_newline l = false) ls → ls ≠ [] →
  ∃ ls', split_nl (join (cr +:+ lf) ls) = ls' ∧ csv_rows (drop 1 ls') = csv_rows (drop 1 ls).
Proof.
  intros Hls Hne.
  assert (∃ ls', split_nl (join (cr +:+ lf) ls) = ls'
                 ∧ csv_rows ls' = csv_rows ls
                 ∧ csv_rows (drop 1 ls') = csv_rows (drop 1 ls)) as (ls' & ? & _ & ?);
    [|by exists ls'].
  induction Hls as [|l ls Hl Hls IH]; [done|].
  destruct ls as [|l' ls].
  - exists [l]. simpl. by rewrite split_nl_no_newline.
  - destruct IH as (ls' & E & Hrows & _); [done|].
    exists ((l +:+ cr) :: ls').
    change (join (cr +:+ lf) (l :: l' :: ls))
      with (l +:+ (cr +:+ lf) +:+ join (cr +:+ lf) (l' :: ls)).
    split_and!.
    + rewrite <- !append_assoc. unfold lf at 1.
      rewrite append_assoc. rewrite append_cons, append_nil_l.
      rewrite split_nl_line, E; [done|].
      clear -Hl. induction l as [|c l IH]; [done|].
      simpl in *. apply orb_false_iff in Hl as [-> Hl]. by apply IH.
    + rewrite !(csv_rows_cons _ ls'), !(csv_rows_cons l), trim_cr, parse_line_cr.
      by rewrite Hrows.
    + exact Hrows.
Qed.

End CsvFacts.

Section CsvTheorems.
Import App CsvFacts.

Lemma parseCsv_line_feeds text : parseCsv text = csv_rows (drop 1 (split_nl text)).
Proof.
  unfold parseCsv. fold (csv_rows (drop 1 (split_lines text))).
  by rewrite split_lines_chop, drop_chop, csv_rows_chop.
Qed.

Lemma trimEnd_snoc w c :
  is_ws c = false → trimEnd (w +:+ String c "") = w +:+ String c "".
Proof.
  intros Hc. induction w as [|x w IH]; simpl; [by rewrite Hc|].
  rewrite IH. by destruct w.
Qed.

Lemma trim_quoted u : trim (dquote +:+ u +:+ dquote) = dquote +:+ u +:+ dquote.
Proof.
  unfold trim. change (trimStart (dquote +:+ u +:+ dquote))
    with (dquote +:+ u +:+ dquote).
  rewrite <- append_assoc. by apply trimEnd_snoc.
Qed.

Lemma unquote_quoted u : unquote (dquote +:+ u +:+ dquote) = u.
Proof.
  unfold unquote. change (drop_start_quote (dquote +:+ u +:+ dquote))
    with (u +:+ dquote).
  induction u as [|c u IH]; [done|].
  rewrite append_cons. simpl. rewrite IH. by destruct u.
Qed.

(** A CSV text is a header line and data lines, joined by line feeds or
    by carriage return and line feed alike.  The header is dropped,
    whatever it holds; every data line that is not blank gives one
    sentence, in order, pending and without image. *)
Theorem parseCsv_lines (header : string) (lines : list string) :
  has_newline header = false →
  Forall (λ l, has_newline l = false) lines →
  parseCsv (join lf (header :: lines)) = csv_rows lines
  ∧ parseCsv (join (cr +:+ lf) (header :: lines)) = csv_rows lines
  ∧ parseCsv header = []
  ∧ Forall (λ s, status s = pending ∧ imageUrl s = None) (csv_rows lines).
Proof.
  intros Hh Hls. rewrite !parseCsv_line_feeds. split_and!.
  - rewrite split_nl_join; [done|by constructor|done].
  - destruct (split_nl_join_crlf (header :: lines)) as (ls' & HE & Hrows);
      [by constructor|done|]. by rewrite HE, Hrows.
  - by rewrite split_nl_no_newline.
  - unfold csv_rows. apply Forall_fmap, Forall_forall. by intros l _.
Qed.

(** The id of a data line is what precedes the first comma, trimmed; the
    text is all that follows it, further commas included, trimmed, and
    without a quotation mark at its start and at its end, so the inside
    of a quoted text comes back as it is.  A line without a comma is an
    id with an empty text. *)
Theorem parse_line_fields (i t : string) :
  has_comma i = false →
  parse_line (i +:+ "," +:+ t)
  = {| id := trim i; english_text := unquote (trim t);
       imageUrl := None; status := pending |}
  ∧ parse_line (i +:+ "," +:+ dquote +:+ t +:+ dquote)
    = {| id := trim i; english_text := t; imageUrl := None; status := pending |}
  ∧ parse_line i
    = {| id := trim i; english_text := ""; imageUrl := None; status := pending |}.
Proof.
  intros Hi. pose proof (has_comma_false i Hi) as Hi'.
  assert (∀ r, parse_line (i +:+ "," +:+ r)
               = {| id := trim i; english_text := unquote (trim r);
                    imageUrl := None; status := pending |}) as Hgen.
  { intros r. unfold parse_line.
    change (i +:+ "," +:+ r) with (i +:+ String (Ascii.ascii_of_nat 44) r).
    rewrite split_piece by done. simpl. by rewrite join_split_comma. }
  split_and!.
  - apply Hgen.
  - by rewrite Hgen, trim_quoted, unquote_quoted.
  - unfold parse_line. by rewrite split_no_sep.
Qed.

End CsvTheorems.

(** ** App.tsx: statuses and the store *)

Section StatusFacts.
Import App.
Implicit Types (db : ImageStore) (prev : list EnglishSentence).

Lemma elem_of_keySet db k :
  k ∈ (list_to_set (getAllKeys db) : gset string) ↔ is_Some (db !! k).
Proof. by rewrite elem_of_list_to_set, elem_of_getAllKeys. Qed.

(** The synchronising effect makes the statuses agree with the store:
    afterwards exactly the sentences whose id is a key are completed, a
    key that holds an empty artifact included, which [getImage] reports
    as missing.  It changes statuses only (ids, texts and image URLs stay,
    in order), changes nothing in a list that agrees already, and so
    nothing when run again.  It does nothing at all when the list of the
    render is empty. *)
Theorem sync_consistent db (sentences prev : list EnglishSentence) :
  (sentences = [] → sync db sentences prev = prev)
  ∧ (sentences ≠ [] →
       consistent db (sync db sentences prev)
       ∧ sync db sentences (sync db sentences prev) = sync db sentences prev
       ∧ (∀ s, s ∈ sync db sentences prev → db !! id s = Some "" →
               status s = completed ∧ getImage (id s) db = None))
  ∧ id <$> sync db sentences prev = id <$> prev
  ∧ english_text <$> sync db sentences prev = english_text <$> prev
  ∧ imageUrl <$> sync db sentences prev = imageUrl <$> prev
  ∧ (consistent db prev → sync db sentences prev = prev).
Proof.
  set (f := λ s : EnglishSentence,
         let hasImage :=
           bool_decide (id s ∈ (list_to_set (getAllKeys db) : gset string)) in
         if hasImage && negb (bool_decide (status s = completed))
         then with_status completed s
         else if negb hasImage && bool_decide (status s = completed)
         then with_status pending s
         else s).
  assert (∀ s, id (f s) = id s ∧ english_text (f s) = english_text s
               ∧ imageUrl (f s) = imageUrl s
               ∧ (status (f s) = completed ↔ is_Some (db !! id s))) as Hf.
  { intros s. unfold f. simpl. rewrite <- elem_of_keySet.
    destruct (bool_decide_reflect (id s ∈ (list_to_set (getAllKeys db) : gset string)));
      destruct (bool_decide_reflect (status s = completed)); simpl; naive_solver. }
  assert (∀ s, (status s = completed ↔ is_Some (db !! id s)) → f s = s) as Hfix.
  { intros s Hs. unfold f. simpl. rewrite <- elem_of_keySet in Hs.
    destruct (bool_decide_reflect (id s ∈ (list_to_set (getAllKeys db) : gset string)));
      destruct (bool_decide_reflect (status s = completed)); simpl; naive_solver. }
  assert (∀ l, consistent db (f <$> l)) as Hcons.
  { intros l s (s0 & -> & _)%list_elem_of_fmap.
    destruct (Hf s0) as (-> & _ & _ & ?). done. }
  assert (∀ l, consistent db l → f <$> l = l) as Hid.
  { intros l Hl. induction l as [|s l IH]; [done|]. csimpl.
    rewrite Hfix by (apply Hl; left). f_equal. apply IH.
    intros s' Hs'. apply Hl. by right. }
  unfold sync. fold f. split_and!.
  - by intros ->.
  - intros Hne. destruct sentences as [|s0 sentences]; [done|]. simpl.
    split_and!; [apply Hcons|apply Hid, Hcons|].
    intros s Hs Hempty. split.
    + apply (Hcons prev s Hs). by eexists.
    + unfold getImage. by rewrite Hempty.
  - destruct (Nat.eqb _ 0); [done|]. rewrite <- list_fmap_compose.
    apply list_fmap_ext. intros ? s _. apply Hf.
  - destruct (Nat.eqb _ 0); [done|]. rewrite <- list_fmap_compose.
    apply list_fmap_ext. intros ? s _. apply Hf.
  - destruct (Nat.eqb _ 0); [done|]. rewrite <- list_fmap_compose.
    apply list_fmap_ext. intros ? s _. apply Hf.
  - intros Hprev. destruct (Nat.eqb _ 0); [done|]. by apply Hid.
Qed.

(** Declined, a deletion changes nothing.  Confirmed, it removes the key
    from the store, makes every sentence of that id pending and without
    image, and leaves the other sentences as they are; a list that agreed
    with the store agrees with the new store. *)
Theorem handleDeleteImage_pending (i : string) prev db :
  handleDeleteImage false i (prev, db) = (prev, db)
  ∧ ∃ prev' db', handleDeleteImage true i (prev, db) = (prev', db')
      ∧ getImage i db' = None
      ∧ (i ∉ getAllKeys db')
      ∧ (∀ k, k ≠ i → db' !! k = db !! k)
      ∧ id <$> prev' = id <$> prev
      ∧ english_text <$> prev' = english_text <$> prev
      ∧ Forall2 (λ s s', if decide (id s = i)
                         then status s' = pending ∧ imageUrl s' = None
                         else s' = s) prev prev'
      ∧ (consistent db prev → consistent db' prev').
Proof.
  split; [done|]. eexists _, _. split; [done|].
  set (f := λ s : EnglishSentence,
         if String.eqb (id s) i
         then {| id := id s; english_text := english_text s;
                 imageUrl := None; status := pending |}
         else s).
  unfold deleteImage. split_and!.
  - unfold getImage. by rewrite lookup_delete_eq.
  - rewrite elem_of_getAllKeys, lookup_delete_eq. by intros [? ?].
  - intros k Hk. by rewrite lookup_delete_ne.
  - simpl. rewrite <- list_fmap_compose. apply list_fmap_ext.
    intros ? s _. unfold f. simpl. by destruct (String.eqb (id s) i).
  - simpl. rewrite <- list_fmap_compose. apply list_fmap_ext.
    intros ? s _. unfold f. simpl. by destruct (String.eqb (id s) i).
  - simpl. apply Forall2_fmap_r, Forall_Forall2_diag, Forall_forall.
    intros s _. unfold f, compose. simpl.
    destruct (decide (id s = i)) as [E|E].
    + by rewrite (proj2 (String.eqb_eq _ _) E).
    + by rewrite (proj2 (String.eqb_neq _ _) E).
  - intros Hcons s' (s & -> & Hs)%list_elem_of_fmap. unfold f.
    destruct (String.eqb_spec (id s) i) as [E|E]; simpl.
    + rewrite E, lookup_delete_eq. split; [done|by intros [? ?]].
    + rewrite lookup_delete_ne by done. by apply Hcons.
Qed.

End StatusFacts.

(** ** App.tsx: a batch of generations *)

Section BatchFacts.
Import App.
Variable generateImageWithStyle : nat → string → string → option string.
Implicit Types (σ : State) (s p : EnglishSentence).

Lemma settle_mark i outcome st prev :
  settle i outcome (mark i st prev) = settle i outcome prev.
Proof.
  unfold settle, mark. rewrite <- list_fmap_compose. apply list_fmap_ext.
  intros ? p _. simpl. destruct (String.eqb (id p) i) eqn:E; simpl; rewrite E;
    [|done]. by destruct outcome.
Qed.

Lemma mark_completed_settle i url prev :
  mark_completed i url prev = settle i (Some url) prev.
Proof. reflexivity. Qed.

Lemma mark_error_settle i prev : mark i error prev = settle i None prev.
Proof. reflexivity. Qed.

Lemma settle_ids i outcome prev : id <$> settle i outcome prev = id <$> prev.
Proof.
  unfold settle. rewrite <- list_fmap_compose. apply list_fmap_ext.
  intros ? p _. simpl. destruct (String.eqb (id p) i); [|done].
  by destruct outcome.
Qed.

Lemma settle_texts i outcome prev :
  english_text <$> settle i outcome prev = english_text <$> prev.
Proof.
  unfold settle. rewrite <- list_fmap_compose. apply list_fmap_ext.
  intros ? p _. simpl. destruct (String.eqb (id p) i); [|done].
  by destruct outcome.
Qed.

(** One attempt loop: the sentence of the id is settled after one to
    [left] calls of the service, and an image is saved exactly when the
    last call succeeded. *)
Lemma attempt_outcome left s style σ :
  0 < left →
  ∃ outcome n,
    attempt generateImageWithStyle left s style σ
    = {| sentences := settle (id s) outcome (sentences σ);
         generation := generation σ;
         images := match outcome with
                   | Some url => saveImage (id s) url (images σ)
                   | None => images σ
                   end;
         calls := calls σ + n |}
    ∧ 1 ≤ n ≤ left.
Proof.
  revert σ. induction left as [|left IH]; intros σ Hpos; [lia|].
  simpl. destruct (generateImageWithStyle _ _ _) as [url|].
  - exists (Some url), 1. split; [|lia].
    rewrite mark_completed_settle, settle_mark. f_equal. lia.
  - destruct left as [|left].
    + exists None, 1. split; [|lia]. simpl.
      rewrite mark_error_settle, settle_mark. f_equal. lia.
    + destruct (IH {| sentences := mark (id s) processing (sentences σ);
                      generation := generation σ; images := images σ;
                      calls := S (calls σ) |}) as (outcome & n & E & Hn); [lia|].
      exists outcome, (S n). split; [|lia].
      change (Nat.eqb (S left) 0) with false. cbv iota.
      rewrite E. simpl. rewrite settle_mark. f_equal. lia.
Qed.

Lemma batch_outcome_refl targets db p : id p ∉ id <$> targets →
  batch_outcome targets db db p p.
Proof. intros Hp. unfold batch_outcome. by rewrite decide_False. Qed.

(** The loop over the sentences of a batch. *)
Lemma batch_loop style pending σ :
  let σ' := foldl (λ σ s, attempt generateImageWithStyle maxRetries s style σ)
              σ pending in
  generation σ' = generation σ
  ∧ id <$> sentences σ' = id <$> sentences σ
  ∧ english_text <$> sentences σ' = english_text <$> sentences σ
  ∧ (∀ k, is_Some (images σ !! k) → is_Some (images σ' !! k))
  ∧ (∀ k, k ∉ id <$> pending → images σ' !! k = images σ !! k)
  ∧ calls σ ≤ calls σ' ≤ calls σ + maxRetries * length pending
  ∧ (NoDup (id <$> pending) →
     Forall2 (batch_outcome pending (images σ) (images σ'))
       (sentences σ) (sentences σ')).
Proof.
  revert σ. induction pending as [|s pending IH]; intros σ; cbv zeta;
    cbn [foldl]; rewrite ?fmap_cons; cbn [length].
  { split_and!; try done; [lia|]. intros _.
    apply Forall_Forall2_diag, Forall_forall. intros p _.
    apply batch_outcome_refl, not_elem_of_nil. }
  destruct (attempt_outcome maxRetries s style σ) as (outcome & n & E & Hn);
    [unfold maxRetries; lia|].
  rewrite E. clear E.
  set (σ1 := {| sentences := settle (id s) outcome (sentences σ);
                generation := generation σ;
                images := match outcome with
                          | Some url => saveImage (id s) url (images σ)
                          | None => images σ
                          end;
                calls := calls σ + n |}).
  destruct (IH σ1) as (Hgen & Hids & Htexts & Hkeeps & Hframe & Hcalls & Hout).
  assert (∀ k, k ≠ id s → images σ1 !! k = images σ !! k) as Hother.
  { intros k Hk. simpl. destruct outcome; [|done].
    unfold saveImage. by rewrite lookup_insert_ne. }
  split_and!.
  - by rewrite Hgen.
  - by rewrite Hids; simpl; rewrite settle_ids.
  - by rewrite Htexts; simpl; rewrite settle_texts.
  - intros k Hk. apply Hkeeps. simpl. destruct outcome; [|done].
    unfold saveImage. rewrite lookup_insert_is_Some'. by right.
  - intros k [Hk Hrest]%not_elem_of_cons. by rewrite Hframe, Hother.
  - change (calls σ1) with (calls σ + n) in Hcalls. lia.
  - change (calls σ1) with (calls σ + n) in Hcalls. unfold maxRetries in *. lia.
  - intros [Hs Hnd]%NoDup_cons.
    specialize (Hout Hnd).
    change (sentences σ1) with (settle (id s) outcome (sentences σ)) in Hout.
    unfold settle in Hout. rewrite Forall2_fmap_l in Hout.
    eapply Forall2_impl; [exact Hout|]. intros p p'.
    unfold compose, batch_outcome. cbv beta.
    destruct (String.eqb_spec (id p) (id s)) as [Hp|Hp].
    + assert (id (settled outcome p) = id p) as Hid by (by destruct outcome).
      rewrite Hid, Hp, decide_False by done. intros ->.
      rewrite decide_True by left. rewrite (Hframe (id s) Hs).
      change (images σ1) with (match outcome with
                               | Some url => saveImage (id s) url (images σ)
                               | None => images σ
                               end).
      destruct outcome as [url|]; [left|right; done].
      exists url. unfold saveImage. by rewrite lookup_insert_eq.
    + destruct (decide (id p ∈ id <$> pending)) as [Hin|Hin].
      * rewrite decide_True by (by right). by rewrite Hother.
      * rewrite decide_False; [done|]. by intros [?|?]%elem_of_cons.
Qed.

Lemma same_id_same_sentence (l : list EnglishSentence) p t :
  NoDup (id <$> l) → p ∈ l → t ∈ l → id p = id t → p = t.
Proof.
  intros Hnd Hp Ht Hid.
  apply list_elem_of_lookup in Hp as [i Hi]. apply list_elem_of_lookup in Ht as [j Hj].
  assert (i = j) as ->.
  { apply (NoDup_lookup (id <$> l) i j (id p)); [done|..];
      rewrite list_lookup_fmap; [by rewrite Hi|by rewrite Hj, Hid]. }
  congruence.
Qed.

(** [startBatch] does nothing while a batch is running.  Otherwise it
    ends idle; it keeps the sentences, their ids and their texts, in
    order; it removes no key from the store; and it calls the image
    service at most three times for each of at most [batchSize]
    sentences. *)
Theorem startBatch_frame (style : string) (batchSize : nat) σ :
  let σ' := startBatch generateImageWithStyle style batchSize σ in
  (generation σ = RUNNING → σ' = σ)
  ∧ (generation σ ≠ RUNNING → generation σ' = IDLE)
  ∧ id <$> sentences σ' = id <$> sentences σ
  ∧ english_text <$> sentences σ' = english_text <$> sentences σ
  ∧ (∀ k, is_Some (images σ !! k) → is_Some (images σ' !! k))
  ∧ calls σ ≤ calls σ' ≤ calls σ + maxRetries * batchSize.
Proof.
  unfold startBatch.
  set (pending_ := take batchSize (filter (λ s, status s ≠ completed) (sentences σ))).
  destruct (batch_loop style pending_
              {| sentences := sentences σ; generation := RUNNING;
                 images := images σ; calls := calls σ |})
    as (_ & Hids & Htexts & Hkeeps & _ & Hcalls & _).
  simpl in *.
  assert (length pending_ ≤ batchSize) as Hlen
    by (unfold pending_; rewrite length_take; lia).
  destruct (generation σ) eqn:Hgen; simpl;
    (split_and!; [done|done|done|done|done|lia|unfold maxRetries in *; nia]).
Qed.

(** A batch on a list of distinct ids, not started while another runs.
    Its targets are the first [batchSize] sentences that are not
    completed.  Each target ends completed, with the image URL that the
    store now holds under its id, or in error, with its key of the store
    untouched; none is left processing; every other sentence is as it
    was. *)
Theorem startBatch_outcome (style : string) (batchSize : nat) σ :
  generation σ ≠ RUNNING →
  NoDup (id <$> sentences σ) →
  let σ' := startBatch generateImageWithStyle style batchSize σ in
  let targets :=
    take batchSize (filter (λ s, status s ≠ completed) (sentences σ)) in
  Forall2 (batch_outcome targets (images σ) (images σ'))
    (sentences σ) (sentences σ').
Proof.
  intros Hrun Hnd. unfold startBatch.
  set (pending_ := take batchSize (filter (λ s, status s ≠ completed) (sentences σ))).
  destruct (batch_loop style pending_
              {| sentences := sentences σ; generation := RUNNING;
                 images := images σ; calls := calls σ |})
    as (_ & _ & _ & _ & _ & _ & Hout).
  simpl in *.
  assert (NoDup (id <$> pending_)) as Hnd'.
  { eapply sublist_NoDup; [exact Hnd|]. apply fmap_sublist.
    etrans; [apply sublist_take|apply sublist_filter]. }
  destruct (generation σ); [by apply Hout|done|by apply Hout].
Qed.

(** A batch keeps the statuses in agreement with the store, on a list of
    distinct ids. *)
Theorem startBatch_consistent (style : string) (batchSize : nat) σ :
  NoDup (id <$> sentences σ) →
  consistent (images σ) (sentences σ) →
  let σ' := startBatch generateImageWithStyle style batchSize σ in
  consistent (images σ') (sentences σ').
Proof.
  intros Hnd Hcons. unfold startBatch.
  set (pending_ := take batchSize (filter (λ s, status s ≠ completed) (sentences σ))).
  destruct (batch_loop style pending_
              {| sentences := sentences σ; generation := RUNNING;
                 images := images σ; calls := calls σ |})
    as (_ & _ & _ & _ & Hframe & _ & Hout).
  assert (pending_ `sublist_of` sentences σ) as Hsub
    by (etrans; [apply sublist_take|apply sublist_filter]).
  assert (NoDup (id <$> pending_)) as Hnd'
    by (eapply sublist_NoDup; [exact Hnd|]; by apply fmap_sublist).
  specialize (Hout Hnd'). simpl in *.
  set (σ' := foldl _ _ pending_) in *.
  assert (consistent (images σ') (sentences σ')) as Hgoal.
  { intros p' Hp'. apply list_elem_of_lookup in Hp' as [i Hi].
    destruct (Forall2_lookup_r _ _ _ _ _ Hout Hi) as (p & Hp & Hpp').
    apply list_elem_of_lookup_2 in Hp. unfold batch_outcome in Hpp'.
    destruct (decide (id p ∈ id <$> pending_)) as [Hin|Hin].
    - apply list_elem_of_fmap in Hin as (t & Hid & Ht).
      assert (p = t) as <-.
      { apply (same_id_same_sentence (sentences σ)); [done..| |done].
        by eapply elem_of_sublist. }
      assert (status p ≠ completed) as Hst.
      { assert (p ∈ filter (λ s, status s ≠ completed) (sentences σ)) as Hf
          by (eapply elem_of_sublist; [exact Ht|apply sublist_take]).
        by apply list_elem_of_filter in Hf as [? _]. }
      destruct Hpp' as [(url & -> & Hurl)|[-> Hsame]]; simpl.
      + rewrite Hurl. split; [by eexists|done].
      + rewrite Hsame. split; [done|]. intros Hsome.
        by apply (Hcons p Hp) in Hsome.
    - subst p'. rewrite Hframe by done. by apply Hcons. }
  destruct (generation σ); [exact Hgoal|exact Hcons|exact Hgoal].
Qed.

End BatchFacts.

(** ** App.tsx: the ZIP export *)

Section ZipFacts.
Context `{JSZip}.
Import App CsvFacts.
Implicit Types (db : ImageStore) (keys : list string).

Lemma ceil_div_covers n : n ≤ ceil_div n CHUNK_SIZE * CHUNK_SIZE.
Proof.
  unfold ceil_div, CHUNK_SIZE.
  pose proof (Nat.div_mod_eq (n + 500 - 1) 500).
  pose proof (Nat.mod_upper_bound (n + 500 - 1) 500). lia.
Qed.

Lemma take_add {A} (l : list A) n m :
  take (n + m) l = take n l ++ take m (drop n l).
Proof.
  revert l. induction n as [|n IH]; intros [|x l]; simpl; try done.
  - by rewrite take_nil.
  - by rewrite IH.
Qed.

Lemma length_omap_le {A B} (f : A → option B) (l : list A) :
  length (omap f l) ≤ length l.
Proof.
  induction l as [|x l IH]; csimpl; [done|]. destruct (f x); csimpl; lia.
Qed.

Lemma chunk_slice i keys :
  take ((i + 1) * CHUNK_SIZE - i * CHUNK_SIZE) (drop (i * CHUNK_SIZE) keys)
  = take CHUNK_SIZE (drop (i * CHUNK_SIZE) keys).
Proof. unfold CHUNK_SIZE. f_equal. lia. Qed.

(** The loop over the parts [a, a + 1, ..., a + n - 1]. *)
Lemma export_parts_archives db keys total a n :
  let r := export_parts db keys total (seq a n) in
  ∃ archives : list (nat * list (string * string)),
    Forall2 (λ d x, d.1 = part_name x.1 total ∧ generateAsync x.2 = Some d.2)
      (downloads r) archives
    ∧ Forall (λ x, a ≤ x.1 < a + n ∧ 0 < length x.2 ≤ CHUNK_SIZE) archives
    ∧ StronglySorted lt archives.*1
    ∧ (alert r = None
       ∨ alert r = Some "Failed to export images. Check console for details.")
    ∧ mjoin archives.*2
        `prefix_of` omap (zip_entry db)
                      (take (n * CHUNK_SIZE) (drop (a * CHUNK_SIZE) keys))
    ∧ (alert r = None →
       mjoin archives.*2
       = omap (zip_entry db) (take (n * CHUNK_SIZE) (drop (a * CHUNK_SIZE) keys)))
    ∧ ((∀ es, is_Some (generateAsync es)) → alert r = None).
Proof.
  revert a. induction n as [|n IH]; intros a.
  { exists []. simpl. split_and!; try done; [constructor|by left]. }
  cbv zeta. cbn [seq export_parts]. rewrite chunk_slice.
  set (chunkKeys := take CHUNK_SIZE (drop (a * CHUNK_SIZE) keys)).
  set (entries := omap (zip_entry db) chunkKeys).
  assert (omap (zip_entry db)
            (take (S n * CHUNK_SIZE) (drop (a * CHUNK_SIZE) keys))
          = entries ++ omap (zip_entry db)
                         (take (n * CHUNK_SIZE) (drop (S a * CHUNK_SIZE) keys)))
    as Hall.
  { change (S n * CHUNK_SIZE) with (CHUNK_SIZE + n * CHUNK_SIZE).
    rewrite take_add, omap_app, drop_drop.
    by replace (a * CHUNK_SIZE + CHUNK_SIZE) with (S a * CHUNK_SIZE)
      by (unfold CHUNK_SIZE; lia). }
  rewrite Hall.
  assert (length entries ≤ CHUNK_SIZE) as Hlen.
  { unfold entries. etrans; [apply length_omap_le|].
    unfold chunkKeys. rewrite length_take. lia. }
  destruct (IH (S a)) as (archives & Hdl & Hbounds & Hsorted & Halert & Hpre & Heq & Hok).
  destruct (Nat.ltb_spec 0 (length entries)) as [Hpos|Hzero].
  - destruct (generateAsync entries) as [content|] eqn:Hgen.
    + exists ((a, entries) :: archives). simpl. split_and!.
      * by constructor.
      * constructor; [simpl; lia|].
        eapply Forall_impl; [exact Hbounds|]. simpl. lia.
      * constructor; [done|]. apply Forall_fmap, Forall_forall.
        intros x Hx. simpl.
        apply (proj1 (Forall_forall _ _) Hbounds) in Hx. lia.
      * done.
      * by apply prefix_app.
      * intros Hnone. f_equal. by apply Heq.
      * done.
    + exists []. simpl. split_and!; try done; [constructor|by right|..].
      * apply prefix_nil.
      * intros Hall_ok. destruct (Hall_ok entries) as [? ?]. congruence.
  - assert (entries = []) as -> by (destruct entries; [done|simpl in *; lia]).
    exists archives. simpl. split_and!; try done.
    eapply Forall_impl; [exact Hbounds|]. simpl. lia.
Qed.

Lemma zip_entry_Some db k name data :
  zip_entry db k = Some (name, data) ↔
  name = k +:+ ".png"
  ∧ ∃ v, db !! k = Some v ∧ split is_comma v !! 1 = Some data ∧ data ≠ "".
Proof.
  unfold zip_entry. split.
  - destruct (getImage k db) as [v|] eqn:Hv; simpl; [|done].
    apply getImage_Some in Hv as [Hv _].
    destruct (split is_comma v !! 1) as [d|] eqn:Hd; simpl; [|done].
    destruct d as [|c d]; simpl; [done|]. intros [= <- <-]. by eauto.
  - intros (-> & v & Hv & Hd & Hne).
    assert (v ≠ "") as Hv' by (by intros ->).
    rewrite (proj2 (getImage_Some db k v)) by done. simpl. rewrite Hd. simpl.
    by destruct data.
Qed.

(** The file that the ZIP export adds for a key is named after the key
    and holds the text between the first comma of the artifact and the
    second: the payload of a data URL.  An artifact without a comma, or
    with nothing after its first comma, gives no file; what follows a
    second comma is left out. *)
Theorem zip_entry_payload db (k : string) :
  (∀ name data,
     zip_entry db k = Some (name, data) ↔
     name = k +:+ ".png"
     ∧ ∃ v, db !! k = Some v ∧ split is_comma v !! 1 = Some data ∧ data ≠ "")
  ∧ (∀ prefix payload,
       has_comma prefix = false → has_comma payload = false →
       db !! k = Some (prefix +:+ "," +:+ payload) →
       zip_entry db k
       = if JsString.truthy payload then Some (k +:+ ".png", payload) else None)
  ∧ (∀ prefix payload rest,
       has_comma prefix = false → has_comma payload = false →
       db !! k = Some (prefix +:+ "," +:+ payload +:+ "," +:+ rest) →
       zip_entry db k
       = if JsString.truthy payload then Some (k +:+ ".png", payload) else None)
  ∧ (∀ v, has_comma v = false → db !! k = Some v → zip_entry db k = None).
Proof.
  split_and!.
  - intros. apply zip_entry_Some.
  - intros prefix payload Hp Hd Hv. unfold zip_entry, getImage. rewrite Hv.
    assert (split is_comma (prefix +:+ "," +:+ payload) = [prefix; payload]) as Hs.
    { change (prefix +:+ "," +:+ payload)
        with (prefix +:+ String (Ascii.ascii_of_nat 44) payload).
      rewrite split_piece by (done || by apply has_comma_false).
      by rewrite split_no_sep by (by apply has_comma_false). }
    assert (JsString.truthy (prefix +:+ "," +:+ payload) = true) as ->
      by (by destruct prefix).
    simpl. by rewrite Hs.
  - intros prefix payload rest Hp Hd Hv. unfold zip_entry, getImage. rewrite Hv.
    assert (split is_comma (prefix +:+ "," +:+ payload +:+ "," +:+ rest)
            = prefix :: payload :: split is_comma rest) as Hs.
    { change (prefix +:+ "," +:+ payload +:+ "," +:+ rest)
        with (prefix +:+ String (Ascii.ascii_of_nat 44)
                (payload +:+ String (Ascii.ascii_of_nat 44) rest)).
      by rewrite !split_piece by (done || by apply has_comma_false). }
    assert (JsString.truthy (prefix +:+ "," +:+ payload +:+ "," +:+ rest) = true)
      as -> by (by destruct prefix).
    simpl. by rewrite Hs.
  - intros v Hc Hv. unfold zip_entry, getImage. rewrite Hv.
    destruct (JsString.truthy v); simpl; [|done].
    by rewrite split_no_sep by (by apply has_comma_false).
Qed.

(** The ZIP export of an empty store alerts and downloads nothing.
    Otherwise the downloads are archives of consecutive runs of the files
    that the keys give, in key order: at most 500 files each and none
    empty, named by part numbers that increase and stay below the
    announced number of parts (a part without a file is not downloaded,
    so numbers can be missing).  When no archive is rejected, every file
    is in a download and nothing is alerted; a rejection alerts and ends
    the export after the parts already downloaded. *)
Theorem handleExport_archives db :
  let r := handleExport db in
  let totalChunks := ceil_div (size db) CHUNK_SIZE in
  let entries := omap (zip_entry db) (getAllKeys db) in
  (size db = 0 → alert r = Some "No images to export." ∧ downloads r = [])
  ∧ ∃ archives : list (nat * list (string * string)),
      Forall2 (λ d x, d.1 = part_name x.1 totalChunks
                      ∧ generateAsync x.2 = Some d.2)
        (downloads r) archives
      ∧ Forall (λ x, x.1 < totalChunks ∧ 0 < length x.2 ≤ CHUNK_SIZE) archives
      ∧ StronglySorted lt archives.*1
      ∧ mjoin archives.*2 `prefix_of` entries
      ∧ (0 < size db →
         (alert r = None
          ∨ alert r = Some "Failed to export images. Check console for details.")
         ∧ (alert r = None → mjoin archives.*2 = entries)
         ∧ ((∀ es, is_Some (generateAsync es)) → alert r = None)).
Proof.
  cbv zeta. unfold handleExport. rewrite length_getAllKeys.
  destruct (Nat.eqb_spec (size db) 0) as [Hzero|Hpos].
  - split; [done|]. exists []. simpl.
    split_and!; try done; [constructor|apply prefix_nil|lia].
  - split; [done|].
    destruct (export_parts_archives db (getAllKeys db)
                (ceil_div (size db) CHUNK_SIZE) 0
                (ceil_div (size db) CHUNK_SIZE))
      as (archives & Hdl & Hbounds & Hsorted & Halert & Hpre & Heq & Hok).
    assert (take (ceil_div (size db) CHUNK_SIZE * CHUNK_SIZE)
              (drop (0 * CHUNK_SIZE) (getAllKeys db)) = getAllKeys db) as Hall.
    { rewrite drop_0. apply take_ge. rewrite length_getAllKeys.
      apply ceil_div_covers. }
    rewrite Hall in Hpre, Heq.
    exists archives. split_and!; try done.
    eapply Forall_impl; [exact Hbounds|]. simpl. lia.
Qed.

End ZipFacts.

(** ** App.tsx: the search box *)

Section SearchFacts.
Import App.

Lemma startsWith_spec s sub :
  startsWith s sub = true ↔ ∃ post, s = sub +:+ post.
Proof.
  revert s. induction sub as [|a sub IH]; intros s.
  - split; [by exists s|by destruct s].
  - destruct s as [|b s]; simpl; [split; [done|by intros [? ?]]|].
    rewrite andb_true_iff, Ascii.eqb_eq, IH. split.
    + intros [-> [post ->]]. by exists post.
    + intros [post [= -> ->]]. split; [done|by exists post].
Qed.

Lemma includes_cons c s sub :
  includes (String c s) sub = startsWith (String c s) sub || includes s sub.
Proof. reflexivity. Qed.

Lemma includes_spec s sub :
  includes s sub = true ↔ ∃ pre post, s = pre +:+ sub +:+ post.
Proof.
  induction s as [|c s IH].
  - destruct sub as [|a sub]; simpl.
    + split; [by exists "", ""|done].
    + split; [done|]. intros (pre & post & E). by destruct pre.
  - rewrite includes_cons, orb_true_iff, IH, startsWith_spec. split.
    + intros [[post ->]|(pre & post & ->)]; [by exists "", post|].
      by exists (String c pre), post.
    + intros ([|c' pre] & post & E); [left; by exists post|right].
      injection E as -> ->. by exists pre, post.
Qed.

Lemma toLowerCase_app s t :
  toLowerCase (s +:+ t) = toLowerCase s +:+ toLowerCase t.
Proof. induction s as [|c s IH]; [done|]. simpl. by rewrite IH. Qed.

(** The search keeps the sentences whose text or id contains the search
    term, letter case apart, in their order; an empty term keeps them
    all. *)
Theorem filteredSentences_search (searchTerm : string)
    (sentences : list EnglishSentence) :
  filteredSentences "" sentences = sentences
  ∧ filteredSentences searchTerm sentences `sublist_of` sentences
  ∧ (∀ s, s ∈ filteredSentences searchTerm sentences ↔
          s ∈ sentences
          ∧ ∃ pre post,
              toLowerCase (english_text s)
              = pre +:+ toLowerCase searchTerm +:+ post
              ∨ toLowerCase (id s) = pre +:+ toLowerCase searchTerm +:+ post)
  ∧ (∀ s pre part post,
       s ∈ sentences →
       english_text s = pre +:+ part +:+ post ∨ id s = pre +:+ part +:+ post →
       toLowerCase part = toLowerCase searchTerm →
       s ∈ filteredSentences searchTerm sentences).
Proof.
  assert (∀ s, s ∈ filteredSentences searchTerm sentences ↔
               s ∈ sentences
               ∧ ∃ pre post,
                   toLowerCase (english_text s)
                   = pre +:+ toLowerCase searchTerm +:+ post
                   ∨ toLowerCase (id s) = pre +:+ toLowerCase searchTerm +:+ post)
    as Hiff.
  { intros s. unfold filteredSentences.
    rewrite !list_elem_of_In, filter_In, orb_true_iff, !includes_spec.
    naive_solver. }
  split_and!.
  - clear Hiff. unfold filteredSentences.
    induction sentences as [|s l IH]; [done|].
    cbn [List.filter]. rewrite IH.
    assert (includes (toLowerCase (english_text s)) (toLowerCase "") = true)
      as -> by (by destruct (toLowerCase (english_text s))).
    done.
  - clear Hiff. unfold filteredSentences.
    induction sentences as [|s l IH]; [done|].
    cbn [List.filter]. destruct (_ || _); by constructor.
  - exact Hiff.
  - intros s pre part post Hs Hpart Hcase. apply Hiff. split; [done|].
    exists (toLowerCase pre), (toLowerCase post). rewrite <- Hcase.
    destruct Hpart as [-> | ->]; [left|right]; by rewrite !toLowerCase_app.
Qed.

End SearchFacts.

(** ** exportBackup and importBackup on nothing *)

Section EmptyBackup.
Context `{FloatArith} `{JSONCodec}.

(** With no sentence and an empty store the backup is the header line
    alone, with a count of zero, and nothing is reported; importing it
    changes nothing, and so does importing an empty stream. *)
Theorem exportBackup_empty (env : HostEnv) (onProgress : bool) :
  let r := exportBackup env [] onProgress ∅ in
  let header := header_record (now_iso env) 0 in
  progress r = []
  ∧ (delivered r = None ∨ delivered r = Some (record_line header))
  ∧ (single_path env → delivered r = Some (record_line header))
  ∧ (∀ db, importBackup [] db = Some (import_start db))
  ∧ (faithful header →
     ∀ db, importBackup [record_line header] db = Some (import_start db)).
Proof.
  cbv zeta.
  assert (getAllKeys ∅ = []) as Hkeys
    by (apply nil_length_inv; by rewrite length_getAllKeys).
  assert (body_records [] ∅ = []) as Hbody
    by (unfold body_records, iterateImages; by rewrite Hkeys).
  assert (backup_text (now_iso env) [] ∅
          = record_line (header_record (now_iso env) 0)) as Htext.
  { unfold backup_text. rewrite Hbody, Hkeys. simpl. apply append_nil_r. }
  split_and!.
  - unfold exportBackup. rewrite Hbody. simpl.
    destruct (supportsFileSystemAccess env); [|done].
    destruct (fs_fault env) as [[call []]|]; simpl; [| |done];
      destruct (Nat.leb call 3); simpl; try done; by rewrite take_nil.
  - destruct (delivered (exportBackup env [] onProgress ∅)) as [text|] eqn:E;
      [right|by left].
    apply exportBackup_delivered in E. by rewrite E, Htext.
  - intros Hsingle.
    destruct (exportBackup_single_path env [] onProgress ∅ Hsingle) as [-> _].
    by rewrite Htext.
  - done.
  - intros (Hp & Hnl & Ht) db. rewrite importBackup_text. simpl.
    rewrite append_nil_r. unfold record_line.
    rewrite (lines_of_line _ "" Hnl), (tail_of_line _ "" Hnl). simpl.
    unfold import_line. by rewrite Ht, Hp.
Qed.

End EmptyBackup.

(** ** The earlier effect that synchronises with the store *)

Section EarlierSync.
Import AppEarlier.

(** The earlier effect gives every sentence the image that [getImage]
    returns for its id, and completes those that have one.  A sentence
    without image loses its image URL and keeps its status, so one that
    was completed stays completed with nothing to show.  Ids and texts
    stay; a second run changes nothing. *)
Theorem earlier_sync_loads (db : ImageStore) (sentences : list EnglishSentence) :
  id <$> sync db sentences = id <$> sentences
  ∧ english_text <$> sync db sentences = english_text <$> sentences
  ∧ Forall2 (λ s s',
       match getImage (id s) db with
       | Some stored => imageUrl s' = Some stored ∧ status s' = completed
       | None => imageUrl s' = None ∧ status s' = status s
       end) sentences (sync db sentences)
  ∧ sync db (sync db sentences) = sync db sentences.
Proof.
  assert (∀ s, id (synced db s) = id s
               ∧ english_text (synced db s) = english_text s) as Hsame.
  { intros s. unfold synced. by destruct (getImage (id s) db). }
  assert (∀ s, synced db (synced db s) = synced db s) as Hidem.
  { intros s. unfold synced at 1. rewrite (proj1 (Hsame s)).
    unfold synced. by destruct (getImage (id s) db). }
  unfold sync. destruct sentences as [|s0 l]; [by repeat constructor|].
  set (l' := s0 :: l).
  assert (Nat.eqb (length l') 0 = false) as Hl by done.
  assert (Nat.eqb (length (synced db <$> l')) 0 = false) as Hl' by done.
  rewrite Hl, Hl'. clearbody l'. split_and!.
  - rewrite <- list_fmap_compose. apply list_fmap_ext. intros ? s _. apply Hsame.
  - rewrite <- list_fmap_compose. apply list_fmap_ext. intros ? s _. apply Hsame.
  - apply Forall2_fmap_r, Forall_Forall2_diag, Forall_forall. intros s _.
    unfold compose, synced. by destruct (getImage (id s) db).
  - rewrite <- list_fmap_compose. apply list_fmap_ext. intros ? s _. apply Hidem.
Qed.

End EarlierSync.

(** ** components/SentenceItem.tsx: what a row shows *)

Section RowFacts.
Import SentenceItem.

(** One run of the effect that follows the prop settles the row: a
    second run changes nothing.  The row then carries the status of the
    prop, and shows the image of the prop when it has one; without one,
    it keeps the image it showed if the prop is completed and shows none
    otherwise. *)
Theorem follow_settles (sentence : EnglishSentence) (local : Local) :
  follow sentence (follow sentence local) = follow sentence local
  ∧ label (follow sentence local) = status sentence
  ∧ (truthy (imageUrl sentence) = true →
     shown (follow sentence local) = imageUrl sentence)
  ∧ (truthy (imageUrl sentence) = false → status sentence = completed →
     shown (follow sentence local) = shown local)
  ∧ (truthy (imageUrl sentence) = false → status sentence ≠ completed →
     truthy (shown (follow sentence local)) = false).
Proof.
  unfold follow. simpl.
  destruct (truthy (imageUrl sentence)) eqn:Hprop;
    destruct (bool_decide_reflect (status sentence = completed)) as [Hst|Hst];
    simpl; split_and!; try done.
  - destruct (truthy (shown local)) eqn:Hl; simpl; [done|by rewrite Hl].
  - by destruct (truthy (shown local)) eqn:Hl.
Qed.

(** A row whose sentence has a non-empty artifact in the store, once the
    load has resolved on the mounted row and the prop effect has run, for
    a prop without image URL: the row shows the artifact when the prop is
    completed, and shows nothing when it is not, the loaded image being
    cleared.  When the store has no artifact for the id, the load changes
    neither the image nor the status of the row. *)
Theorem load_then_follow (db : ImageStore) (sentence : EnglishSentence)
    (local : Local) (stored : string) :
  db !! id sentence = Some stored → stored ≠ "" →
  truthy (imageUrl sentence) = false →
  let row := follow sentence (load db sentence true local) in
  load db sentence true local
  = {| shown := Some stored; label := completed; isLoading := false |}
  ∧ label row = status sentence
  ∧ (status sentence = completed → shown row = Some stored)
  ∧ (status sentence ≠ completed → shown row = None)
  ∧ (∀ db', getImage (id sentence) db' = None →
       shown (load db' sentence true local) = shown local
       ∧ label (load db' sentence true local) = label local).
Proof.
  intros Hv Hne Hprop. cbv zeta. unfold load.
  rewrite (proj2 (getImage_Some db (id sentence) stored)) by done.
  unfold follow. rewrite Hprop. simpl. split_and!; try done.
  - intros ->. done.
  - intros Hst. rewrite bool_decide_false by done. simpl.
    by rewrite (truthy_string _ Hne).
  - by intros db' ->.
Qed.

End RowFacts.

(** ** importBackup: the progress it reports *)

Section ImportProgressFacts.
Context `{FloatArith} {laws : FloatArithLaws}.

Lemma import_reports_sorted totalBytes byteLengths processedBytes :
  processedBytes + sum_list byteLengths ≤ totalBytes →
  Sorted Z.le (import_reports true totalBytes byteLengths processedBytes)
  ∧ Forall (λ r, (percent processedBytes totalBytes ≤ r)%Z)
      (import_reports true totalBytes byteLengths processedBytes)
  ∧ length (import_reports true totalBytes byteLengths processedBytes)
    = length byteLengths
  ∧ (byteLengths ≠ [] →
     last (import_reports true totalBytes byteLengths processedBytes)
     = Some (percent (processedBytes + sum_list byteLengths) totalBytes)).
Proof.
  revert processedBytes.
  induction byteLengths as [|b bs IH]; intros p Hsum; simpl in *.
  - split_and!; [constructor|constructor|done|done].
  - destruct (IH (p + b)) as (Hsorted & Hlow & Hlen & Hlast); [lia|].
    split_and!.
    + constructor; [done|].
      destruct (import_reports true totalBytes bs (p + b)) as [|r rs];
        constructor. by apply Forall_cons in Hlow as [? _].
    + constructor; [apply percent_mono; lia|].
      eapply Forall_impl; [exact Hlow|]. intros r Hr. simpl in Hr.
      etrans; [|exact Hr]. apply percent_mono; lia.
    + by rewrite Hlen.
    + intros _. destruct bs as [|b' bs'].
      * simpl. by rewrite Nat.add_0_r.
      * rewrite last_cons, Hlast by done.
        by rewrite Nat.add_assoc.
Qed.

(** The reads of a file deliver all its bytes.  With a callback,
    [importBackup] reports once per read; the values never decrease, and
    the last one is 100 for a file that is not empty.  Without a callback,
    and for a stream without a read, nothing is reported. *)
Theorem importBackup_progress_reports (totalBytes : nat)
    (byteLengths : list nat) :
  sum_list byteLengths = totalBytes →
  let reports := importBackup_progress true totalBytes byteLengths in
  Sorted Z.le reports
  ∧ length reports = length byteLengths
  ∧ (0 < totalBytes → last reports = Some 100%Z)
  ∧ importBackup_progress false totalBytes byteLengths = []
  ∧ importBackup_progress true totalBytes [] = [].
Proof.
  intros Hsum. cbv zeta. unfold importBackup_progress.
  destruct (import_reports_sorted totalBytes byteLengths 0)
    as (Hsorted & _ & Hlen & Hlast); [simpl; lia|].
  split_and!; [done|done| | |done].
  - intros Hpos. rewrite Hlast.
    + simpl. by rewrite Hsum, percent_full.
    + intros ->. simpl in Hsum. lia.
  - clear. generalize 0. induction byteLengths as [|b bs IH]; intros p; [done|].
    simpl. apply IH.
Qed.

End ImportProgressFacts.

(** * Evaluation on the reference platform *)

#[local] Existing Instance Reference.codec.
#[local] Existing Instance Reference.arith.
#[local] Existing Instance Reference.sqljs.

(** The exact rounding of [Reference.arith] has the two properties of the
    double arithmetic. *)
Lemma reference_arith_laws : @FloatArithLaws Reference.arith.
Proof.
  split; unfold percent; simpl.
  - intros p q t Hpq Hqt. destruct (Nat.eq_dec t 0) as [->|Ht].
    + by rewrite !Z.div_0_r.
    + apply Z.div_le_mono; lia.
  - intros t Ht. symmetry. apply (Z.div_unique _ _ _ (Z.of_nat t)); lia.
Qed.

(** C1, on the store [two] and one sentence, the backup read in one piece
    into an empty store. *)
Lemma C1_witness :
  ∃ s, importBackup [backup_text "2024-05-01T10:00:00.000Z" [Stores.greeting] Stores.two] ∅
       = Some s
       ∧ imageCount s = 2
       ∧ restoredSentences s = [restored Stores.greeting]
       ∧ store s !! "a" = Some "x" ∧ store s !! "b" = Some "y".
Proof.
  destruct (C1_roundtrip Stores.no_picker [Stores.greeting] false Stores.two ∅
              (backup_text "2024-05-01T10:00:00.000Z" [Stores.greeting] Stores.two)
              [backup_text "2024-05-01T10:00:00.000Z" [Stores.greeting] Stores.two])
    as (s & Himp & Hcount & Hsent & _ & _ & Hkept & _).
  - vm_compute. reflexivity.
  - vm_compute. reflexivity.
  - apply ReferenceFacts.export_faithful.
  - exists s. split; [exact Himp|]. split; [rewrite Hcount; vm_compute; reflexivity|].
    split; [exact Hsent|]. split; apply Hkept; done.
Defined.

(** C1 fails as stated: the import refuses the record of the one artifact
    of [empty_artifact], whose [base64] is empty, and writes nothing,
    whether into the same store or into an empty one, where the key is
    then missing; it refuses the record of the artifact of [empty_key]
    as well, whose [id] is empty. *)
Lemma C1_counterexample :
  size Stores.empty_artifact = 1
  ∧ (∃ text s s',
       delivered (exportBackup Stores.no_picker [] false Stores.empty_artifact)
       = Some text
       ∧ importBackup [text] Stores.empty_artifact = Some s ∧ imageCount s = 0
       ∧ importBackup [text] ∅ = Some s' ∧ store s' !! "a" = None)
  ∧ size Stores.empty_key = 1
  ∧ (∃ text s,
       delivered (exportBackup Stores.no_picker [] false Stores.empty_key)
       = Some text
       ∧ importBackup [text] ∅ = Some s ∧ imageCount s = 0
       ∧ store s !! "" = None).
Proof.
  split; [reflexivity|]. split.
  - eexists _, _, _. split; [vm_compute; reflexivity|].
    split; [vm_compute; reflexivity|]. split; [reflexivity|].
    split; [vm_compute; reflexivity|reflexivity].
  - split; [reflexivity|]. eexists _, _. split; [vm_compute; reflexivity|].
    split; [vm_compute; reflexivity|]. split; reflexivity.
Qed.

(** C2, on a store of 120 keys that all hold an artifact. *)
Lemma C2_witness :
  ∃ chunks reports,
    exportToSQLiteChunks false Stores.full_120 = Some (chunks, reports)
    ∧ length chunks = 3
    ∧ (λ b, length (rows_of Stores.full_120 b))
        <$> key_batches (getAllKeys Stores.full_120) = [50; 50; 20].
Proof.
  destruct (C2_chunks false Stores.full_120)
    as (Hexport & _ & _ & _ & H120 & _).
  destruct H120 as [Hbatches Hrows]; [vm_compute; reflexivity|].
  eexists _, _. split; [exact Hexport|]. split.
  - by rewrite length_fmap, <- (length_fmap length), Hbatches.
  - apply Hrows. intros k v Hv ->.
    apply elem_of_list_to_map_2 in Hv.
    by apply list_elem_of_fmap in Hv as (i & [= _ Hempty] & _).
Defined.

(** C2 fails as stated: [hundred_twenty] has 120 keys, and its three
    chunks hold 49, 50 and 20 rows: the first batch has the key [k0], whose
    artifact is empty. *)
Lemma C2_counterexample :
  size Stores.hundred_twenty = 120
  ∧ ∃ chunks reports,
      exportToSQLiteChunks false Stores.hundred_twenty = Some (chunks, reports)
      ∧ (λ c, length (default [] (select_images <$> SQL_open c))) <$> chunks
        = [49; 50; 20].
Proof.
  split; [vm_compute; reflexivity|].
  destruct (exportToSQLiteChunks false Stores.hundred_twenty)
    as [[chunks reports]|] eqn:E; vm_compute in E; [|discriminate E].
  injection E as <- <-. eexists _, _. split; [reflexivity|].
  vm_compute. reflexivity.
Qed.

(** C3. The complete line [{"type":"thumb","id":"a","base64":"x"}], whose
    [type] is neither [sentence] nor [image], is not ignored: the import
    writes its image, counts it and lists its id as a legacy id. *)
Theorem C3_unknown_type_not_ignored :
  JSON_parse Examples.thumb_line = Some Examples.thumb_record ∧
  importBackup [line Examples.thumb_line ""] ∅
  = Some {| imageCount := 1; restoredSentences := [];
            legacyImageIds := ["a"]; store := {["a" := "x"]} |}.
Proof. split; vm_compute; reflexivity. Qed.

(** C4, on a stream of an image record and then the legacy record of
    [x1] as its unterminated last line, with no current sentence. *)
Lemma C4_witness :
  match importBackup [line Examples.image_a Stores.legacy_x1] ∅ with
  | Some s =>
      "x1" ∈ legacyImageIds s ∧ is_Some (store s !! "x1")
      ∧ placeholder "x1" ∈ reconcile [] (restoredSentences s) (legacyImageIds s)
      ∧ ∀ e, e ∈ reconcile [] (restoredSentences s) (legacyImageIds s) →
             id e = "x1" → e = placeholder "x1"
  | None => False
  end.
Proof.
  destruct (importBackup [line Examples.image_a Stores.legacy_x1] ∅)
    as [s|] eqn:E.
  - assert (legacy_line Stores.legacy_x1 "x1" "d") as Hl.
    { split; [reflexivity|]. split; [reflexivity|].
      eexists. split; [vm_compute; reflexivity|]. by repeat split. }
    destruct (C4_legacy_reconciled (line Examples.image_a "") Stores.legacy_x1
                "" "x1" "d" [line Examples.image_a Stores.legacy_x1] ∅ s []
                Hl eq_refl (or_introl eq_refl) eq_refl E)
      as (_ & Hlegacy & Hstore & Hrec).
    assert ("x1" ∉ id <$> restoredSentences s) as Hfresh.
    { vm_compute in E. injection E as <-. simpl. apply not_elem_of_nil. }
    destruct (Hrec (not_elem_of_nil _) Hfresh) as (Hin & _ & _ & _ & Huniq).
    by split_and!.
  - vm_compute in E. discriminate E.
Defined.

(** C4 fails as stated.  When the stream also restores a sentence with id
    [x1], the legacy record of [x1] yields no placeholder: the restored
    sentence is the only one with that id.  And a legacy record whose
    [base64] is present but empty is not imported at all. *)
Lemma C4_counterexample :
  (∃ s, importBackup [line Stores.sentence_x1 (line Stores.legacy_x1 "")] ∅
        = Some s
        ∧ legacyImageIds s = ["x1"]
        ∧ reconcile [] (restoredSentences s) (legacyImageIds s)
          = [{| id := "x1"; english_text := "hi"; imageUrl := None;
                status := pending |}])
  ∧ importBackup [line Stores.legacy_x1_empty ""] ∅ = Some nothing.
Proof.
  split; [|vm_compute; reflexivity].
  eexists. split; [vm_compute; reflexivity|]. split; reflexivity.
Qed.

(** C5, on the buffers of [Stores].  Bytes that are no database make the
    function fail with the error of sql.js, not with the invalid-format
    error. *)
Lemma C5_witness :
  importFromSQLite Stores.refused ∅ = inl InvalidFormatError
  ∧ importFromSQLite Stores.no_table ∅ = inl InvalidSchemaError
  ∧ importFromSQLite Stores.two_rows ∅
    = inr (2, saveImage "b" "y" (saveImage "a" "x" ∅))
  ∧ importFromSQLite Stores.unreadable ∅ = inl (SqlJsError ∅)
  ∧ importFromSQLite Stores.damaged ∅ = inl (SqlJsError (saveImage "a" "x" ∅)).
Proof.
  split; [by apply (C5_importFromSQLite Stores.refused ∅)|]. split.
  { apply (C5_importFromSQLite Stores.no_table ∅).
    exists [("notes", [])]. split; [done|]. by intros ?%list_elem_of_singleton. }
  split.
  { apply (proj1 (proj2 (proj2 (C5_importFromSQLite Stores.two_rows ∅)))
             [("images", [("a", "x"); ("b", "y")])] eq_refl).
    by left. }
  split.
  - by apply (C5_importFromSQLite Stores.unreadable ∅).
  - by apply (proj2 (proj2 (proj2 (proj2
                (C5_importFromSQLite Stores.damaged ∅)))) [("a", "x")]).
Defined.

(** C6, on the stream of [image_a] and then the legacy record of [x1] as
    its unterminated last line. *)
Lemma C6_witness :
  same_images
    (importBackup [line Examples.image_a ""; Stores.legacy_x1] ∅)
    (importBackup [line Examples.image_a (line Stores.legacy_x1 "")] ∅)
  ∧ importBackup [line Examples.image_a ""; Stores.legacy_x1] ∅
    = importBackup [line Examples.image_a (line Stores.legacy_x1 "")] ∅.
Proof.
  destruct (C6_final_line_imported (line Examples.image_a Stores.legacy_x1)
              [line Examples.image_a ""; Stores.legacy_x1]
              [line Examples.image_a (line Stores.legacy_x1 "")] ∅)
    as [Hsame Heq].
  - vm_compute. reflexivity.
  - vm_compute. reflexivity.
  - split; [exact Hsame|]. apply Heq. intros data Hp.
    vm_compute in Hp. injection Hp as <-. reflexivity.
Defined.

(** C6, where the code departs from it.  The record of an unknown type
    as the last line of a file: without the final newline its id is not
    listed as a legacy id, with the newline it is.  The block of the
    leftover tests [!data.type] before it lists the id; the line loop,
    whose branch is commented as the one of the records without a type,
    does not. *)
Lemma C6_counterexample :
  importBackup [Examples.thumb_line] ∅
  = Some {| imageCount := 1; restoredSentences := [];
            legacyImageIds := []; store := {["a" := "x"]} |}
  ∧ importBackup [line Examples.thumb_line ""] ∅
    = Some {| imageCount := 1; restoredSentences := [];
              legacyImageIds := ["a"]; store := {["a" := "x"]} |}.
Proof. split; vm_compute; reflexivity. Qed.


(** C7, on the stream of [image_a], [not_json] and [image_b], cut in the
    middle of the malformed line. *)
Lemma C7_witness :
  image_line Examples.image_a "a" "x" ∧ image_line Examples.image_b "b" "y" ∧
  has_newline Examples.not_json = false ∧ JSON_parse Examples.not_json = None ∧
  importBackup [line Examples.image_a "{not"; line " json" (line Examples.image_b "")] ∅
  = Some {| imageCount := 2; restoredSentences := []; legacyImageIds := [];
            store := saveImage "b" "y" (saveImage "a" "x" ∅) |}.
Proof.
  assert (image_line Examples.image_a "a" "x") as Ha.
  { split; [reflexivity|]. split; [reflexivity|].
    eexists. split; [vm_compute; reflexivity|]. by repeat split. }
  assert (image_line Examples.image_b "b" "y") as Hb.
  { split; [reflexivity|]. split; [reflexivity|].
    eexists. split; [vm_compute; reflexivity|]. by repeat split. }
  split; [exact Ha|]. split; [exact Hb|].
  split; [reflexivity|]. split; [reflexivity|].
  apply (proj1 (C7_malformed_line_skipped Examples.image_a Examples.not_json
                  Examples.image_b "a" "x" "b" "y" Ha Hb eq_refl eq_refl)).
  reflexivity.
Defined.

(** C8, on a stream of two records, read whole and then in two pieces. *)
Lemma C8_witness :
  match importBackup [line Examples.image_a Stores.legacy_x1] ∅ with
  | Some s1 =>
      ∃ s2, importBackup [line Examples.image_a ""; Stores.legacy_x1] (store s1)
            = Some s2
            ∧ dom (store s2) = dom (store s1)
            ∧ store s2 = store s1
            ∧ imageCount s2 = imageCount s1
            ∧ restoredSentences s2 = restoredSentences s1
            ∧ legacyImageIds s2 = legacyImageIds s1
  | None => False
  end.
Proof.
  destruct (importBackup [line Examples.image_a Stores.legacy_x1] ∅)
    as [s1|] eqn:E.
  - apply (C8_import_twice _ _ _ _ eq_refl E).
  - vm_compute in E. discriminate E.
Defined.


(** ** The further properties, on concrete inputs *)

(** An import of two records into the store [two]. *)
Lemma importBackup_only_adds_witness :
  match importBackup [line Examples.image_a Stores.legacy_x1] Stores.two with
  | Some s =>
      import_invariant Stores.two s
      ∧ ∃ e, importBackup [line Examples.image_a Stores.legacy_x1] ∅ = Some e
             ∧ imageCount s = imageCount e
             ∧ restoredSentences s = restoredSentences e
             ∧ legacyImageIds s = legacyImageIds e
             ∧ store s = store e ∪ Stores.two
  | None => False
  end.
Proof.
  destruct (importBackup [line Examples.image_a Stores.legacy_x1] Stores.two)
    as [s|] eqn:E.
  - apply (importBackup_only_adds _ _ _ E).
  - vm_compute in E. discriminate E.
Defined.

(** The header line of a backup is ignored. *)
Lemma import_line_ignored_witness :
  import_line (JSON_stringify (header_record "2024-05-01T10:00:00.000Z" 2)) nothing
  = Some nothing
  ∧ import_leftover (JSON_stringify (header_record "2024-05-01T10:00:00.000Z" 2))
      nothing
    = Some nothing.
Proof.
  apply import_line_ignored. right. eexists. split; [vm_compute; reflexivity|].
  reflexivity.
Defined.

Lemma reference_sqljs_laws : @SqlJsLaws Reference.sqljs.
Proof. by split. Qed.

(** The snapshot of the store [two], imported into an empty store. *)
Lemma sqlite_export_then_import_witness :
  ∃ chunks reports,
    exportToSQLiteChunks false Stores.two = Some (chunks, reports)
    ∧ ∀ files, files ≡ₚ chunks →
        importAll files ∅ = inr (size (visible Stores.two), visible Stores.two ∪ ∅).
Proof.
  exact (@sqlite_export_then_import Reference.arith Reference.sqljs
           reference_sqljs_laws false Stores.two ∅).
Defined.

(** The file [two_rows], imported twice. *)
Lemma importFromSQLite_twice_witness :
  importFromSQLite Stores.two_rows (saveImage "b" "y" (saveImage "a" "x" ∅))
  = inr (2, saveImage "b" "y" (saveImage "a" "x" ∅)).
Proof.
  apply (importFromSQLite_twice Stores.two_rows ∅). reflexivity.
Defined.

(** The CSV file of [Inputs], with either kind of line end. *)
Lemma parseCsv_lines_witness :
  App.parseCsv (App.join lf (Inputs.csv_header :: Inputs.csv_lines))
  = Inputs.csv_sentences
  ∧ App.parseCsv (App.join (cr +:+ lf) (Inputs.csv_header :: Inputs.csv_lines))
    = Inputs.csv_sentences.
Proof.
  destruct (parseCsv_lines Inputs.csv_header Inputs.csv_lines)
    as (Hlf & Hcrlf & _); [reflexivity|by repeat constructor|].
  rewrite Hlf, Hcrlf. by split.
Defined.

(** The third data line of [Inputs]. *)
Lemma parse_line_fields_witness :
  App.parse_line (" 2 " +:+ "," +:+ dquote +:+ "Hi, there" +:+ dquote)
  = {| id := "2"; english_text := "Hi, there"; imageUrl := None;
       status := pending |}.
Proof.
  by rewrite (proj1 (proj2 (parse_line_fields " 2 " "Hi, there" eq_refl))).
Defined.

(** A rejected write after one record: the download is complete, and the
    counter goes on from one. *)
Lemma exportBackup_fallback_progress_witness :
  progress (exportBackup Session.failing_write [Stores.greeting] true Stores.two)
  = [100%Z]
  ∧ progress (exportBackup Session.failing_write [Stores.greeting] true Stores.two)
    = mjoin (reportProgress true 3 <$> seq 1 1)
      ++ mjoin (reportProgress true 3 <$> seq 2 3).
Proof.
  split; [vm_compute; reflexivity|].
  apply (exportBackup_fallback_progress Session.failing_write [Stores.greeting]
           true Stores.two 4); [reflexivity|reflexivity|vm_compute; lia].
Defined.

Lemma session_distinct : NoDup (id <$> App.sentences Session.start).
Proof.
  simpl. repeat (apply NoDup_cons; split;
                 [rewrite ?elem_of_cons, elem_of_nil; naive_solver|]).
  constructor.
Qed.

Lemma session_consistent :
  consistent (App.images Session.start) (App.sentences Session.start).
Proof.
  intros s Hs. simpl in Hs.
  repeat (apply elem_of_cons in Hs as [->|Hs]); [..|by apply not_elem_of_nil in Hs];
    simpl; (split; [intros ?|intros [? Hv]]); try done; by vm_compute in Hv.
Qed.

(** A batch of two on the session [start]: the first sentence is
    completed at the second call, the third at the third. *)
Lemma startBatch_outcome_witness :
  Forall2
    (batch_outcome
       (take 2 (filter (λ s, status s ≠ completed) (App.sentences Session.start)))
       (App.images Session.start)
       (App.images (App.startBatch Session.service "flat colour" 2 Session.start)))
    (App.sentences Session.start)
    (App.sentences (App.startBatch Session.service "flat colour" 2 Session.start))
  ∧ status <$> App.sentences
                 (App.startBatch Session.service "flat colour" 2 Session.start)
    = [completed; completed; completed]
  ∧ App.calls (App.startBatch Session.service "flat colour" 2 Session.start) = 3.
Proof.
  split; [|split; vm_compute; reflexivity].
  apply (startBatch_outcome Session.service "flat colour" 2 Session.start);
    [discriminate|apply session_distinct].
Defined.

(** The same batch keeps the statuses in agreement with the store. *)
Lemma startBatch_consistent_witness :
  consistent
    (App.images (App.startBatch Session.service "flat colour" 2 Session.start))
    (App.sentences (App.startBatch Session.service "flat colour" 2 Session.start)).
Proof.
  apply (startBatch_consistent Session.service "flat colour" 2 Session.start);
    [apply session_distinct|apply session_consistent].
Defined.

(** The row of a sentence whose artifact is in the store [two]: shown
    when the prop is completed, cleared when it is pending. *)
Lemma load_then_follow_witness :
  SentenceItem.shown
    (SentenceItem.follow Rows.done_
       (SentenceItem.load Stores.two Rows.done_ true
          (SentenceItem.initial Rows.done_)))
  = Some "x"
  ∧ SentenceItem.shown
      (SentenceItem.follow Rows.waiting
         (SentenceItem.load Stores.two Rows.waiting true
            (SentenceItem.initial Rows.waiting)))
    = None.
Proof.
  split.
  - apply (load_then_follow Stores.two Rows.done_
             (SentenceItem.initial Rows.done_) "x"); done.
  - apply (load_then_follow Stores.two Rows.waiting
             (SentenceItem.initial Rows.waiting) "x"); done.
Defined.

(** A file of 10 bytes read in pieces of 4, 4 and 2 bytes. *)
Lemma importBackup_progress_reports_witness :
  importBackup_progress true 10 [4; 4; 2] = [40%Z; 80%Z; 100%Z]
  ∧ Sorted Z.le (importBackup_progress true 10 [4; 4; 2])
  ∧ last (importBackup_progress true 10 [4; 4; 2]) = Some 100%Z.
Proof.
  split; [vm_compute; reflexivity|].
  destruct (@importBackup_progress_reports Reference.arith reference_arith_laws
              10 [4; 4; 2] eq_refl) as (Hsorted & _ & Hlast & _).
  split; [exact Hsorted|]. apply Hlast. lia.
Defined.
